(** * Verification of beartype's memoizing call cache, scope registry and
      breadth-first PEP hint compiler

    The development embeds three pieces of the repository:

    - [beartype/_util/cache/utilcachecall.py]: the [callable_cached]
      decorator (module [CallCache]);
    - [beartype/_check/code/_codescope.py]: the scope adders and the
      forward reference expresser (module [CodeScope]);
    - [beartype/_decor/_code/_pep/_pephint.py]: [pep_code_check_hint]
      (module [PepHint]).

    Python objects are modelled by value where the code only observes their
    value (dictionary keys, strings) and by identity where the code observes
    identity ([is], [id()], in-place mutation). *)

From Stdlib Require Import Ascii String.
From stdpp Require Import gmap strings list fin_maps pretty countable.

Open Scope string_scope.
Open Scope list_scope.
Open Scope nat_scope.

(** ** Hashable Python values used as arguments of memoized callables *)

Module PyVal.

(** A Python value up to [==].  [VObj i] is an object compared by identity
    (an instance of a class that does not override [__eq__], such as
    [object()]); [VList] stands for the unhashable containers. *)
Local Unset Elimination Schemes.
Inductive pyval : Type :=
| VNone
| VInt (z : Z)
| VStr (s : string)
| VObj (id : nat)
| VTuple (items : list pyval)
| VList (items : list pyval).
Local Set Elimination Schemes.

(** [hash(v)] succeeds: a tuple is hashable iff all of its items are. *)
Fixpoint hashable (v : pyval) : bool :=
  match v with
  | VList _ => false
  | VTuple items => forallb hashable items
  | _ => true
  end.

Section pyval_nested_ind.
Variable P : pyval → Prop.
Hypothesis HNone : P VNone.
Hypothesis HInt : ∀ z, P (VInt z).
Hypothesis HStr : ∀ s, P (VStr s).
Hypothesis HObj : ∀ i, P (VObj i).
Hypothesis HTuple : ∀ l, Forall P l → P (VTuple l).
Hypothesis HList : ∀ l, Forall P l → P (VList l).

Fixpoint pyval_nested_ind (v : pyval) : P v :=
  let fix go (l : list pyval) : Forall P l :=
    match l with
    | [] => Forall_nil P
    | x :: l' => Forall_cons P x l' (pyval_nested_ind x) (go l')
    end in
  match v with
  | VNone => HNone
  | VInt z => HInt z
  | VStr s => HStr s
  | VObj i => HObj i
  | VTuple l => HTuple l (go l)
  | VList l => HList l (go l)
  end.
End pyval_nested_ind.

(** Encoding into stdpp's generic trees, from which equality decision and
    countability (needed for dictionary keys) are derived. *)
Definition leaf : Type := (unit + Z) + (string + nat).

Fixpoint encode_pyval (v : pyval) : gen_tree leaf :=
  match v with
  | VNone => GenLeaf (inl (inl tt))
  | VInt z => GenLeaf (inl (inr z))
  | VStr s => GenLeaf (inr (inl s))
  | VObj i => GenLeaf (inr (inr i))
  | VTuple l => GenNode 0 (map encode_pyval l)
  | VList l => GenNode 1 (map encode_pyval l)
  end.

Fixpoint decode_pyval (t : gen_tree leaf) : pyval :=
  match t with
  | GenLeaf (inl (inl _)) => VNone
  | GenLeaf (inl (inr z)) => VInt z
  | GenLeaf (inr (inl s)) => VStr s
  | GenLeaf (inr (inr i)) => VObj i
  | GenNode 0 l => VTuple (map decode_pyval l)
  | GenNode _ l => VList (map decode_pyval l)
  end.

Lemma decode_encode_pyval v : decode_pyval (encode_pyval v) = v.
Proof.
  induction v as [| | | |l IH|l IH] using pyval_nested_ind; simpl; try done.
  - f_equal. induction IH as [|x l Hx _ IHl]; simpl; [done|]. by rewrite Hx, IHl.
  - f_equal. induction IH as [|x l Hx _ IHl]; simpl; [done|]. by rewrite Hx, IHl.
Qed.

Lemma encode_pyval_inj v w : encode_pyval v = encode_pyval w → v = w.
Proof.
  intros H. rewrite <- (decode_encode_pyval v), <- (decode_encode_pyval w).
  by rewrite H.
Qed.

#[export] Instance pyval_eq_dec : EqDecision pyval.
Proof.
  intros v w. destruct (decide (encode_pyval v = encode_pyval w)) as [H|H].
  - left. by apply encode_pyval_inj.
  - right. intros ->. by apply H.
Defined.

#[export] Instance pyval_countable : Countable pyval :=
  inj_countable' encode_pyval decode_pyval decode_encode_pyval.

End PyVal.

(** ** [beartype/_util/cache/utilcachecall.py] *)

Module CallCache.
Import PyVal.

(** An arbitrary Python object, by identity (what [id()] returns). *)
Definition obj : Type := nat.

(** An object raised by the decorated callable: its identity, and whether its
    class derives from [Exception] (as opposed to deriving from
    [BaseException] only, like [KeyboardInterrupt]). *)
Record pyexc : Type := PyExc { exc_obj : obj; exc_is_Exception : bool }.

#[export] Instance pyexc_eq_dec : EqDecision pyexc.
Proof. solve_decision. Defined.

(** [_SENTINEL_KWARGS_KEYS = (object(),)] and
    [_SENTINEL_KWARGS_VALUES = (object(),)]: two 1-tuples, each holding a
    distinct module-private object. *)
Definition _SENTINEL_KWARGS_KEYS : list pyval := [VObj 0].
Definition _SENTINEL_KWARGS_VALUES : list pyval := [VObj 1].

(** The keyword arguments of a call, in the order of [kwargs.keys()]. *)
Definition kwargs_t : Type := list (string * pyval).

(** Lines 240-255 of [_callable_cached]: the flattened key. *)
Definition params_flat (args : list pyval) (kwargs : kwargs_t) : pyval :=
  match kwargs with
  | _ :: _ =>
      VTuple (args ++
              _SENTINEL_KWARGS_KEYS ++ map (λ kv, VStr kv.1) kwargs ++
              _SENTINEL_KWARGS_VALUES ++ map snd kwargs)
  | [] =>
      match args with
      | [arg] => arg
      | _ => VTuple args
      end
  end.

(** What a call of the decorated callable does. *)
Inductive fresult : Type :=
| FReturn (v : obj)
| FRaise (e : pyexc).

(** What a call of the wrapper does; [RaisedTypeError] is the [TypeError]
    that [dict.get] raises on an unhashable key. *)
Inductive outcome : Type :=
| Returned (v : obj)
| Raised (e : pyexc)
| RaisedTypeError.

Section callable_cached.
(** The state the decorated callable may read and write. *)
Variable W : Type.
(** The decorated callable, when it does not call the wrapper while it
    runs: it works on its own state only.  A callable that does call the
    wrapper (the name it is bound to after decoration) is treated in
    [Reentrant] below, where [callable_cached_simple] relates the two. *)
Variable func : list pyval → kwargs_t → W → fresult * W.
(** [beartype._util.utilobj.SENTINEL], a module-level placeholder object. *)
Variable SENTINEL : obj.

(** The two dictionaries of the closure, the state of [func], and the number
    of times [func] has been called (kept to state that a call is a hit). *)
Record cache : Type := Cache {
  params_flat_to_return_value : gmap pyval obj;
  params_flat_to_exception : gmap pyval pyexc;
  world : W;
  invocations : nat;
}.

(** Lines 285-299: the call on a miss.  [except Exception] catches only
    objects whose class derives from [Exception]; anything else propagates
    without being cached. *)
Definition call_func (args : list pyval) (kwargs : kwargs_t) (key : pyval)
    (st : cache) : outcome * cache :=
  let '(r, w) := func args kwargs (world st) in
  match r with
  | FReturn v =>
      (Returned v,
       Cache (<[key := v]> (params_flat_to_return_value st))
             (params_flat_to_exception st) w (S (invocations st)))
  | FRaise e =>
      if exc_is_Exception e then
        (Raised e,
         Cache (params_flat_to_return_value st)
               (<[key := e]> (params_flat_to_exception st)) w
               (S (invocations st)))
      else
        (Raised e,
         Cache (params_flat_to_return_value st)
               (params_flat_to_exception st) w (S (invocations st)))
  end.

(** The closure [_callable_cached].  A raised object is
    an exception instance and [SENTINEL] is not, so the test
    [exception is not SENTINEL] is the test that the lookup found a key. *)
Definition _callable_cached (args : list pyval) (kwargs : kwargs_t)
    (st : cache) : outcome * cache :=
  let key := params_flat args kwargs in
  if negb (hashable key) then (RaisedTypeError, st)
  else
    match params_flat_to_exception st !! key with
    | Some exception => (Raised exception, st)
    | None =>
        let return_value :=
          default SENTINEL (params_flat_to_return_value st !! key) in
        if decide (return_value = SENTINEL) then call_func args kwargs key st
        else (Returned return_value, st)
    end.

(** A sequence of calls of the wrapper, results dropped. *)
Definition run (calls : list (list pyval * kwargs_t)) (st : cache) : cache :=
  fold_left (λ st c, (_callable_cached c.1 c.2 st).2) calls st.

(** The outcomes the wrapper memoizes. *)
Definition cacheable (o : outcome) : Prop :=
  match o with
  | Returned v => v ≠ SENTINEL
  | Raised e => exc_is_Exception e = true
  | RaisedTypeError => False
  end.

(** Key [k] is settled to outcome [o] in state [st]. *)
Definition settled (k : pyval) (o : outcome) (st : cache) : Prop :=
  hashable k = true ∧
  match o with
  | Returned v =>
      params_flat_to_exception st !! k = None ∧
      params_flat_to_return_value st !! k = Some v ∧ v ≠ SENTINEL
  | Raised e => params_flat_to_exception st !! k = Some e
  | RaisedTypeError => False
  end.
End callable_cached.

Arguments Cache {W}.
Arguments params_flat_to_return_value {W}.
Arguments params_flat_to_exception {W}.
Arguments world {W}.
Arguments invocations {W}.
Arguments call_func {W}.
Arguments _callable_cached {W}.
Arguments run {W}.
Arguments settled {W}.

(** A call passing exactly one positional argument that is itself a tuple,
    and no keyword argument. *)
Definition lone_tuple (args : list pyval) (kwargs : kwargs_t) : Prop :=
  kwargs = [] ∧ ∃ items, args = [VTuple items].

(** *** Properties of the flattened key *)

Lemma app_cons_split {A} (x : A) (l1 l2 r1 r2 : list A) :
  x ∉ l1 → x ∉ l2 → l1 ++ x :: r1 = l2 ++ x :: r2 → l1 = l2 ∧ r1 = r2.
Proof.
  revert l2. induction l1 as [|a l1 IH]; intros [|b l2] H1 H2 Heq; simpl in *.
  - by inversion Heq.
  - inversion Heq; subst. exfalso. apply H2. by left.
  - inversion Heq; subst. exfalso. apply H1. by left.
  - inversion Heq; subst.
    destruct (IH l2) as [-> ->]; [ | |done|done].
    + intros ?. apply H1. by right.
    + intros ?. apply H2. by right.
Qed.

Lemma VStr_not_sentinel (kwargs : kwargs_t) i :
  VObj i ∉ map (λ kv : string * pyval, VStr kv.1) kwargs.
Proof.
  induction kwargs as [|kv l IH]; simpl.
  - apply not_elem_of_nil.
  - apply not_elem_of_cons. split; [discriminate|done].
Qed.

Lemma kwargs_of_names_values (k1 k2 : kwargs_t) :
  map (λ kv : string * pyval, VStr kv.1) k1 =
    map (λ kv : string * pyval, VStr kv.1) k2 →
  map snd k1 = map snd k2 → k1 = k2.
Proof.
  revert k2. induction k1 as [|[n v] k1 IH]; intros [|[n' v'] k2]; simpl;
    try done.
  intros Hn Hv. inversion Hn; inversion Hv; subst. f_equal. by apply IH.
Qed.

Lemma params_flat_kwargs_inj a1 kv1 k1 a2 kv2 k2 :
  VObj 0 ∉ a1 → VObj 0 ∉ a2 →
  params_flat a1 (kv1 :: k1) = params_flat a2 (kv2 :: k2) →
  a1 = a2 ∧ kv1 :: k1 = kv2 :: k2.
Proof.
  intros H1 H2 Heq. unfold params_flat, _SENTINEL_KWARGS_KEYS in Heq.
  injection Heq as Heq.
  apply app_cons_split in Heq as [-> Heq]; [|done|done].
  split; [done|]. simpl in Heq.
  change (map (λ kv : string * pyval, VStr kv.1) (kv1 :: k1) ++
            VObj 1 :: map snd (kv1 :: k1) =
          map (λ kv : string * pyval, VStr kv.1) (kv2 :: k2) ++
            VObj 1 :: map snd (kv2 :: k2)) in Heq.
  apply app_cons_split in Heq as [Hn Hv]; try apply VStr_not_sentinel.
  by apply kwargs_of_names_values.
Qed.

Lemma params_flat_kwargs_tuple a kv k :
  ∃ rest, params_flat a (kv :: k) = VTuple (a ++ VObj 0 :: rest).
Proof. unfold params_flat. simpl. eauto. Qed.

Lemma params_flat_positional a :
  (∃ x, a = [x] ∧ params_flat a [] = x) ∨
  ((∀ x, a ≠ [x]) ∧ params_flat a [] = VTuple a).
Proof.
  destruct a as [|x [|y a]]; simpl; [right|left|right]; eauto.
Qed.

(** C3, amended.  Among calls whose positional arguments do not include the
    module-private keyword sentinel, two calls with the same flattened key are
    the same call (same positional arguments, same keyword names and values in
    the same order), unless one of them passes a lone positional tuple and no
    keyword argument. *)
Theorem params_flat_injective_up_to_lone_tuple
    (a1 a2 : list pyval) (k1 k2 : kwargs_t) :
  VObj 0 ∉ a1 → VObj 0 ∉ a2 →
  params_flat a1 k1 = params_flat a2 k2 →
  (a1 = a2 ∧ k1 = k2) ∨ lone_tuple a1 k1 ∨ lone_tuple a2 k2.
Proof.
  intros H1 H2 Heq. destruct k1 as [|kv1 k1], k2 as [|kv2 k2].
  - destruct (params_flat_positional a1) as [(x & -> & E1)|[N1 E1]],
      (params_flat_positional a2) as [(y & -> & E2)|[N2 E2]].
    + left. split; [|done]. rewrite E1, E2 in Heq. by subst.
    + right; left. split; [done|]. rewrite E1, E2 in Heq. subst. eauto.
    + right; right. split; [done|]. rewrite E1, E2 in Heq. subst. eauto.
    + left. split; [|done]. rewrite E1, E2 in Heq. by inversion Heq.
  - destruct (params_flat_kwargs_tuple a2 kv2 k2) as [rest E2].
    destruct (params_flat_positional a1) as [(x & -> & E1)|[N1 E1]].
    + right; left. split; [done|]. rewrite E1, E2 in Heq. subst. eauto.
    + rewrite E1, E2 in Heq. inversion Heq; subst. exfalso. apply H1.
      apply elem_of_app. right. by left.
  - destruct (params_flat_kwargs_tuple a1 kv1 k1) as [rest E1].
    destruct (params_flat_positional a2) as [(x & -> & E2)|[N2 E2]].
    + right; right. split; [done|]. rewrite E1, E2 in Heq. subst. eauto.
    + rewrite E1, E2 in Heq. inversion Heq; subst. exfalso. apply H2.
      apply elem_of_app. right. by left.
  - left. by apply params_flat_kwargs_inj.
Qed.

(** C3 as stated fails: the call [f((1, 2))] and the call [f(1, 2)] are
    distinct calls with the same flattened key, hence one cache entry. *)
Lemma params_flat_lone_tuple_collision :
  [VTuple [VInt 1; VInt 2]] ≠ [VInt 1; VInt 2] ∧
  params_flat [VTuple [VInt 1; VInt 2]] [] = params_flat [VInt 1; VInt 2] [].
Proof. split; [discriminate|reflexivity]. Qed.

Lemma params_flat_injective_witness :
  (VObj 0 ∉ [VInt 1; VInt 2]) ∧ (VObj 0 ∉ [VInt 1; VInt 2]) ∧
  params_flat [VInt 1; VInt 2] [("k", VInt 3)] =
    params_flat [VInt 1; VInt 2] [("k", VInt 3)] ∧
  (([VInt 1; VInt 2] = [VInt 1; VInt 2] ∧
    [("k", VInt 3)] = [("k", VInt 3)]) ∨
   lone_tuple [VInt 1; VInt 2] [("k", VInt 3)] ∨
   lone_tuple [VInt 1; VInt 2] [("k", VInt 3)]).
Proof.
  assert (H : VObj 0 ∉ [VInt 1; VInt 2]).
  { intros Hin. repeat (apply elem_of_cons in Hin as [Hin|Hin]; [discriminate|]).
    by apply elem_of_nil in Hin. }
  split; [exact H|]. split; [exact H|]. split; [reflexivity|].
  exact (params_flat_injective_up_to_lone_tuple
           [VInt 1; VInt 2] [VInt 1; VInt 2] [("k", VInt 3)] [("k", VInt 3)]
           H H eq_refl).
Defined.

(** *** The decorator and further properties of the wrapper *)

(** [inspect.Parameter.kind]. *)
Inductive param_kind : Type :=
| POSITIONAL_ONLY
| POSITIONAL_OR_KEYWORD
| VAR_POSITIONAL
| KEYWORD_ONLY
| VAR_KEYWORD.

#[export] Instance param_kind_eq_dec : EqDecision param_kind.
Proof. solve_decision. Defined.

(** A parameter of the signature of the decorated callable: [param.name] and
    [param.kind]. *)
Record parameter : Type := Param { param_name : string; kind : param_kind }.

(** The set [_PARAM_KINDS_UNSUPPORTED]. *)
Definition _PARAM_KINDS_UNSUPPORTED : list param_kind :=
  [VAR_KEYWORD; VAR_POSITIONAL].

Section decorator.
(** [repr(param.kind)]. *)
Variable kind_repr : param_kind → string.

(** Lines 165 and 174-176: the message of the exception, for the callable
    named [name] and its parameter [param]. *)
Definition unsupported_message (name : string) (param : parameter) : string :=
  let func_name := "@callable_cached " +:+ name +:+ "()" in
  " " +:+ func_name +:+ "() parameter " +:+ param_name param +:+ " kind " +:+
  kind_repr (kind param) +:+ " unsupported.".

(** Lines 172-176: the loop over the parameters; [Some] is the message of
    the [_BeartypeCallableCachedException] it raises. *)
Fixpoint check_parameters (name : string) (params : list parameter)
    : option string :=
  match params with
  | [] => None
  | param :: params' =>
      if decide (kind param ∈ _PARAM_KINDS_UNSUPPORTED) then
        Some (unsupported_message name param)
      else check_parameters name params'
  end.

(** [callable_cached(func)] for a callable of the given name and signature:
    the message of the exception raised, or the two empty dictionaries
    ([params_flat_to_return_value], [params_flat_to_exception]) that the
    returned closure captures. *)
Definition callable_cached (name : string) (params : list parameter)
    : string + gmap pyval obj * gmap pyval pyexc :=
  match check_parameters name params with
  | Some message => inl message
  | None => inr (∅, ∅)
  end.

Lemma check_parameters_supported name params :
  Forall (λ p, kind p ∉ _PARAM_KINDS_UNSUPPORTED) params →
  check_parameters name params = None.
Proof.
  induction 1 as [|p params Hp _ IH]; simpl; [done|].
  by destruct (decide _).
Qed.

(** X1.  The decorator rejects a callable exactly at its first variadic
    parameter, which the message names, and accepts, with empty caches, a
    callable that has none. *)
Theorem callable_cached_rejects_first_variadic
    (name : string) (before after : list parameter) (param : parameter) :
  Forall (λ p, kind p ∉ _PARAM_KINDS_UNSUPPORTED) before →
  (kind param ∈ _PARAM_KINDS_UNSUPPORTED →
     callable_cached name (before ++ param :: after) =
       inl (unsupported_message name param)) ∧
  callable_cached name before = inr (∅, ∅).
Proof.
  intros Hbefore. unfold callable_cached. split.
  - intros Hparam. induction Hbefore as [|p before Hp _ IH]; simpl.
    + by destruct (decide _).
    + by destruct (decide _).
  - by rewrite check_parameters_supported.
Qed.
End decorator.

(** The flattened key is hashable exactly when every positional argument and
    every keyword value is. *)
Lemma hashable_params_flat args kwargs :
  hashable (params_flat args kwargs) =
  forallb hashable (args ++ map snd kwargs).
Proof.
  unfold params_flat. destruct kwargs as [|kv kwargs].
  - destruct args as [|x [|y args]]; simpl; rewrite ?app_nil_r; try done.
    by rewrite andb_true_r.
  - cbn [hashable]. rewrite !forallb_app.
    assert (Hn : ∀ l : kwargs_t,
      forallb hashable (map (λ kv : string * pyval, VStr kv.1) l) = true).
    { induction l as [|x l IH]; simpl; [done|]. exact IH. }
    unfold _SENTINEL_KWARGS_KEYS, _SENTINEL_KWARGS_VALUES.
    rewrite Hn. simpl. reflexivity.
Qed.

Section callable_cached_more.
Context {W : Type}.
Variable func : list pyval → kwargs_t → W → fresult * W.
Variable SENTINEL : obj.

Local Abbreviation wrapper := (_callable_cached func SENTINEL).

Lemma call_func_not_TypeError args kwargs key (st : cache W) :
  (call_func func args kwargs key st).1 ≠ RaisedTypeError.
Proof.
  unfold call_func. destruct (func args kwargs (world st)) as [[v|exc] w];
    [done|]. by destruct (exc_is_Exception exc).
Qed.

(** X2.  A call raises the [TypeError] of an unhashable key exactly when one of
    its positional arguments or keyword values is unhashable; the decorated
    callable is then not called and nothing is cached. *)
Theorem callable_cached_unhashable
    (args : list pyval) (kwargs : kwargs_t) (st : cache W) :
  ((wrapper args kwargs st).1 = RaisedTypeError ↔
   ∃ x, x ∈ args ++ map snd kwargs ∧ hashable x = false) ∧
  ((wrapper args kwargs st).1 = RaisedTypeError →
   (wrapper args kwargs st).2 = st).
Proof.
  unfold _callable_cached. rewrite hashable_params_flat.
  destruct (forallb hashable (args ++ map snd kwargs)) eqn:Hall; simpl.
  - assert (Hnot : (match params_flat_to_exception st !! params_flat args kwargs
              with
              | Some exception => (Raised exception, st)
              | None =>
                if decide (default SENTINEL
                    (params_flat_to_return_value st !! params_flat args kwargs)
                    = SENTINEL)
                then call_func func args kwargs (params_flat args kwargs) st
                else (Returned (default SENTINEL
                    (params_flat_to_return_value st !! params_flat args kwargs)),
                      st)
              end).1 ≠ RaisedTypeError).
    { destruct (params_flat_to_exception st !! _) as [exc|]; [done|].
      destruct (decide _); [|done]. apply call_func_not_TypeError. }
    split; [split|]; [done| |done].
    intros (x & Hx & Hh). rewrite forallb_forall in Hall.
    rewrite (Hall x) in Hh; [done|]. by apply list_elem_of_In.
  - split; [|done]. split; [intros _|done].
    apply not_true_iff_false in Hall. rewrite forallb_forall in Hall.
    destruct (decide (Exists (λ x, hashable x = false)
                             (args ++ map snd kwargs))) as [Hex|Hno].
    + apply Exists_exists in Hex as (x & Hx & Hh).
      exists x. split; [by apply list_elem_of_In|done].
    + exfalso. apply Hall. intros x Hx%list_elem_of_In.
      destruct (hashable x) eqn:Hh; [done|]. exfalso. apply Hno.
      apply Exists_exists. exists x. split; [by apply list_elem_of_In|done].
Qed.

End callable_cached_more.

Section pure_callable.
Context {W : Type}.
(** A callable whose result depends on its arguments only and that leaves
    the state alone. *)
Variable g : list pyval → kwargs_t → fresult.
Variable SENTINEL : obj.

Definition pure_func (args : list pyval) (kwargs : kwargs_t) (w : W)
    : fresult * W := (g args kwargs, w).

Definition outcome_of (r : fresult) : outcome :=
  match r with
  | FReturn v => Returned v
  | FRaise e => Raised e
  end.

(** Every cached entry is what [g] does on some call with that key. *)
Definition faithful (st : cache W) : Prop :=
  (∀ k v, params_flat_to_return_value st !! k = Some v →
     ∃ a kw, params_flat a kw = k ∧ g a kw = FReturn v) ∧
  (∀ k e, params_flat_to_exception st !! k = Some e →
     ∃ a kw, params_flat a kw = k ∧ g a kw = FRaise e).

Lemma faithful_call args kwargs st :
  faithful st →
  faithful (_callable_cached pure_func SENTINEL args kwargs st).2 ∧
  ((_callable_cached pure_func SENTINEL args kwargs st).1 = RaisedTypeError ∨
   ∃ a kw, params_flat a kw = params_flat args kwargs ∧
     outcome_of (g a kw) =
       (_callable_cached pure_func SENTINEL args kwargs st).1).
Proof.
  intros Hf. pose proof Hf as [Hr He]. unfold _callable_cached.
  destruct (hashable (params_flat args kwargs)); simpl; [|by auto].
  destruct (params_flat_to_exception st !! params_flat args kwargs) as [e|]
    eqn:Hexc; simpl.
  { split; [done|]. right. destruct (He _ _ Hexc) as (a & kw & Hk & Hg).
    exists a, kw. by rewrite Hg. }
  destruct (decide _) as [Hs|Hs]; simpl.
  - unfold call_func, pure_func.
    destruct (g args kwargs) as [v|e] eqn:Hg; simpl.
    + split; [|right; exists args, kwargs; by rewrite Hg].
      split; simpl; [|done]. intros k v0.
      destruct (decide (params_flat args kwargs = k)) as [<-|Hne].
      * rewrite lookup_insert_eq. intros [= <-]. eauto.
      * rewrite lookup_insert_ne by done. apply Hr.
    + destruct (exc_is_Exception e); simpl;
        (split; [|right; exists args, kwargs; by rewrite Hg]); [|done].
      split; simpl; [done|]. intros k e0.
      destruct (decide (params_flat args kwargs = k)) as [<-|Hne].
      * rewrite lookup_insert_eq. intros [= <-]. eauto.
      * rewrite lookup_insert_ne by done. apply He.
  - split; [done|]. right.
    destruct (params_flat_to_return_value st !! params_flat args kwargs)
      as [v|] eqn:Hret; simpl in *; [|done].
    destruct (Hr _ _ Hret) as (a & kw & Hk & Hg).
    exists a, kw. by rewrite Hg.
Qed.

Lemma faithful_run calls st :
  faithful st → faithful (run pure_func SENTINEL calls st).
Proof.
  revert st. induction calls as [|c calls IH]; intros st Hf; simpl; [done|].
  apply IH. by apply faithful_call.
Qed.

(** X4.  Memoizing a pure callable never makes up a result: starting from empty
    caches and after any sequence of calls, a call of the wrapper either
    raises the [TypeError] of an unhashable key or does what the callable
    itself does on some call with the same flattened key. *)
Theorem callable_cached_sound
    (calls : list (list pyval * kwargs_t)) (w : W)
    (args : list pyval) (kwargs : kwargs_t) :
  let st := run pure_func SENTINEL calls (Cache ∅ ∅ w 0) in
  (_callable_cached pure_func SENTINEL args kwargs st).1 = RaisedTypeError ∨
  ∃ a kw, params_flat a kw = params_flat args kwargs ∧
    outcome_of (g a kw) = (_callable_cached pure_func SENTINEL args kwargs st).1.
Proof.
  intros st. apply faithful_call. apply faithful_run.
  split; intros k x Hk; simpl in Hk; by rewrite lookup_empty in Hk.
Qed.
End pure_callable.

Lemma callable_cached_rejects_first_variadic_witness :
  let before := [Param "data" POSITIONAL_OR_KEYWORD] in
  let param := Param "args" VAR_POSITIONAL in
  Forall (λ p, kind p ∉ _PARAM_KINDS_UNSUPPORTED) before ∧
  (kind param ∈ _PARAM_KINDS_UNSUPPORTED →
     callable_cached (λ _, "VAR_POSITIONAL") "f"
       (before ++ param :: [Param "hint" KEYWORD_ONLY]) =
       inl (unsupported_message (λ _, "VAR_POSITIONAL") "f" param)) ∧
  callable_cached (λ _, "VAR_POSITIONAL") "f" before = inr (∅, ∅).
Proof.
  intros before param.
  assert (H : Forall (λ p, kind p ∉ _PARAM_KINDS_UNSUPPORTED) before).
  { constructor; [|constructor]. simpl. intros Hin.
    repeat (apply elem_of_cons in Hin as [Hin|Hin]; [discriminate|]).
    by apply elem_of_nil in Hin. }
  split; [exact H|].
  exact (callable_cached_rejects_first_variadic (λ _, "VAR_POSITIONAL") "f"
           before [Param "hint" KEYWORD_ONLY] param H).
Defined.

End CallCache.

(** ** [_callable_cached], for a callable that may call the wrapper *)

Module Reentrant.
Import PyVal CallCache.

(** What the decorated callable does when it is called.  It reads and writes
    its own state; it may call the wrapper, which is what the name of the
    callable is bound to once it is decorated, so that a recursive callable
    does; it goes on with what that call returned or raised (it may catch the
    exception); in the end it returns or raises. *)
Inductive body (W : Type) : Type :=
| Finish (r : fresult)
| Read (k : W → body W)
| Write (w : W) (k : body W)
| Call (args : list pyval) (kwargs : kwargs_t) (k : outcome → body W).
Arguments Finish {W}.
Arguments Read {W}.
Arguments Write {W}.
Arguments Call {W}.

(** The callable does not call the wrapper. *)
Fixpoint no_calls {W} (b : body W) : Prop :=
  match b with
  | Finish _ => True
  | Read k => ∀ w, no_calls (k w)
  | Write _ k => no_calls k
  | Call _ _ _ => False
  end.

(** The state of the closure with the state of the callable replaced. *)
Definition with_world {W} (w : W) (st : cache W) : cache W :=
  Cache (params_flat_to_return_value st) (params_flat_to_exception st) w
        (invocations st).

(** Lines 285-299, after [func] has run: the value is cached and returned,
    or the exception is cached, if [except Exception] catches it, and
    re-raised. *)
Definition store {W} (key : pyval) (r : fresult) (st : cache W)
    : outcome * cache W :=
  match r with
  | FReturn v =>
      (Returned v,
       Cache (<[key := v]> (params_flat_to_return_value st))
             (params_flat_to_exception st) (world st) (S (invocations st)))
  | FRaise e =>
      if exc_is_Exception e then
        (Raised e,
         Cache (params_flat_to_return_value st)
               (<[key := e]> (params_flat_to_exception st)) (world st)
               (S (invocations st)))
      else
        (Raised e,
         Cache (params_flat_to_return_value st) (params_flat_to_exception st)
               (world st) (S (invocations st)))
  end.

Section callable_cached.
Context {W : Type}.
(** The decorated callable. *)
Variable func : list pyval → kwargs_t → body W.
(** [beartype._util.utilobj.SENTINEL]. *)
Variable SENTINEL : obj.

(** The callable runs, given what a call of the wrapper does; [None] when
    a call of the wrapper does not come back. *)
Fixpoint run_body
    (wrapper : list pyval → kwargs_t → cache W → option (outcome * cache W))
    (b : body W) (st : cache W) : option (fresult * cache W) :=
  match b with
  | Finish r => Some (r, st)
  | Read k => run_body wrapper (k (world st)) st
  | Write w k => run_body wrapper k (with_world w st)
  | Call args kwargs k =>
      match wrapper args kwargs st with
      | Some (o, st') => run_body wrapper (k o) st'
      | None => None
      end
  end.

(** The closure [_callable_cached] (lines 195-299).  The two lookups come
    first, so a hit needs no fuel; on a miss the callable runs, and the calls
    of the wrapper it makes may nest [fuel] deep ([None]: they nest deeper,
    as in an unbounded recursion). *)
Fixpoint _callable_cached (fuel : nat) (args : list pyval) (kwargs : kwargs_t)
    (st : cache W) : option (outcome * cache W) :=
  let key := params_flat args kwargs in
  if negb (hashable key) then Some (RaisedTypeError, st)
  else
    match params_flat_to_exception st !! key with
    | Some exception => Some (Raised exception, st)
    | None =>
        let return_value :=
          default SENTINEL (params_flat_to_return_value st !! key) in
        if decide (return_value = SENTINEL) then
          match fuel with
          | 0 => None
          | S fuel' =>
              match run_body (_callable_cached fuel') (func args kwargs) st
              with
              | Some (r, st') => Some (store key r st')
              | None => None
              end
          end
        else Some (Returned return_value, st)
    end.

(** [later st st']: some calls of the wrapper, each of which came back, lead
    from [st] to [st']. *)
Inductive later : cache W → cache W → Prop :=
| later_now st : later st st
| later_call fuel args kwargs st o st1 st2 :
    _callable_cached fuel args kwargs st = Some (o, st1) →
    later st1 st2 →
    later st st2.

(** When the call that returned came back, no exception was cached under its
    key (one can be, by a call that the callable itself made). *)
Definition undisturbed (key : pyval) (o : outcome) (st : cache W) : Prop :=
  match o with
  | Returned _ => params_flat_to_exception st !! key = None
  | _ => True
  end.

(** *** Invariants of the wrapper *)

Lemma run_body_invariant (P : cache W → Prop) wrapper :
  (∀ args kwargs st o st',
     wrapper args kwargs st = Some (o, st') → P st → P st') →
  (∀ st w, P st → P (with_world w st)) →
  ∀ b st r st', run_body wrapper b st = Some (r, st') → P st → P st'.
Proof.
  intros Hwrapper Hworld.
  induction b as [r0|k IH|w k IH|args kwargs k IH]; intros st r st'; simpl.
  - by intros [= _ <-].
  - apply IH.
  - intros Hrun HP. eapply IH; [done|]. by apply Hworld.
  - destruct (wrapper args kwargs st) as [[o st1]|] eqn:E; [|done].
    intros Hrun HP. eapply IH; [done|]. by eapply Hwrapper.
Qed.

(** A property of the state that the callable's own writes keep, and that
    the store of a miss keeps when it held before the lookups, is kept by
    every call of the wrapper. *)
Lemma callable_cached_invariant (P : cache W → Prop) :
  (∀ st w, P st → P (with_world w st)) →
  (∀ key r st0 st,
     params_flat_to_exception st0 !! key = None →
     default SENTINEL (params_flat_to_return_value st0 !! key) = SENTINEL →
     P st0 → P st → P (store key r st).2) →
  ∀ fuel args kwargs st o st',
    _callable_cached fuel args kwargs st = Some (o, st') → P st → P st'.
Proof.
  intros Hworld Hstore.
  induction fuel as [|fuel IH]; intros args kwargs st o st'; simpl.
  - destruct (hashable (params_flat args kwargs)); simpl;
      [|by intros [= _ <-]].
    destruct (params_flat_to_exception st !! params_flat args kwargs);
      [by intros [= _ <-]|].
    destruct (decide _); [done|by intros [= _ <-]].
  - destruct (hashable (params_flat args kwargs)); simpl;
      [|by intros [= _ <-]].
    destruct (params_flat_to_exception st !! params_flat args kwargs) eqn:He;
      [by intros [= _ <-]|].
    destruct (decide _) as [Hs|Hs]; [|by intros [= _ <-]].
    destruct (run_body (_callable_cached fuel) (func args kwargs) st)
      as [[r st1]|] eqn:Hrun; [|done].
    intros [= Hout] HP.
    assert (HP1 : P st1) by (by eapply (run_body_invariant P)).
    pose proof (Hstore (params_flat args kwargs) r st st1 He Hs HP HP1) as H.
    by rewrite Hout in H.
Qed.

Lemma later_invariant (P : cache W → Prop) :
  (∀ fuel args kwargs st o st',
     _callable_cached fuel args kwargs st = Some (o, st') → P st → P st') →
  ∀ st st', later st st' → P st → P st'.
Proof.
  intros Hcall st st'. induction 1 as [st|fuel args kwargs st o st1 st2 E _ IH];
    [done|].
  intros HP. apply IH. by eapply Hcall.
Qed.

(** A store under another key leaves a key as it is. *)
Lemma store_other key k r (st : cache W) :
  key ≠ k →
  params_flat_to_exception (store key r st).2 !! k =
    params_flat_to_exception st !! k ∧
  params_flat_to_return_value (store key r st).2 !! k =
    params_flat_to_return_value st !! k.
Proof.
  intros Hne. unfold store. destruct r as [v|e]; simpl.
  - by rewrite lookup_insert_ne.
  - destruct (exc_is_Exception e); simpl; [|done].
    by rewrite lookup_insert_ne.
Qed.

(** A settled key stays settled, to the same outcome, whatever is called
    and whatever the callable calls. *)
Lemma callable_cached_preserves k o fuel args kwargs st o' st' :
  _callable_cached fuel args kwargs st = Some (o', st') →
  settled SENTINEL k o st → settled SENTINEL k o st'.
Proof.
  apply (callable_cached_invariant (settled SENTINEL k o)).
  - by intros st0 w.
  - intros key r st0 st1 He Hs [_ H0] [Hh H1].
    assert (Hne : key ≠ k).
    { intros ->. destruct o as [v|e|]; [| |done].
      - destruct H0 as (_ & Hv & Hvs). rewrite Hv in Hs. done.
      - congruence. }
    destruct (store_other key k r st1 Hne) as [Hexc Hret].
    split; [done|]. destruct o as [v|e|]; [|by rewrite Hexc|done].
    by rewrite Hexc, Hret.
Qed.

(** A call on a settled key is a hit, on any fuel: it yields the settled
    outcome and leaves both dictionaries, the state of the callable and the
    call count as they were. *)
Lemma callable_cached_hit o fuel args kwargs st :
  settled SENTINEL (params_flat args kwargs) o st →
  _callable_cached fuel args kwargs st = Some (o, st).
Proof.
  intros [Hh Hset].
  destruct o as [v|e|]; [| |done].
  - destruct Hset as (He & Hv & Hvs).
    destruct fuel; simpl; rewrite Hh, He, Hv; simpl;
      by destruct (decide (v = SENTINEL)).
  - destruct fuel; simpl; by rewrite Hh, Hset.
Qed.

(** The four ways a call of the wrapper comes back: the key is unhashable;
    an exception is cached; a value is cached; or the callable ran and its
    result was stored. *)
Lemma callable_cached_inv fuel args kwargs st o st' :
  _callable_cached fuel args kwargs st = Some (o, st') →
  (hashable (params_flat args kwargs) = false ∧
   o = RaisedTypeError ∧ st' = st) ∨
  (hashable (params_flat args kwargs) = true ∧
   ∃ e, params_flat_to_exception st !! params_flat args kwargs = Some e ∧
        o = Raised e ∧ st' = st) ∨
  (hashable (params_flat args kwargs) = true ∧
   params_flat_to_exception st !! params_flat args kwargs = None ∧
   ∃ v, params_flat_to_return_value st !! params_flat args kwargs = Some v ∧
        v ≠ SENTINEL ∧ o = Returned v ∧ st' = st) ∨
  (hashable (params_flat args kwargs) = true ∧
   params_flat_to_exception st !! params_flat args kwargs = None ∧
   ∃ fuel0 r st1,
     fuel = S fuel0 ∧
     run_body (_callable_cached fuel0) (func args kwargs) st =
       Some (r, st1) ∧
     store (params_flat args kwargs) r st1 = (o, st')).
Proof.
  assert (Hhit : ∀ miss : option (outcome * cache W),
    (if negb (hashable (params_flat args kwargs))
     then Some (RaisedTypeError, st)
     else
       match params_flat_to_exception st !! params_flat args kwargs with
       | Some exception => Some (Raised exception, st)
       | None =>
           if decide (default SENTINEL
                (params_flat_to_return_value st !! params_flat args kwargs)
                = SENTINEL)
           then miss
           else Some (Returned (default SENTINEL
                  (params_flat_to_return_value st !! params_flat args kwargs)),
                      st)
       end) = Some (o, st') →
    (hashable (params_flat args kwargs) = false ∧
     o = RaisedTypeError ∧ st' = st) ∨
    (hashable (params_flat args kwargs) = true ∧
     ∃ e, params_flat_to_exception st !! params_flat args kwargs = Some e ∧
          o = Raised e ∧ st' = st) ∨
    (hashable (params_flat args kwargs) = true ∧
     params_flat_to_exception st !! params_flat args kwargs = None ∧
     ∃ v, params_flat_to_return_value st !! params_flat args kwargs = Some v ∧
          v ≠ SENTINEL ∧ o = Returned v ∧ st' = st) ∨
    (hashable (params_flat args kwargs) = true ∧
     params_flat_to_exception st !! params_flat args kwargs = None ∧
     miss = Some (o, st'))).
  { intros miss.
    destruct (hashable (params_flat args kwargs)); simpl.
    2:{ intros [= <- <-]. by left. }
    destruct (params_flat_to_exception st !! params_flat args kwargs)
      as [e|].
    { intros [= <- <-]. right; left. eauto. }
    destruct (decide _) as [Hs|Hs].
    - intros ->. by do 3 right.
    - intros [= <- <-]. right; right; left. split; [done|]. split; [done|].
      destruct (params_flat_to_return_value st !! params_flat args kwargs)
        as [v|]; simpl in *; [|done]. exists v. done. }
  destruct fuel as [|fuel]; simpl; intros Hcall; apply Hhit in Hcall.
  - destruct Hcall as [H|[H|[H|(_ & _ & [=])]]]; auto.
  - destruct Hcall as [H|[H|[H|(Hh & He & Hmiss)]]]; auto.
    do 3 right. split; [done|]. split; [done|].
    destruct (run_body (_callable_cached fuel) (func args kwargs) st)
      as [[r st1]|] eqn:Hrun; [|done].
    exists fuel, r, st1. split; [done|]. split; [done|]. congruence.
Qed.

Lemma store_settles key r (st1 : cache W) o st' :
  store key r st1 = (o, st') →
  cacheable SENTINEL o →
  match o with
  | Returned v =>
      params_flat_to_exception st' !! key = params_flat_to_exception st1 !! key
      ∧ params_flat_to_return_value st' !! key = Some v ∧ v ≠ SENTINEL
  | Raised e => params_flat_to_exception st' !! key = Some e
  | RaisedTypeError => False
  end.
Proof.
  unfold store. destruct r as [v|e].
  - intros [= <- <-] Hv. simpl in *. by rewrite lookup_insert_eq.
  - destruct (exc_is_Exception e) eqn:Hexc; intros [= <- <-] Hc; simpl in *.
    + by rewrite lookup_insert_eq.
    + congruence.
Qed.

(** A call whose outcome is memoized, and that no call of its own disturbed,
    leaves its key settled to that outcome. *)
Lemma callable_cached_settles fuel args kwargs st o st' :
  _callable_cached fuel args kwargs st = Some (o, st') →
  cacheable SENTINEL o →
  undisturbed (params_flat args kwargs) o st' →
  settled SENTINEL (params_flat args kwargs) o st'.
Proof.
  intros Hcall Hc Hu.
  destruct (callable_cached_inv _ _ _ _ _ _ Hcall)
    as [(_ & -> & _)|[(Hh & e & He & -> & ->)|
        [(Hh & He & v & Hv & Hvs & -> & ->)|
         (Hh & He & fuel0 & r & st1 & _ & _ & Hstore)]]]; [done|done|done|].
  split; [done|]. pose proof (store_settles _ _ _ _ _ Hstore Hc) as H.
  destruct o as [v|e|]; [|done|done].
  destruct H as (_ & Hv & Hvs). done.
Qed.

(** A callable that does not call the wrapper leaves the dictionaries and
    the call count alone. *)
Lemma run_body_no_calls wrapper b st :
  no_calls b → ∃ r w, run_body wrapper b st = Some (r, with_world w st).
Proof.
  revert st. induction b as [r0|k IH|w k IH|args kwargs k IH]; intros st;
    simpl; [| | |done].
  - intros _. exists r0, (world st). by destruct st.
  - intros Hk. apply IH, Hk.
  - intros Hk. destruct (IH (with_world w st) Hk) as (r & w' & ->).
    by exists r, w'.
Qed.

Lemma callable_cached_no_calls fuel args kwargs st o st' :
  _callable_cached fuel args kwargs st = Some (o, st') →
  no_calls (func args kwargs) →
  undisturbed (params_flat args kwargs) o st'.
Proof.
  intros Hcall Hno. destruct o as [v|e|]; [|done..].
  destruct (callable_cached_inv _ _ _ _ _ _ Hcall)
    as [(_ & [=] & _)|[(Hh & e & He & [=] & _)|
        [(Hh & He & v0 & Hv & Hvs & _ & ->)|
         (Hh & He & fuel0 & r & st1 & _ & Hrun & Hstore)]]]; [done|].
  destruct (run_body_no_calls (_callable_cached fuel0) (func args kwargs) st
    Hno) as (r' & w & Hrun'). rewrite Hrun' in Hrun.
  injection Hrun as -> <-. unfold store in Hstore.
  destruct r as [v'|e']; [by injection Hstore as _ <-|].
  by destruct (exc_is_Exception e').
Qed.

(** C1, amended.  After a call of the wrapper with arguments [a] that
    returned a value [v] other than [SENTINEL], no exception having been
    cached under the key of [a] in the course of that call (none is when the
    callable does not call the wrapper), or that raised an object [e] whose
    class derives from [Exception], every later call whose arguments flatten
    to the same key returns that very [v], respectively raises that very
    [e], and does not run the callable: the call count, the state of the
    callable and both dictionaries are left as they were. *)
Theorem callable_cached_memoizes
    (fuel fuel' : nat) (args args' : list pyval) (kwargs kwargs' : kwargs_t)
    (st st1 st2 : cache W) (o : outcome) :
  _callable_cached fuel args kwargs st = Some (o, st1) →
  cacheable SENTINEL o →
  undisturbed (params_flat args kwargs) o st1 ∨ no_calls (func args kwargs) →
  later st1 st2 →
  params_flat args' kwargs' = params_flat args kwargs →
  _callable_cached fuel' args' kwargs' st2 = Some (o, st2).
Proof.
  intros Hcall Hc Hu Hlater Hkey. apply callable_cached_hit. rewrite Hkey.
  assert (Hu' : undisturbed (params_flat args kwargs) o st1).
  { destruct Hu as [|Hno]; [done|]. by eapply callable_cached_no_calls. }
  eapply (later_invariant (settled SENTINEL (params_flat args kwargs) o));
    [|done|by eapply callable_cached_settles].
  intros. by eapply callable_cached_preserves.
Qed.


End callable_cached.

(** A callable that does not call the wrapper, as a body. *)
Definition of_simple {W} (func : list pyval → kwargs_t → W → fresult * W)
    (args : list pyval) (kwargs : kwargs_t) : body W :=
  Read (λ w, let '(r, w') := func args kwargs w in Write w' (Finish r)).

(** For a callable that does not call the wrapper, the closure is
    [CallCache._callable_cached], and one unit of fuel is enough. *)
Lemma callable_cached_simple {W}
    (func : list pyval → kwargs_t → W → fresult * W) (SENTINEL : obj)
    (fuel : nat) (args : list pyval) (kwargs : kwargs_t) (st : cache W) :
  _callable_cached (of_simple func) SENTINEL (S fuel) args kwargs st =
    Some (CallCache._callable_cached func SENTINEL args kwargs st) ∧
  no_calls (of_simple func args kwargs).
Proof.
  split.
  - simpl. unfold CallCache._callable_cached.
    destruct (hashable (params_flat args kwargs)); simpl; [|done].
    destruct (params_flat_to_exception st !! params_flat args kwargs)
      as [cached|]; [done|].
    destruct (decide _); [|done].
    unfold call_func, store. destruct (func args kwargs (world st)) as [r w].
    simpl. destruct r as [v|exc]; [done|]. by destruct (exc_is_Exception exc).
  - simpl. intros w. by destruct (func args kwargs w).
Qed.

(** *** Callables that call the wrapper *)

(** [f(n) = 1 + f(n - 1)] for a positive [n], and [f] of anything else is
    [1]; the recursive call goes through the wrapper. *)
Definition countdown (args : list pyval) (kwargs : kwargs_t) : body unit :=
  match args with
  | [VInt (Zpos p)] =>
      Call [VInt (Z.pred (Zpos p))] [] (λ o,
        match o with
        | Returned v => Finish (FReturn (S v))
        | Raised e => Finish (FRaise e)
        | RaisedTypeError => Finish (FRaise (PyExc 1 true))
        end)
  | _ => Finish (FReturn 1)
  end.

(** On its first call, the callable calls the wrapper with its own
    arguments, catches what that call raises and returns object [7]; on any
    other call it raises object [9], an instance of [ValueError].  Its state
    tells whether the first call was made. *)
Definition nested_raise (args : list pyval) (kwargs : kwargs_t) : body nat :=
  Read (λ called,
    match called with
    | 0 => Write 1 (Call args kwargs (λ _, Finish (FReturn 7)))
    | _ => Finish (FRaise (PyExc 9 true))
    end).

(** A callable that counts its calls and returns object [7]. *)
Definition returns_7 (_ : list pyval) (_ : kwargs_t) : body nat :=
  Read (λ n, Write (S n) (Finish (FReturn 7))).

(** A callable that counts its calls and raises object [9], whose class
    derives from [BaseException] but not from [Exception]. *)
Definition raises_9 (_ : list pyval) (_ : kwargs_t) : body nat :=
  Read (λ n, Write (S n) (Finish (FRaise (PyExc 9 false)))).

Definition empty_cache {W} (w : W) : cache W := Cache ∅ ∅ w 0.

(** C1 as stated fails.  With [nested_raise] the first call of the wrapper
    returns object [7], which is not [SENTINEL], and the second call, with
    the same argument, raises: the call that the callable made cached the
    exception under the key.  With a callable that returns [SENTINEL]
    itself (here object [7]), or that raises an object that
    [except Exception] does not catch, the second call runs the callable
    again. *)
Lemma callable_cached_forgets :
  (∃ st1,
     _callable_cached nested_raise 0 2 [VInt 1] [] (empty_cache 0) =
       Some (Returned 7, st1) ∧
     7 ≠ 0 ∧
     _callable_cached nested_raise 0 2 [VInt 1] [] st1 =
       Some (Raised (PyExc 9 true), st1)) ∧
  (∃ st1 st2,
     _callable_cached returns_7 7 1 [VInt 1] [] (empty_cache 0) =
       Some (Returned 7, st1) ∧
     _callable_cached returns_7 7 1 [VInt 1] [] st1 =
       Some (Returned 7, st2) ∧
     invocations st1 = 1 ∧ invocations st2 = 2) ∧
  (∃ st1 st2,
     _callable_cached raises_9 0 1 [VInt 1] [] (empty_cache 0) =
       Some (Raised (PyExc 9 false), st1) ∧
     _callable_cached raises_9 0 1 [VInt 1] [] st1 =
       Some (Raised (PyExc 9 false), st2) ∧
     invocations st1 = 1 ∧ invocations st2 = 2).
Proof.
  split; [|split].
  - eexists. split; [by vm_compute|]. split; [lia|]. by vm_compute.
  - eexists _, _. split; [by vm_compute|]. split; by vm_compute.
  - eexists _, _. split; [by vm_compute|]. split; by vm_compute.
Qed.

(** The state after [f(2)] is called on empty caches, and after [f(3)] is
    called next. *)
Definition countdown_2 : cache unit :=
  default (empty_cache ())
    (snd <$> _callable_cached countdown 0 3 [VInt 2] [] (empty_cache ())).
Definition countdown_3 : cache unit :=
  default countdown_2
    (snd <$> _callable_cached countdown 0 1 [VInt 3] [] countdown_2).

Lemma countdown_later : later countdown 0 countdown_2 countdown_3.
Proof.
  eapply (later_call countdown 0 1 [VInt 3] [] _ (Returned 4));
    [by vm_compute|constructor].
Qed.

Lemma callable_cached_memoizes_witness :
  _callable_cached countdown 0 3 [VInt 2] [] (empty_cache ()) =
    Some (Returned 3, countdown_2) ∧
  cacheable 0 (Returned 3) ∧
  undisturbed (params_flat [VInt 2] []) (Returned 3) countdown_2 ∧
  later countdown 0 countdown_2 countdown_3 ∧
  _callable_cached countdown 0 0 [VInt 2] [] countdown_3 =
    Some (Returned 3, countdown_3).
Proof.
  assert (H1 : _callable_cached countdown 0 3 [VInt 2] [] (empty_cache ()) =
    Some (Returned 3, countdown_2)) by (by vm_compute).
  assert (H2 : cacheable 0 (Returned 3)) by (simpl; lia).
  assert (H3 : undisturbed (params_flat [VInt 2] []) (Returned 3) countdown_2)
    by (by vm_compute).
  do 3 (split; [assumption|]). split; [exact countdown_later|].
  exact (callable_cached_memoizes countdown 0 3 0 [VInt 2] [VInt 2] [] []
           (empty_cache ()) countdown_2 countdown_3 (Returned 3) H1 H2
           (or_introl H3) countdown_later eq_refl).
Defined.


(** What a call made by the callable stores can be replaced by the
    enclosing call: the call of [nested_raise] that the callable makes
    leaves the key without a return value, and the enclosing call then gives
    it one next to the cached exception. *)
Example callable_cached_nested_store :
  ∃ st_inner st_outer,
    _callable_cached nested_raise 0 1 [VInt 1] [] (Cache ∅ ∅ 1 0) =
      Some (Raised (PyExc 9 true), st_inner) ∧
    _callable_cached nested_raise 0 2 [VInt 1] [] (empty_cache 0) =
      Some (Returned 7, st_outer) ∧
    params_flat_to_exception st_outer !! VInt 1 = Some (PyExc 9 true) ∧
    params_flat_to_return_value st_inner !! VInt 1 = None ∧
    params_flat_to_return_value st_outer !! VInt 1 = Some 7.
Proof.
  eexists _, _. split; [by vm_compute|]. split; [by vm_compute|].
  split; [|split]; by vm_compute.
Qed.

End Reentrant.

(** ** [beartype/_check/code/_codescope.py] *)

Module CodeScope.

(** The exceptions these functions raise. *)
Inductive exn : Type :=
| BeartypeDecorHintNonpepException
| BeartypeDecorHintPep3119Exception
| BeartypeDecorHintForwardRefException
| _BeartypeUtilCallableException.

Inductive result (A : Type) : Type :=
| Ok (a : A)
| Raise (e : exn).
Arguments Ok {A}.
Arguments Raise {A}.

(** [c in s] for a character [c] and a string [s]. *)
Fixpoint str_contains_char (c : Ascii.ascii) (s : string) : bool :=
  match s with
  | EmptyString => false
  | String c' s' => if Ascii.eqb c c' then true else str_contains_char c s'
  end.

(** The identity of an object a scope or the beartypistry can bind: a class,
    a tuple (by address) or the beartypistry singleton. *)
Inductive ident (cls : Type) : Type :=
| IdType (c : cls)
| IdTuple (i : nat)
| IdTypistry.
Arguments IdType {cls}.
Arguments IdTuple {cls}.
Arguments IdTypistry {cls}.

(** Functions and constants of the repository that the module imports and
    whose sources are not part of the verified files.  [cls] is the type of
    the Python objects passed where a class is expected, compared by identity;
    [fref] is the type of the objects passed as forward references. *)
Class ScopeImports (cls fref : Type) : Type := {
  (** [die_unless_type_isinstanceable] returns rather than raises. *)
  is_type_isinstanceable : cls → bool;
  (** [die_unless_hint_nonpep_type] returns rather than raises. *)
  is_hint_nonpep_type : cls → bool;
  is_type_builtin : cls → bool;
  get_object_type_basename : cls → string;
  (** [hash(types)] on a tuple of classes. *)
  hash_tuple : list cls → Z;
  (** The items of [tuple(set(types))], in the iteration order of the set. *)
  tuple_of_set : list cls → list cls;
  TYPISTRY_HINT_NAME_TUPLE_PREFIX : string;
  ARG_NAME_TYPISTRY : string;
  CODE_HINT_REF_TYPE_BASENAME_PLACEHOLDER_PREFIX : string;
  CODE_HINT_REF_TYPE_BASENAME_PLACEHOLDER_SUFFIX : string;
  (** [get_hint_forwardref_code] returns an expression, or raises on a
      classname that is not the dotted name of a module attribute. *)
  get_hint_forwardref_code : string → result string;
  (** [die_unless_hint_pep484585_ref] returns rather than raises. *)
  is_hint_pep484585_ref : fref → bool;
  get_hint_pep484585_ref_name : fref → string;
  (** The name [add_func_scope_attr] derives from the identity of an object. *)
  scope_attr_name : ident cls → string;
}.

(** A tuple object: its identity and its items. *)
Record tupobj (cls : Type) : Type :=
  TupObj { tup_id : nat; tup_items : list cls }.
Arguments TupObj {cls}.
Arguments tup_id {cls}.
Arguments tup_items {cls}.

(** The objects a scope or the beartypistry binds a name to: a class, a tuple
    of classes, or the beartypistry singleton itself. *)
Inductive scope_val (cls : Type) : Type :=
| SVType (c : cls)
| SVTuple (t : tupobj cls)
| SVTypistry.
Arguments SVType {cls}.
Arguments SVTuple {cls}.
Arguments SVTypistry {cls}.

#[export] Instance ident_eq_dec {cls} `{EqDecision cls} : EqDecision (ident cls).
Proof. solve_decision. Defined.

Definition id_of {cls} (v : scope_val cls) : ident cls :=
  match v with
  | SVType c => IdType c
  | SVTuple t => IdTuple (tup_id t)
  | SVTypistry => IdTypistry
  end.

(** [v is w]. *)
Definition obj_is {cls} `{EqDecision cls} (v w : scope_val cls) : bool :=
  bool_decide (id_of v = id_of w).

(** The collection passed as [types]: a tuple, a set (its members in
    iteration order), or anything else. *)
Inductive types_arg (cls : Type) : Type :=
| TypesTuple (t : tupobj cls)
| TypesSet (members : list cls)
| TypesOther.
Arguments TypesTuple {cls}.
Arguments TypesSet {cls}.
Arguments TypesOther {cls}.

(** The mutable state: the scope dictionary passed as [func_scope], the
    process-wide [bear_typistry], the set objects holding relative forward
    references (by address, so that aliasing is visible), and the next free
    object address. *)
Record world (cls : Type) : Type := World {
  func_scope : gmap string (scope_val cls);
  bear_typistry : gmap string (scope_val cls);
  set_heap : gmap nat (gset string);
  next_id : nat;
}.
Arguments World {cls}.
Arguments func_scope {cls}.
Arguments bear_typistry {cls}.
Arguments set_heap {cls}.
Arguments next_id {cls}.

Section scope.
Context {cls fref : Type} `{EqDecision cls} `{!ScopeImports cls fref}.
Local Abbreviation tupobj := (tupobj cls).
Local Abbreviation scope_val := (scope_val cls).
Local Abbreviation types_arg := (types_arg cls).
Local Abbreviation world := (world cls).

Definition M (A : Type) : Type := world → result A * world.

Definition ret {A} (a : A) : M A := λ w, (Ok a, w).
Definition raise {A} (e : exn) : M A := λ w, (Raise e, w).
Definition bind {A B} (m : M A) (k : A → M B) : M B :=
  λ w, match m w with
       | (Ok a, w') => k a w'
       | (Raise e, w') => (Raise e, w')
       end.

(** A call of an imported function that returns or raises. *)
Definition lift_result {A} (r : result A) : M A := λ w, (r, w).

(** A new tuple object with the given items. *)
Definition new_tuple (items : list cls) : M tupobj :=
  λ w, (Ok (TupObj (next_id w) items),
        World (func_scope w) (bear_typistry w) (set_heap w) (S (next_id w))).

(** [set()]: the address of a new, empty set. *)
Definition new_set : M nat :=
  λ w, (Ok (next_id w),
        World (func_scope w) (bear_typistry w)
              (<[next_id w := ∅]> (set_heap w)) (S (next_id w))).

(** [s.add(x)] on the set at address [a]. *)
Definition set_add (a : nat) (x : string) : M unit :=
  λ w, (Ok tt,
        World (func_scope w) (bear_typistry w)
              (<[a := {[x]} ∪ default ∅ (set_heap w !! a)]> (set_heap w))
              (next_id w)).

(** [func_scope[name] = v]. *)
Definition scope_set (name : string) (v : scope_val) : M unit :=
  λ w, (Ok tt,
        World (<[name := v]> (func_scope w)) (bear_typistry w) (set_heap w)
              (next_id w)).

(** Modelled from the spec: [add_func_scope_attr] is defined in
    [beartype/_util/func/utilfuncscope.py], which is not among the sources.
    Per the registry contract (and the docstrings and tests of its callers)
    it derives a name from the identity of [attr], binds that name to [attr]
    when the scope does not have it yet, returns the name when the scope
    already binds it to [attr] itself, and raises when the name is bound to
    another object. *)
Definition add_func_scope_attr (attr : scope_val) : M string :=
  λ w,
    let attr_name := scope_attr_name (id_of attr) in
    match func_scope w !! attr_name with
    | None =>
        (Ok attr_name,
         World (<[attr_name := attr]> (func_scope w)) (bear_typistry w)
               (set_heap w) (next_id w))
    | Some attr_prior =>
        if obj_is attr_prior attr then (Ok attr_name, w)
        else (Raise _BeartypeUtilCallableException, w)
    end.

(** [add_func_scope_type(cls, func_scope)]. *)
Definition add_func_scope_type (c : cls) : M string :=
  if negb (is_type_isinstanceable c) then
    raise BeartypeDecorHintPep3119Exception
  else if is_type_builtin c then ret (get_object_type_basename c)
  else add_func_scope_attr (SVType c).

Definition items_of (types : types_arg) : list cls :=
  match types with
  | TypesTuple t => tup_items t
  | TypesSet members => members
  | TypesOther => []
  end.

(** The items of the tuple that lines 394-404 turn [types] into. *)
Definition canonical_items (types : types_arg) (is_unique : bool) : list cls :=
  match types with
  | TypesSet members => members
  | TypesTuple t => if is_unique then tup_items t else tuple_of_set (tup_items t)
  | TypesOther => []
  end.

(** Lines 394-404: the tuple object itself. *)
Definition canonical_tuple (types : types_arg) (is_unique : bool) : M tupobj :=
  match types with
  | TypesSet members => new_tuple members
  | TypesTuple t =>
      if is_unique then ret t else new_tuple (tuple_of_set (tup_items t))
  | TypesOther => raise BeartypeDecorHintNonpepException
  end.

(** Line 407: the beartypistry key of a tuple. *)
Definition tuple_types_name (items : list cls) : string :=
  TYPISTRY_HINT_NAME_TUPLE_PREFIX +:+ pretty (hash_tuple items).

(** Lines 411-416: cache the tuple, or take the one cached under its key. *)
Definition typistry_cache_tuple (t : tupobj) : M scope_val :=
  λ w,
    let name := tuple_types_name (tup_items t) in
    match bear_typistry w !! name with
    | None =>
        (Ok (SVTuple t),
         World (func_scope w) (<[name := SVTuple t]> (bear_typistry w))
               (set_heap w) (next_id w))
    | Some cached => (Ok cached, w)
    end.

(** [add_func_scope_types(types, func_scope, is_unique)]. *)
Definition add_func_scope_types (types : types_arg) (is_unique : bool)
    : M string :=
  match types with
  | TypesOther => raise BeartypeDecorHintNonpepException
  | _ =>
      match items_of types with
      | [] => raise BeartypeDecorHintNonpepException
      | items =>
          if negb (forallb is_hint_nonpep_type items) then
            raise BeartypeDecorHintNonpepException
          else
            match items with
            | [c] => add_func_scope_type c
            | _ =>
                bind (canonical_tuple types is_unique) (λ t,
                bind (typistry_cache_tuple t) (λ cached,
                add_func_scope_attr cached))
            end
      end
  end.

(** [add_func_scope_type_or_types]: the caller says whether the object is a
    class ([isinstance(type_or_types, type)]). *)
Definition add_func_scope_type_or_types (type_or_types : cls + types_arg)
    : M string :=
  match type_or_types with
  | inl c => add_func_scope_type c
  | inr types => add_func_scope_types types false
  end.

(** [express_func_scope_type_forwardref(forwardref,
    forwardrefs_class_basename, func_scope)]; the set is passed and returned
    by address. *)
Definition express_func_scope_type_forwardref (forwardref : fref)
    (forwardrefs_class_basename : option nat) : M (string * option nat) :=
  if negb (is_hint_pep484585_ref forwardref) then
    raise BeartypeDecorHintForwardRefException
  else
    let forwardref_classname := get_hint_pep484585_ref_name forwardref in
    if str_contains_char "."%char forwardref_classname then
      bind (scope_set ARG_NAME_TYPISTRY SVTypistry) (λ _,
      bind (lift_result (get_hint_forwardref_code forwardref_classname))
        (λ forwardref_expr,
      ret (forwardref_expr, forwardrefs_class_basename)))
    else
      bind (match forwardrefs_class_basename with
            | None => new_set
            | Some a => ret a
            end) (λ a,
      bind (set_add a forwardref_classname) (λ _,
      ret (CODE_HINT_REF_TYPE_BASENAME_PLACEHOLDER_PREFIX +:+
           forwardref_classname +:+
           CODE_HINT_REF_TYPE_BASENAME_PLACEHOLDER_SUFFIX,
           Some a))).

(** The registry invariant: a name that [add_func_scope_attr] derives from
    an object is, when the scope has it, bound to that object. *)
Definition scope_consistent (w : world) : Prop :=
  ∀ attr bound,
    func_scope w !! scope_attr_name (id_of attr) = Some bound →
    obj_is bound attr = true.

(** *** Facts about the scope adders *)

Lemma add_func_scope_attr_ok attr w n w' :
  add_func_scope_attr attr w = (Ok n, w') →
  n = scope_attr_name (id_of attr) ∧
  bear_typistry w' = bear_typistry w ∧ set_heap w' = set_heap w ∧
  next_id w' = next_id w ∧
  ∃ bound, func_scope w' !! n = Some bound ∧ obj_is bound attr = true.
Proof.
  unfold add_func_scope_attr.
  destruct (func_scope w !! scope_attr_name (id_of attr)) as [prior|] eqn:Hl.
  - destruct (obj_is prior attr) eqn:His; intros [= <- <-]. eauto 10.
  - intros [= <- <-]. simpl. repeat split; try done.
    exists attr. rewrite lookup_insert_eq. split; [done|].
    unfold obj_is. by apply bool_decide_eq_true.
Qed.



Lemma canonical_tuple_ok types is_unique w :
  2 ≤ length (items_of types) →
  ∃ t w0, canonical_tuple types is_unique w = (Ok t, w0) ∧
    tup_items t = canonical_items types is_unique ∧
    func_scope w0 = func_scope w ∧ bear_typistry w0 = bear_typistry w ∧
    set_heap w0 = set_heap w.
Proof.
  destruct types as [t|members|]; simpl; [| |lia]; intros _.
  - destruct is_unique; eauto 10.
  - eauto 10.
Qed.

Lemma typistry_cache_tuple_ok t w :
  ∃ cached w0, typistry_cache_tuple t w = (Ok cached, w0) ∧
    bear_typistry w0 !! tuple_types_name (tup_items t) = Some cached ∧
    func_scope w0 = func_scope w ∧ set_heap w0 = set_heap w.
Proof.
  unfold typistry_cache_tuple.
  destruct (bear_typistry w !! tuple_types_name (tup_items t)) as [c|] eqn:Hl.
  - eauto 10.
  - eexists _, _. split; [done|]. simpl. by rewrite lookup_insert_eq.
Qed.

Lemma typistry_cache_tuple_cached t w cached :
  bear_typistry w !! tuple_types_name (tup_items t) = Some cached →
  typistry_cache_tuple t w = (Ok cached, w).
Proof. intros Hl. unfold typistry_cache_tuple. by rewrite Hl. Qed.

(** On two or more valid items, [add_func_scope_types] is lines 394-420. *)
Lemma add_func_scope_types_many types is_unique w :
  2 ≤ length (items_of types) →
  forallb is_hint_nonpep_type (items_of types) = true →
  add_func_scope_types types is_unique w =
    bind (canonical_tuple types is_unique) (λ t,
    bind (typistry_cache_tuple t) (λ cached,
    add_func_scope_attr cached)) w.
Proof.
  intros Hlen Hok. unfold add_func_scope_types.
  destruct types as [t|members|]; simpl in *; [| |lia].
  - destruct (tup_items t) as [|c1 [|c2 l]]; simpl in *; try lia.
    by rewrite Hok.
  - destruct members as [|c1 [|c2 l]]; simpl in *; try lia.
    by rewrite Hok.
Qed.

Lemma add_func_scope_types_valid types is_unique w n w' :
  2 ≤ length (items_of types) →
  add_func_scope_types types is_unique w = (Ok n, w') →
  forallb is_hint_nonpep_type (items_of types) = true.
Proof.
  intros Hlen. unfold add_func_scope_types.
  destruct types as [t|members|]; simpl in *; [| |lia].
  - destruct (tup_items t) as [|c1 [|c2 l]]; simpl in *; try lia.
    destruct (is_hint_nonpep_type c1 && _); [done|]. by intros [=].
  - destruct members as [|c1 [|c2 l]]; simpl in *; try lia.
    destruct (is_hint_nonpep_type c1 && _); [done|]. by intros [=].
Qed.

(** C6.  For a builtin class, [add_func_scope_type] returns the unqualified
    basename of the class and leaves the scope (and everything else)
    unchanged. *)
Theorem add_func_scope_type_builtin (c : cls) (w : world) :
  is_type_isinstanceable c = true →
  is_type_builtin c = true →
  add_func_scope_type c w = (Ok (get_object_type_basename c), w) ∧
  func_scope (add_func_scope_type c w).2 = func_scope w.
Proof.
  intros Hi Hb. unfold add_func_scope_type. by rewrite Hi, Hb.
Qed.

Lemma add_func_scope_types_cached_entry
    (types : types_arg) (is_unique : bool) (w : world) (cached : scope_val) :
  2 ≤ length (items_of types) →
  forallb is_hint_nonpep_type (items_of types) = true →
  bear_typistry w !! tuple_types_name (canonical_items types is_unique) =
    Some cached →
  ∃ w0, func_scope w0 = func_scope w ∧ bear_typistry w0 = bear_typistry w ∧
    add_func_scope_types types is_unique w = add_func_scope_attr cached w0.
Proof.
  intros Hlen Hok Hc.
  destruct (canonical_tuple_ok types is_unique w Hlen)
    as (t & w0 & Hct & Hitems & Hfs & Hty & Hsh).
  exists w0. split; [done|]. split; [done|].
  rewrite add_func_scope_types_many by done. unfold bind at 1. rewrite Hct.
  unfold bind. rewrite (typistry_cache_tuple_cached t w0 cached); [done|].
  by rewrite Hitems, Hty.
Qed.

(** C10.  When the beartypistry already has an entry under the key derived
    from the hash of the canonical tuple, [add_func_scope_types] passes that
    entry, not the passed tuple, to [add_func_scope_attr], whatever the
    relation between the two tuples; the beartypistry is left as it was and
    the returned name is bound to the cached object. *)
Theorem add_func_scope_types_reuses_cached
    (types : types_arg) (is_unique : bool) (w : world) (cached : scope_val) :
  2 ≤ length (items_of types) →
  forallb is_hint_nonpep_type (items_of types) = true →
  bear_typistry w !! tuple_types_name (canonical_items types is_unique) =
    Some cached →
  (∃ w0, func_scope w0 = func_scope w ∧ bear_typistry w0 = bear_typistry w ∧
     add_func_scope_types types is_unique w = add_func_scope_attr cached w0) ∧
  (∀ n w', add_func_scope_types types is_unique w = (Ok n, w') →
     bear_typistry w' = bear_typistry w ∧
     ∃ bound, func_scope w' !! n = Some bound ∧ obj_is bound cached = true).
Proof.
  intros Hlen Hok Hc.
  destruct (add_func_scope_types_cached_entry types is_unique w cached
    Hlen Hok Hc) as (w0 & Hfs & Hty & Heq).
  split; [by eauto|]. intros n w' Hadd. rewrite Heq in Hadd.
  apply add_func_scope_attr_ok in Hadd as (_ & Hty' & _ & _ & Hb).
  split; [congruence|done].
Qed.

Lemma add_func_scope_attr_returns attr w :
  scope_consistent w →
  ∃ w', add_func_scope_attr attr w = (Ok (scope_attr_name (id_of attr)), w').
Proof.
  intros Hcons. unfold add_func_scope_attr.
  destruct (func_scope w !! scope_attr_name (id_of attr)) as [prior|] eqn:Hl.
  - rewrite (Hcons attr prior Hl). eauto.
  - eauto.
Qed.





(** C7, amended.  For a valid forward reference: a classname containing a
    ['.'] binds the beartypistry into the scope under [ARG_NAME_TYPISTRY],
    and then, if [get_hint_forwardref_code] returns an expression for that
    classname, this expression is returned together with the passed set,
    untouched, while if [get_hint_forwardref_code] raises, the exception
    goes through and the scope stays written; an unqualified classname
    returns the placeholder expression together with a set holding that
    classname, which is the passed set with the classname added, or a new
    set when [None] was passed. *)
Theorem express_func_scope_type_forwardref_spec
    (forwardref : fref) (forwardrefs_class_basename : option nat) (w : world) :
  is_hint_pep484585_ref forwardref = true →
  let name := get_hint_pep484585_ref_name forwardref in
  let written :=
    World (<[ARG_NAME_TYPISTRY := SVTypistry]> (func_scope w))
          (bear_typistry w) (set_heap w) (next_id w) in
  (str_contains_char "."%char name = true →
     (∀ expr, get_hint_forwardref_code name = Ok expr →
        express_func_scope_type_forwardref forwardref
          forwardrefs_class_basename w
        = (Ok (expr, forwardrefs_class_basename), written)) ∧
     (∀ e, get_hint_forwardref_code name = Raise e →
        express_func_scope_type_forwardref forwardref
          forwardrefs_class_basename w
        = (Raise e, written))) ∧
  (str_contains_char "."%char name = false →
     ∃ a w',
       express_func_scope_type_forwardref forwardref
         forwardrefs_class_basename w
       = (Ok (CODE_HINT_REF_TYPE_BASENAME_PLACEHOLDER_PREFIX +:+ name +:+
              CODE_HINT_REF_TYPE_BASENAME_PLACEHOLDER_SUFFIX, Some a), w') ∧
       func_scope w' = func_scope w ∧
       match forwardrefs_class_basename with
       | Some a0 =>
           a = a0 ∧
           set_heap w' !! a = Some ({[name]} ∪ default ∅ (set_heap w !! a0))
       | None => a = next_id w ∧ set_heap w' !! a = Some {[name]}
       end).
Proof.
  intros Hv name written. unfold express_func_scope_type_forwardref.
  rewrite Hv. fold name. simpl. split; intros ->.
  - unfold bind, scope_set, lift_result, ret. simpl.
    split; intros x ->; done.
  - destruct forwardrefs_class_basename as [a0|].
    + eexists _, _. split; [done|]. simpl. by rewrite lookup_insert_eq.
    + eexists _, _. split; [done|]. simpl.
      rewrite !lookup_insert_eq. simpl. by rewrite union_empty_r_L.
Qed.

(** C9.  Passed the address of an existing set and an unqualified forward
    reference, the function adds the classname to the set at that address,
    allocates nothing, and returns that same address: the caller's set and the
    returned set are one object. *)
Theorem express_func_scope_type_forwardref_aliases
    (forwardref : fref) (a : nat) (w : world) :
  is_hint_pep484585_ref forwardref = true →
  str_contains_char "."%char (get_hint_pep484585_ref_name forwardref) = false →
  ∃ expr w',
    express_func_scope_type_forwardref forwardref (Some a) w =
      (Ok (expr, Some a), w') ∧
    set_heap w' =
      <[a := {[get_hint_pep484585_ref_name forwardref]} ∪
             default ∅ (set_heap w !! a)]> (set_heap w) ∧
    next_id w' = next_id w ∧ func_scope w' = func_scope w.
Proof.
  intros Hv Hq. unfold express_func_scope_type_forwardref.
  rewrite Hv, Hq. simpl. by eexists _, _.
Qed.

End scope.

(** *** A concrete scope, for the examples *)

(** Two builtin classes, four user-defined classes, and a class whose
    metaclass makes [isinstance] raise. *)
Inductive xcls : Type :=
| X_int | X_list | X_A | X_B | X_C | X_D | X_NonIsinstanceable.

#[export] Instance xcls_eq_dec : EqDecision xcls.
Proof. solve_decision. Defined.

Definition xcls_code (c : xcls) : nat :=
  match c with
  | X_int => 1 | X_list => 2 | X_A => 3 | X_B => 4 | X_C => 5 | X_D => 6
  | X_NonIsinstanceable => 7
  end.

Definition x_attr_name (i : ident xcls) : string :=
  "__beartype_object_" +:+
  pretty (match i with
          | IdType c => xcls_code c
          | IdTuple a => 100 + a
          | IdTypistry => 0
          end).

(** [c] may start a Python name, and [c] may go on one. *)
Definition is_name_start (c : Ascii.ascii) : bool :=
  let n := nat_of_ascii c in
  (65 <=? n) && (n <=? 90) || (97 <=? n) && (n <=? 122) || (n =? 95).
Definition is_name_char (c : Ascii.ascii) : bool :=
  let n := nat_of_ascii c in is_name_start c || (48 <=? n) && (n <=? 57).

(** [s] is made of Python names separated by single dots; [fresh] tells
    that a name is to start. *)
Fixpoint is_dotted_name_from (fresh : bool) (s : string) : bool :=
  match s with
  | EmptyString => negb fresh
  | String c s' =>
      if Ascii.eqb c "."%char then negb fresh && is_dotted_name_from true s'
      else if fresh then is_name_start c && is_dotted_name_from false s'
      else is_name_char c && is_dotted_name_from false s'
  end.
Definition is_dotted_name : string → bool := is_dotted_name_from true.

(** Forward references are plain strings here, and the lookup expression is
    made for the dotted names only.  The hash of a tuple is its length:
    Python only promises that equal tuples hash alike, and this choice makes
    distinct tuples of one length collide. *)
#[local] Instance x_imports : ScopeImports xcls string := {|
  is_type_isinstanceable c :=
    match c with X_NonIsinstanceable => false | _ => true end;
  is_hint_nonpep_type c :=
    match c with X_NonIsinstanceable => false | _ => true end;
  is_type_builtin c := match c with X_int | X_list => true | _ => false end;
  get_object_type_basename c :=
    match c with
    | X_int => "int" | X_list => "list" | X_A => "A" | X_B => "B"
    | X_C => "C" | X_D => "D" | X_NonIsinstanceable => "NonIsinstanceable"
    end;
  hash_tuple items := Z.of_nat (length items);
  tuple_of_set items := remove_dups items;
  TYPISTRY_HINT_NAME_TUPLE_PREFIX := "+";
  ARG_NAME_TYPISTRY := "__beartypistry";
  CODE_HINT_REF_TYPE_BASENAME_PLACEHOLDER_PREFIX := "@[";
  CODE_HINT_REF_TYPE_BASENAME_PLACEHOLDER_SUFFIX := "]!";
  get_hint_forwardref_code name :=
    if is_dotted_name name then Ok ("__beartypistry[" +:+ name +:+ "]")
    else Raise BeartypeDecorHintForwardRefException;
  is_hint_pep484585_ref _ := true;
  get_hint_pep484585_ref_name name := name;
  scope_attr_name := x_attr_name;
|}.

Definition x_world : world xcls := World ∅ ∅ ∅ 0.

(** Two tuple objects with the items [(A, B)], and one with [(C, D)]. *)
Definition x_AB : tupobj xcls := TupObj 50 [X_A; X_B].
Definition x_AB' : tupobj xcls := TupObj 51 [X_A; X_B].
Definition x_CD : tupobj xcls := TupObj 52 [X_C; X_D].

(** The world after registering [x_AB] in the empty scope. *)
Definition x_world_AB : world xcls :=
  (add_func_scope_types (TypesTuple x_AB) true x_world).2.

(** The world in which the set at address 7 holds ["Old"]. *)
Definition x_world_set : world xcls := World ∅ ∅ {[7 := {["Old"]}]} 8.

Example add_func_scope_types_first_call :
  add_func_scope_types (TypesTuple x_AB) true x_world =
    (Ok "__beartype_object_150", x_world_AB).
Proof. by vm_compute. Qed.

Lemma add_func_scope_type_builtin_witness :
  is_type_isinstanceable X_int = true ∧
  is_type_builtin X_int = true ∧
  add_func_scope_type X_int x_world = (Ok "int", x_world) ∧
  func_scope (add_func_scope_type X_int x_world).2 = func_scope x_world.
Proof.
  split; [reflexivity|]. split; [reflexivity|].
  exact (add_func_scope_type_builtin X_int x_world eq_refl eq_refl).
Defined.

Lemma scope_consistent_empty : scope_consistent x_world.
Proof.
  intros attr bound Hl. unfold x_world in Hl. simpl in Hl.
  by rewrite lookup_empty in Hl.
Qed.


Example add_func_scope_types_second_call :
  add_func_scope_types (TypesTuple x_AB') true x_world_AB =
    (Ok "__beartype_object_150", x_world_AB) ∧
  func_scope x_world_AB !! "__beartype_object_150" = Some (SVTuple x_AB) ∧
  bear_typistry x_world_AB !! "+2" = Some (SVTuple x_AB).
Proof. split; [|split]; by vm_compute. Qed.

(** After [(A, B)] is registered, registering [(C, D)], whose hash collides,
    binds the returned name to the [(A, B)] object. *)
Lemma add_func_scope_types_reuses_cached_witness :
  2 ≤ length (items_of (TypesTuple x_CD)) ∧
  forallb is_hint_nonpep_type (items_of (TypesTuple x_CD)) = true ∧
  bear_typistry x_world_AB !!
    tuple_types_name (canonical_items (TypesTuple x_CD) true) =
    Some (SVTuple x_AB) ∧
  (∃ w0, func_scope w0 = func_scope x_world_AB ∧
     bear_typistry w0 = bear_typistry x_world_AB ∧
     add_func_scope_types (TypesTuple x_CD) true x_world_AB =
       add_func_scope_attr (SVTuple x_AB) w0) ∧
  (∀ n w', add_func_scope_types (TypesTuple x_CD) true x_world_AB = (Ok n, w') →
     bear_typistry w' = bear_typistry x_world_AB ∧
     ∃ bound, func_scope w' !! n = Some bound ∧
       obj_is bound (SVTuple x_AB) = true).
Proof.
  assert (Hlen : 2 ≤ length (items_of (TypesTuple x_CD))) by (simpl; lia).
  assert (Hc : bear_typistry x_world_AB !!
    tuple_types_name (canonical_items (TypesTuple x_CD) true) =
    Some (SVTuple x_AB)) by (by vm_compute).
  split; [exact Hlen|]. split; [reflexivity|]. split; [exact Hc|].
  exact (add_func_scope_types_reuses_cached (TypesTuple x_CD) true x_world_AB
           (SVTuple x_AB) Hlen eq_refl Hc).
Defined.

Example add_func_scope_types_collision :
  x_AB ≠ x_CD ∧
  (add_func_scope_types (TypesTuple x_CD) true x_world_AB).1 =
    Ok "__beartype_object_150" ∧
  func_scope (add_func_scope_types (TypesTuple x_CD) true x_world_AB).2 !!
    "__beartype_object_150" = Some (SVTuple x_AB).
Proof. split; [discriminate|]. by vm_compute. Qed.

Lemma express_func_scope_type_forwardref_spec_witness :
  let written :=
    World (<["__beartypistry" := SVTypistry]> (func_scope x_world_set))
          (bear_typistry x_world_set) (set_heap x_world_set)
          (next_id x_world_set) in
  is_hint_pep484585_ref "pkg.mod.Cls" = true ∧
  str_contains_char "."%char "pkg.mod.Cls" = true ∧
  get_hint_forwardref_code "pkg.mod.Cls" = Ok "__beartypistry[pkg.mod.Cls]" ∧
  express_func_scope_type_forwardref "pkg.mod.Cls" (Some 7) x_world_set =
    (Ok ("__beartypistry[pkg.mod.Cls]", Some 7), written) ∧
  str_contains_char "."%char "pkg..Cls" = true ∧
  get_hint_forwardref_code "pkg..Cls" =
    Raise BeartypeDecorHintForwardRefException ∧
  express_func_scope_type_forwardref "pkg..Cls" (Some 7) x_world_set =
    (Raise BeartypeDecorHintForwardRefException, written) ∧
  is_hint_pep484585_ref "Cls" = true ∧
  str_contains_char "."%char "Cls" = false ∧
  ∃ a w',
    express_func_scope_type_forwardref "Cls" (Some 7) x_world_set
    = (Ok ("@[" +:+ "Cls" +:+ "]!", Some a), w') ∧
    func_scope w' = func_scope x_world_set ∧
    a = 7 ∧
    set_heap w' !! a =
      Some ({["Cls"]} ∪ default ∅ (set_heap x_world_set !! 7)).
Proof.
  intros written.
  split; [reflexivity|]. split; [reflexivity|]. split; [reflexivity|].
  split.
  { exact (proj1 (proj1 (express_func_scope_type_forwardref_spec
             "pkg.mod.Cls" (Some 7) x_world_set eq_refl) eq_refl)
             "__beartypistry[pkg.mod.Cls]" eq_refl). }
  split; [reflexivity|]. split; [reflexivity|].
  split.
  { exact (proj2 (proj1 (express_func_scope_type_forwardref_spec
             "pkg..Cls" (Some 7) x_world_set eq_refl) eq_refl)
             BeartypeDecorHintForwardRefException eq_refl). }
  split; [reflexivity|]. split; [reflexivity|].
  exact (proj2 (express_func_scope_type_forwardref_spec "Cls" (Some 7)
                  x_world_set eq_refl) eq_refl).
Defined.

(** C7 as stated fails: [".x"] is a valid forward reference (a string) whose
    classname contains a ['.'], and no lookup expression is returned for it;
    [get_hint_forwardref_code] raises, after the scope was written. *)
Lemma express_func_scope_type_forwardref_raises :
  is_hint_pep484585_ref ".x" = true ∧
  str_contains_char "."%char (get_hint_pep484585_ref_name ".x") = true ∧
  express_func_scope_type_forwardref ".x" None x_world =
    (Raise BeartypeDecorHintForwardRefException,
     World {["__beartypistry" := SVTypistry]} ∅ ∅ 0).
Proof. split; [reflexivity|]. split; [reflexivity|]. by vm_compute. Qed.

Lemma express_func_scope_type_forwardref_aliases_witness :
  is_hint_pep484585_ref "Cls" = true ∧
  str_contains_char "."%char (get_hint_pep484585_ref_name "Cls") = false ∧
  ∃ expr w',
    express_func_scope_type_forwardref "Cls" (Some 7) x_world_set =
      (Ok (expr, Some 7), w') ∧
    set_heap w' =
      <[7 := {[get_hint_pep484585_ref_name "Cls"]} ∪
             default ∅ (set_heap x_world_set !! 7)]> (set_heap x_world_set) ∧
    next_id w' = next_id x_world_set ∧
    func_scope w' = func_scope x_world_set.
Proof.
  split; [reflexivity|]. split; [reflexivity|].
  exact (express_func_scope_type_forwardref_aliases "Cls" 7 x_world_set
           eq_refl eq_refl).
Defined.

Example express_func_scope_type_forwardref_relative :
  (express_func_scope_type_forwardref "Cls" (Some 7) x_world_set).1 =
    Ok ("@[Cls]!", Some 7) ∧
  set_heap (express_func_scope_type_forwardref "Cls" (Some 7) x_world_set).2
    !! 7 = Some ({["Cls"; "Old"]} : gset string) ∧
  (express_func_scope_type_forwardref "Cls" None x_world_set).1 =
    Ok ("@[Cls]!", Some 8).
Proof. split; [by vm_compute|]. split; [|by vm_compute]. by vm_compute. Qed.

(** *** Invariants and edge cases of the scope adders *)

Section scope_invariants.
Context {cls fref : Type} `{EqDecision cls} `{!ScopeImports cls fref}.
Local Abbreviation tupobj := (tupobj cls).
Local Abbreviation scope_val := (scope_val cls).
Local Abbreviation types_arg := (types_arg cls).
Local Abbreviation world := (world cls).

(** World [w'] extends world [w]: every binding of the scope and of the
    beartypistry is kept as it is, the forward-reference sets are the same,
    and at most one object was allocated. *)
Definition only_adds (w w' : world) : Prop :=
  func_scope w ⊆ func_scope w' ∧ bear_typistry w ⊆ bear_typistry w' ∧
  set_heap w' = set_heap w ∧ next_id w ≤ next_id w' ≤ S (next_id w).

Lemma add_func_scope_attr_only_adds attr w :
  only_adds w (add_func_scope_attr attr w).2 ∧
  next_id (add_func_scope_attr attr w).2 = next_id w.
Proof.
  unfold add_func_scope_attr, only_adds.
  destruct (func_scope w !! scope_attr_name (id_of attr)) as [prior|] eqn:Hl.
  - destruct (obj_is prior attr); simpl; repeat split; (done || lia).
  - simpl. repeat split; try (done || lia). by apply insert_subseteq.
Qed.

Lemma add_func_scope_type_only_adds c w :
  only_adds w (add_func_scope_type c w).2 ∧
  next_id (add_func_scope_type c w).2 = next_id w.
Proof.
  unfold add_func_scope_type.
  destruct (is_type_isinstanceable c); simpl;
    [|unfold only_adds; repeat split; (done || lia)].
  destruct (is_type_builtin c);
    [unfold only_adds; simpl; repeat split; (done || lia)|].
  apply add_func_scope_attr_only_adds.
Qed.

Lemma typistry_cache_tuple_only_adds t w :
  only_adds w (typistry_cache_tuple t w).2 ∧
  next_id (typistry_cache_tuple t w).2 = next_id w ∧
  func_scope (typistry_cache_tuple t w).2 = func_scope w.
Proof.
  unfold typistry_cache_tuple, only_adds.
  destruct (bear_typistry w !! tuple_types_name (tup_items t)) eqn:Hl; simpl.
  - repeat split; (done || lia).
  - repeat split; try (done || lia). by apply insert_subseteq.
Qed.

Lemma add_func_scope_types_only_adds types is_unique w :
  only_adds w (add_func_scope_types types is_unique w).2.
Proof.
  assert (Hrefl : only_adds w w).
  { unfold only_adds. repeat split; (done || lia). }
  destruct (decide (2 ≤ length (items_of types))) as [Hlen|Hlen];
    [destruct (forallb is_hint_nonpep_type (items_of types)) eqn:Hok|].
  - rewrite add_func_scope_types_many by done.
    destruct (canonical_tuple_ok types is_unique w Hlen)
      as (t & wa & Hct & _ & Hfs & Hty & Hsh).
    assert (Hid : next_id w ≤ next_id wa ≤ S (next_id w)).
    { destruct types as [t0|members|]; simpl in Hct.
      - destruct is_unique; injection Hct as <- <-; simpl; lia.
      - injection Hct as <- <-; simpl; lia.
      - done. }
    unfold bind at 1. rewrite Hct. unfold bind.
    destruct (typistry_cache_tuple_only_adds t wa) as ((_ & Ht1 & Hs1 & _) & Hn1 & Hf1).
    destruct (typistry_cache_tuple t wa) as [[cached|e] wb] eqn:Htc;
      simpl in *.
    + destruct (add_func_scope_attr_only_adds cached wb)
        as ((Hf2 & Ht2 & Hs2 & _) & Hn2).
      unfold only_adds. rewrite Hs2, Hs1, Hsh, Hn2, Hn1.
      split; [by rewrite <- Hfs, <- Hf1|].
      split; [|done]. rewrite <- Hty. by etrans.
    + unfold only_adds. rewrite Hf1, Hfs, Hs1, Hsh, Hn1.
      split; [done|]. split; [|done]. by rewrite <- Hty.
  - unfold add_func_scope_types.
    destruct types as [t|members|]; simpl in *; [| |done].
    + destruct (tup_items t) as [|c1 [|c2 l]]; simpl in *; try lia.
      by rewrite Hok.
    + destruct members as [|c1 [|c2 l]]; simpl in *; try lia.
      by rewrite Hok.
  - unfold add_func_scope_types.
    destruct types as [t|members|]; simpl in *; [| |done].
    + destruct (tup_items t) as [|c1 [|c2 l]]; simpl in *; [done| |lia].
      destruct (is_hint_nonpep_type c1); simpl; [|done].
      apply add_func_scope_type_only_adds.
    + destruct members as [|c1 [|c2 l]]; simpl in *; [done| |lia].
      destruct (is_hint_nonpep_type c1); simpl; [|done].
      apply add_func_scope_type_only_adds.
Qed.

(** X5.  The adders only add: whatever they are passed and whether they return
    or raise, every name the scope binds and every entry of the beartypistry
    is still there afterwards, bound to the same object; the sets of forward
    references are untouched and at most one object is allocated. *)
Theorem scope_adders_only_add (w : world) :
  (∀ c, only_adds w (add_func_scope_type c w).2) ∧
  (∀ types is_unique,
     only_adds w (add_func_scope_types types is_unique w).2) ∧
  (∀ type_or_types,
     only_adds w (add_func_scope_type_or_types type_or_types w).2).
Proof.
  split; [intros c; apply add_func_scope_type_only_adds|].
  split; [intros; apply add_func_scope_types_only_adds|].
  intros [c|types]; simpl.
  - apply add_func_scope_type_only_adds.
  - apply add_func_scope_types_only_adds.
Qed.

(** On two or more valid items, the call comes down to one call of
    [add_func_scope_attr] on the cached object, in the same scope. *)
Lemma add_func_scope_types_steps types is_unique (w : world) :
  2 ≤ length (items_of types) →
  forallb is_hint_nonpep_type (items_of types) = true →
  ∃ cached wb,
    add_func_scope_types types is_unique w = add_func_scope_attr cached wb ∧
    func_scope wb = func_scope w ∧
    bear_typistry wb !! tuple_types_name (canonical_items types is_unique) =
      Some cached.
Proof.
  intros Hlen Hok. rewrite add_func_scope_types_many by done.
  destruct (canonical_tuple_ok types is_unique w Hlen)
    as (t & wa & Hct & Hci & Hfs & _ & _).
  unfold bind at 1. rewrite Hct.
  destruct (typistry_cache_tuple_ok t wa)
    as (cached & wb & Htc & Hl & Hfs' & _).
  unfold bind. rewrite Htc. exists cached, wb.
  split; [done|]. split; [congruence|]. by rewrite <- Hci.
Qed.

Lemma scope_consistent_same_scope (w w' : world) :
  func_scope w' = func_scope w → scope_consistent w → scope_consistent w'.
Proof. intros Hfs Hcons attr bound. rewrite Hfs. apply Hcons. Qed.

Lemma add_func_scope_attr_consistent attr (w : world) :
  Inj (=) (=) (scope_attr_name : ident cls → string) →
  scope_consistent w →
  scope_consistent (add_func_scope_attr attr w).2 ∧
  (add_func_scope_attr attr w).1 ≠ Raise _BeartypeUtilCallableException.
Proof.
  intros Hinj Hcons. split.
  - unfold add_func_scope_attr.
    destruct (func_scope w !! scope_attr_name (id_of attr)) as [prior|] eqn:Hl.
    + by destruct (obj_is prior attr).
    + intros a bound. simpl.
      destruct (decide (scope_attr_name (id_of attr) =
                        scope_attr_name (id_of a))) as [Heq|Hne].
      * rewrite Heq, lookup_insert_eq. intros [= <-]. apply Hinj in Heq.
        unfold obj_is. by apply bool_decide_eq_true.
      * rewrite lookup_insert_ne by done. apply Hcons.
  - by destruct (add_func_scope_attr_returns attr w Hcons) as [w' ->].
Qed.

Lemma add_func_scope_type_consistent c (w : world) :
  Inj (=) (=) (scope_attr_name : ident cls → string) →
  scope_consistent w →
  scope_consistent (add_func_scope_type c w).2 ∧
  (add_func_scope_type c w).1 ≠ Raise _BeartypeUtilCallableException.
Proof.
  intros Hinj Hcons. unfold add_func_scope_type.
  destruct (is_type_isinstanceable c); simpl; [|done].
  destruct (is_type_builtin c); [done|].
  by apply add_func_scope_attr_consistent.
Qed.

Lemma add_func_scope_types_consistent types is_unique (w : world) :
  Inj (=) (=) (scope_attr_name : ident cls → string) →
  scope_consistent w →
  scope_consistent (add_func_scope_types types is_unique w).2 ∧
  (add_func_scope_types types is_unique w).1 ≠
    Raise _BeartypeUtilCallableException.
Proof.
  intros Hinj Hcons.
  destruct (decide (2 ≤ length (items_of types))) as [Hlen|Hlen];
    [destruct (forallb is_hint_nonpep_type (items_of types)) eqn:Hok|].
  - destruct (add_func_scope_types_steps types is_unique w Hlen Hok)
      as (shared & wb & -> & Hfs & _).
    apply add_func_scope_attr_consistent; [done|].
    by apply (scope_consistent_same_scope w).
  - unfold add_func_scope_types.
    destruct types as [t|members|]; simpl in *; [| |done].
    + destruct (tup_items t) as [|c1 [|c2 l]]; simpl in *; try lia.
      by rewrite Hok.
    + destruct members as [|c1 [|c2 l]]; simpl in *; try lia.
      by rewrite Hok.
  - unfold add_func_scope_types.
    destruct types as [t|members|]; simpl in *; [| |done].
    + destruct (tup_items t) as [|c1 [|c2 l]]; simpl in *; [done| |lia].
      destruct (is_hint_nonpep_type c1); simpl; [|done].
      by apply add_func_scope_type_consistent.
    + destruct members as [|c1 [|c2 l]]; simpl in *; [done| |lia].
      destruct (is_hint_nonpep_type c1); simpl; [|done].
      by apply add_func_scope_type_consistent.
Qed.

(** X6.  When [add_func_scope_attr] names distinct objects differently, the
    registry invariant is kept by every adder, which then never raises
    [_BeartypeUtilCallableException]: the name collision the docstrings call
    impossible is impossible.  The invariant also survives the raw write of
    [express_func_scope_type_forwardref], provided [ARG_NAME_TYPISTRY] is not
    the name derived from another object. *)
Theorem scope_consistent_invariant (w : world) :
  Inj (=) (=) (scope_attr_name : ident cls → string) →
  scope_consistent w →
  (∀ type_or_types,
     scope_consistent (add_func_scope_type_or_types type_or_types w).2 ∧
     (add_func_scope_type_or_types type_or_types w).1 ≠
       Raise _BeartypeUtilCallableException) ∧
  (∀ types is_unique,
     scope_consistent (add_func_scope_types types is_unique w).2 ∧
     (add_func_scope_types types is_unique w).1 ≠
       Raise _BeartypeUtilCallableException) ∧
  ((∀ i : ident cls, scope_attr_name i = ARG_NAME_TYPISTRY → i = IdTypistry) →
   ∀ (forwardref : fref) forwardrefs_class_basename,
     scope_consistent
       (express_func_scope_type_forwardref forwardref
          forwardrefs_class_basename w).2).
Proof.
  intros Hinj Hcons. split; [|split].
  - intros [c|types]; simpl.
    + by apply add_func_scope_type_consistent.
    + by apply add_func_scope_types_consistent.
  - intros. by apply add_func_scope_types_consistent.
  - intros Hname forwardref s. unfold express_func_scope_type_forwardref.
    destruct (is_hint_pep484585_ref forwardref); simpl; [|done].
    destruct (str_contains_char _ _); simpl.
    + unfold bind, scope_set, lift_result, ret. simpl.
      assert (Hwritten : scope_consistent
        (World (<[ARG_NAME_TYPISTRY := SVTypistry]> (func_scope w))
               (bear_typistry w) (set_heap w) (next_id w)));
        [|by destruct (get_hint_forwardref_code _)].
      intros attr bound. simpl.
      destruct (decide (ARG_NAME_TYPISTRY = scope_attr_name (id_of attr)))
        as [Heq|Hne].
      * rewrite <- Heq, lookup_insert_eq. intros [= <-].
        symmetry in Heq. apply Hname in Heq. unfold obj_is.
        by apply bool_decide_eq_true.
      * rewrite lookup_insert_ne by done. apply Hcons.
    + destruct s as [a|]; simpl; by apply (scope_consistent_same_scope w).
Qed.

(** X7.  With [is_unique] true, the tuple object the caller passes is the object
    that is cached and bound, and nothing is allocated; with [is_unique]
    false, a new tuple object built from the set of the items is cached and
    bound instead, also when the passed tuple has no duplicates. *)
Theorem add_func_scope_types_is_unique_passes_tuple (t : tupobj) (w : world) :
  2 ≤ length (tup_items t) →
  forallb is_hint_nonpep_type (tup_items t) = true →
  (bear_typistry w !! tuple_types_name (tup_items t) = None →
   func_scope w !! scope_attr_name (IdTuple (tup_id t)) = None →
   add_func_scope_types (TypesTuple t) true w =
     (Ok (scope_attr_name (IdTuple (tup_id t))),
      World (<[scope_attr_name (IdTuple (tup_id t)) := SVTuple t]>
               (func_scope w))
            (<[tuple_types_name (tup_items t) := SVTuple t]>
               (bear_typistry w))
            (set_heap w) (next_id w))) ∧
  (let t' := TupObj (next_id w) (tuple_of_set (tup_items t)) in
   bear_typistry w !! tuple_types_name (tup_items t') = None →
   func_scope w !! scope_attr_name (IdTuple (tup_id t')) = None →
   add_func_scope_types (TypesTuple t) false w =
     (Ok (scope_attr_name (IdTuple (tup_id t'))),
      World (<[scope_attr_name (IdTuple (tup_id t')) := SVTuple t']>
               (func_scope w))
            (<[tuple_types_name (tup_items t') := SVTuple t']>
               (bear_typistry w))
            (set_heap w) (S (next_id w))) ∧
   (tup_id t < next_id w → obj_is (SVTuple t') (SVTuple t) = false)).
Proof.
  intros Hlen Hok. split.
  - intros Hty Hfs.
    rewrite (add_func_scope_types_many (TypesTuple t)) by done.
    unfold bind, canonical_tuple, ret, typistry_cache_tuple. rewrite Hty.
    unfold add_func_scope_attr. simpl. by rewrite Hfs.
  - intros t' Hty Hfs. subst t'. simpl in Hty, Hfs. split.
    + rewrite (add_func_scope_types_many (TypesTuple t)) by done.
      unfold bind, canonical_tuple, new_tuple, typistry_cache_tuple.
      cbn. rewrite Hty. unfold add_func_scope_attr. cbn. by rewrite Hfs.
    + intros Hlt. unfold obj_is. apply bool_decide_eq_false. simpl.
      intros [= Heq]. lia.
Qed.

(** X8.  The one-item shortcut looks at the length of the collection as passed,
    before duplicates are dropped: a tuple or set of one class is registered
    as that class, without the beartypistry, while a tuple that repeats one
    class is registered as a new one-item tuple through the beartypistry,
    also for a builtin class. *)
Theorem add_func_scope_types_shortcut_before_dedup
    (c : cls) (t : tupobj) (w : world) :
  is_hint_nonpep_type c = true →
  (∀ types is_unique, items_of types = [c] →
     add_func_scope_types types is_unique w = add_func_scope_type c w) ∧
  (tup_items t = [c; c] →
   tuple_of_set [c; c] = [c] →
   let t' := TupObj (next_id w) [c] in
   bear_typistry w !! tuple_types_name [c] = None →
   func_scope w !! scope_attr_name (IdTuple (next_id w)) = None →
   add_func_scope_types (TypesTuple t) false w =
     (Ok (scope_attr_name (IdTuple (next_id w))),
      World (<[scope_attr_name (IdTuple (next_id w)) := SVTuple t']>
               (func_scope w))
            (<[tuple_types_name [c] := SVTuple t']> (bear_typistry w))
            (set_heap w) (S (next_id w)))).
Proof.
  intros Hc. split.
  - intros types is_unique Hitems. unfold add_func_scope_types.
    destruct types as [t0|members|]; simpl in Hitems; [| |done].
    + simpl. rewrite Hitems. simpl. by rewrite Hc.
    + simpl. rewrite Hitems. simpl. by rewrite Hc.
  - intros Hitems Hset t' Hty Hfs.
    rewrite (add_func_scope_types_many (TypesTuple t)).
    + unfold bind, canonical_tuple, new_tuple, typistry_cache_tuple.
      cbn. rewrite Hitems, Hset. cbn. rewrite Hty.
      unfold add_func_scope_attr. cbn. by rewrite Hfs.
    + simpl. rewrite Hitems. simpl. lia.
    + simpl. rewrite Hitems. simpl. by rewrite Hc.
Qed.

(** X9.  A name an adder returns can be used: it is either the basename of a
    builtin class, with the world untouched, or a name the scope now binds
    to an object from whose identity the name derives; for a collection of
    two or more classes that object is the one the beartypistry holds under
    the key of the canonical tuple. *)
Theorem add_func_scope_type_or_types_binds
    (type_or_types : cls + types_arg) (w w' : world) (n : string) :
  add_func_scope_type_or_types type_or_types w = (Ok n, w') →
  (∃ c, (type_or_types = inl c ∨
         ∃ types, type_or_types = inr types ∧ items_of types = [c]) ∧
        is_type_isinstanceable c = true ∧
        ((is_type_builtin c = true ∧ n = get_object_type_basename c ∧
          w' = w) ∨
         (is_type_builtin c = false ∧ n = scope_attr_name (IdType c) ∧
          ∃ bound, func_scope w' !! n = Some bound ∧
                   id_of bound = IdType c))) ∨
  (∃ types cached bound,
     type_or_types = inr types ∧ 2 ≤ length (items_of types) ∧
     forallb is_hint_nonpep_type (items_of types) = true ∧
     bear_typistry w' !! tuple_types_name (canonical_items types false) =
       Some cached ∧
     n = scope_attr_name (id_of cached) ∧
     func_scope w' !! n = Some bound ∧ id_of bound = id_of cached).
Proof.
  assert (Htype : ∀ c, add_func_scope_type c w = (Ok n, w') →
    is_type_isinstanceable c = true ∧
    ((is_type_builtin c = true ∧ n = get_object_type_basename c ∧ w' = w) ∨
     (is_type_builtin c = false ∧ n = scope_attr_name (IdType c) ∧
      ∃ bound, func_scope w' !! n = Some bound ∧ id_of bound = IdType c))).
  { intros c. unfold add_func_scope_type.
    destruct (is_type_isinstanceable c); simpl; [|done].
    intros Hadd. split; [done|]. revert Hadd.
    destruct (is_type_builtin c).
    - intros [= <- <-]. by left.
    - intros Hadd. right. split; [done|].
      apply add_func_scope_attr_ok in Hadd
        as (Hn & _ & _ & _ & bound & Hb & His).
      split; [done|]. exists bound. split; [done|].
      unfold obj_is in His. by apply bool_decide_eq_true in His. }
  destruct type_or_types as [c|types]; simpl; intros Hadd.
  - left. exists c. split; [by left|]. by apply Htype.
  - destruct (decide (2 ≤ length (items_of types))) as [Hlen|Hlen].
    + right.
      pose proof (add_func_scope_types_valid types _ _ _ _ Hlen Hadd) as Hok.
      rewrite add_func_scope_types_many in Hadd by done.
      destruct (canonical_tuple_ok types false w Hlen)
        as (t & wa & Hct & Hci & _ & _ & _).
      unfold bind at 1 in Hadd. rewrite Hct in Hadd.
      destruct (typistry_cache_tuple_ok t wa)
        as (cached & wb & Htc & Hl & _ & _).
      unfold bind in Hadd. rewrite Htc in Hadd.
      apply add_func_scope_attr_ok in Hadd
        as (Hn & Hty & _ & _ & bound & Hb & His).
      exists types, cached, bound. split; [done|]. split; [done|].
      split; [done|]. split; [by rewrite Hty, <- Hci|].
      split; [done|]. split; [done|].
      unfold obj_is in His. by apply bool_decide_eq_true in His.
    + left. unfold add_func_scope_types in Hadd.
      destruct types as [t|members|]; simpl in *; [| |done].
      * destruct (tup_items t) as [|c1 [|c2 l]] eqn:Hitems; simpl in *;
          [done| |lia].
        destruct (is_hint_nonpep_type c1); simpl in Hadd; [|done].
        exists c1. split; [right; by exists (TypesTuple t)|]. by apply Htype.
      * destruct members as [|c1 [|c2 l]] eqn:Hitems; simpl in *;
          [done| |lia].
        destruct (is_hint_nonpep_type c1); simpl in Hadd; [|done].
        exists c1. split; [right; by exists (TypesSet [c1])|]. by apply Htype.
Qed.

(** What lines 365-378 reject: an object that is neither a tuple nor a set,
    an empty collection, and a collection with an item that
    [die_unless_hint_nonpep_type] does not accept. *)
Definition rejected (types : types_arg) : Prop :=
  types = TypesOther ∨ items_of types = [] ∨
  ∃ c, c ∈ items_of types ∧ is_hint_nonpep_type c = false.

Lemma forallb_false_elem_of {A} (f : A → bool) (l : list A) :
  forallb f l = false ↔ ∃ x, x ∈ l ∧ f x = false.
Proof.
  induction l as [|x l IH]; simpl.
  - split; [done|]. by intros (x & ?%elem_of_nil & _).
  - destruct (f x) eqn:Hx; simpl.
    + rewrite IH. split.
      * intros (y & Hy & Hf). exists y. split; [by right|done].
      * intros (y & [->|Hy]%elem_of_cons & Hf); [congruence|by exists y].
    + split; [|done]. intros _. exists x. split; [by left|done].
Qed.

Lemma classic_rejected (types : types_arg) :
  rejected types ∨ ¬ rejected types.
Proof.
  destruct types as [t|members|]; [| |left; by left].
  - destruct (tup_items t) as [|c l] eqn:Ht; [left; right; by left|].
    destruct (forallb is_hint_nonpep_type (tup_items t)) eqn:Hall.
    + right. intros [|[Hnil|Hbad]]; [done|simpl in Hnil; congruence|].
      apply forallb_false_elem_of in Hbad. simpl in Hbad. congruence.
    + left. right; right. by apply forallb_false_elem_of.
  - destruct members as [|c l] eqn:Hm; [left; right; by left|].
    destruct (forallb is_hint_nonpep_type (c :: l)) eqn:Hall.
    + right. intros [|[Hnil|Hbad]]; [done|done|].
      apply forallb_false_elem_of in Hbad. simpl in Hbad. simpl in Hall.
      congruence.
    + left. right; right. by apply forallb_false_elem_of.
Qed.

Lemma add_func_scope_types_rejected types is_unique (w : world) :
  rejected types →
  add_func_scope_types types is_unique w =
    (Raise BeartypeDecorHintNonpepException, w).
Proof.
  intros [->|[Hnil|Hbad]]; [done| |].
  - unfold add_func_scope_types.
    destruct types as [t|members|]; simpl in *; [| |done]; by rewrite Hnil.
  - apply forallb_false_elem_of in Hbad. unfold add_func_scope_types.
    destruct types as [t|members|]; simpl in *; [| |done].
    + destruct (tup_items t) as [|c1 l]; [done|]. simpl in Hbad.
      by rewrite Hbad.
    + destruct members as [|c1 l]; [done|]. simpl in Hbad. by rewrite Hbad.
Qed.

(** X10.  Every way [add_func_scope_types] fails, given that
    [die_unless_hint_nonpep_type] accepts isinstanceable classes only.  A
    collection that is neither a tuple nor a set, that is empty, or that has
    an item that is not accepted (a lone class that is not isinstanceable
    included) raises [BeartypeDecorHintNonpepException] before anything is
    touched.  No other collection raises but on a name bound to another
    object in the scope, with [_BeartypeUtilCallableException] and the scope
    left as it was; [BeartypeDecorHintPep3119Exception] is never raised. *)
Theorem add_func_scope_types_failures
    (types : types_arg) (is_unique : bool) (w : world) :
  (∀ c, is_hint_nonpep_type c = true → is_type_isinstanceable c = true) →
  (rejected types →
   add_func_scope_types types is_unique w =
     (Raise BeartypeDecorHintNonpepException, w)) ∧
  (∀ e w', add_func_scope_types types is_unique w = (Raise e, w') →
     (e = BeartypeDecorHintNonpepException ∧ w' = w ∧ rejected types) ∨
     (e = _BeartypeUtilCallableException ∧ ¬ rejected types ∧
      func_scope w' = func_scope w ∧
      ∃ attr prior,
        func_scope w !! scope_attr_name (id_of attr) = Some prior ∧
        obj_is prior attr = false)).
Proof.
  intros Hvalid. split; [apply add_func_scope_types_rejected|].
  intros e w' Hadd.
  destruct (classic_rejected types) as [Hrej|Hok].
  { left. rewrite (add_func_scope_types_rejected _ _ _ Hrej) in Hadd.
    by injection Hadd as <- <-. }
  right.
  assert (Hattr : ∀ attr w0, add_func_scope_attr attr w0 = (Raise e, w') →
    e = _BeartypeUtilCallableException ∧ w' = w0 ∧
    ∃ prior, func_scope w0 !! scope_attr_name (id_of attr) = Some prior ∧
             obj_is prior attr = false).
  { intros attr w0. unfold add_func_scope_attr.
    destruct (func_scope w0 !! scope_attr_name (id_of attr)) as [prior|];
      [|done].
    destruct (obj_is prior attr) eqn:His; [done|]. intros [= <- <-]. eauto. }
  assert (Hitems : forallb is_hint_nonpep_type (items_of types) = true).
  { destruct (forallb is_hint_nonpep_type (items_of types)) eqn:Hall; [done|].
    exfalso. apply Hok. right; right. by apply forallb_false_elem_of. }
  destruct (decide (2 ≤ length (items_of types))) as [Hlen|Hlen].
  - destruct (add_func_scope_types_steps types is_unique w Hlen Hitems)
      as (cached & wb & Heq & Hfs & _).
    rewrite Heq in Hadd. apply Hattr in Hadd as (-> & -> & prior & Hl & His).
    split; [done|]. split; [done|]. split; [done|].
    exists cached, prior. by rewrite <- Hfs.
  - assert (Hone : ∃ c, items_of types = [c] ∧
      add_func_scope_types types is_unique w = add_func_scope_type c w).
    { unfold add_func_scope_types.
      destruct types as [t|members|]; simpl in *.
      - destruct (tup_items t) as [|c1 [|c2 l]] eqn:Ht; simpl in *; [|eexists|lia].
        + exfalso. apply Hok. right; left. done.
        + split; [done|]. by rewrite Hitems.
      - destruct members as [|c1 [|c2 l]] eqn:Ht; simpl in *; [|eexists|lia].
        + exfalso. apply Hok. right; left. done.
        + split; [done|]. by rewrite Hitems.
      - exfalso. apply Hok. by left. }
    destruct Hone as (c & Hc & Heq). rewrite Heq in Hadd.
    rewrite Hc in Hitems. simpl in Hitems. rewrite andb_true_r in Hitems.
    unfold add_func_scope_type in Hadd. rewrite (Hvalid c Hitems) in Hadd.
    simpl in Hadd. destruct (is_type_builtin c); [done|].
    apply Hattr in Hadd as (-> & -> & prior & Hl & His).
    split; [done|]. split; [done|]. split; [done|]. eauto.
Qed.

End scope_invariants.

Lemma x_attr_name_inj : Inj (=) (=) x_attr_name.
Proof.
  intros i j Heq. unfold x_attr_name in Heq.
  apply (inj (String.app _)) in Heq. apply (inj pretty) in Heq.
  destruct i as [c|a|], j as [c'|a'|]; try destruct c; try destruct c';
    simpl in Heq; try lia; try done.
  f_equal. lia.
Qed.

Lemma x_typistry_name (i : ident xcls) :
  x_attr_name i = "__beartypistry" → i = IdTypistry.
Proof. unfold x_attr_name. simpl. intros [=]. Qed.

Lemma scope_consistent_invariant_witness :
  Inj (=) (=) (scope_attr_name : ident xcls → string) ∧
  scope_consistent x_world ∧
  (∀ type_or_types,
     scope_consistent (add_func_scope_type_or_types type_or_types x_world).2 ∧
     (add_func_scope_type_or_types type_or_types x_world).1 ≠
       Raise _BeartypeUtilCallableException) ∧
  (∀ types is_unique,
     scope_consistent (add_func_scope_types types is_unique x_world).2 ∧
     (add_func_scope_types types is_unique x_world).1 ≠
       Raise _BeartypeUtilCallableException) ∧
  ((∀ i : ident xcls, scope_attr_name i = ARG_NAME_TYPISTRY → i = IdTypistry) →
   ∀ (forwardref : string) forwardrefs_class_basename,
     scope_consistent
       (express_func_scope_type_forwardref forwardref
          forwardrefs_class_basename x_world).2).
Proof.
  split; [exact x_attr_name_inj|]. split; [exact scope_consistent_empty|].
  exact (scope_consistent_invariant x_world x_attr_name_inj
           scope_consistent_empty).
Defined.

Lemma add_func_scope_types_is_unique_passes_tuple_witness :
  2 ≤ length (tup_items x_AB) ∧
  forallb is_hint_nonpep_type (tup_items x_AB) = true ∧
  (bear_typistry x_world !! tuple_types_name (tup_items x_AB) = None →
   func_scope x_world !! scope_attr_name (IdTuple (tup_id x_AB)) = None →
   add_func_scope_types (TypesTuple x_AB) true x_world =
     (Ok (scope_attr_name (IdTuple (tup_id x_AB))),
      World (<[scope_attr_name (IdTuple (tup_id x_AB)) := SVTuple x_AB]>
               (func_scope x_world))
            (<[tuple_types_name (tup_items x_AB) := SVTuple x_AB]>
               (bear_typistry x_world))
            (set_heap x_world) (next_id x_world))) ∧
  (let t' := TupObj (next_id x_world) (tuple_of_set (tup_items x_AB)) in
   bear_typistry x_world !! tuple_types_name (tup_items t') = None →
   func_scope x_world !! scope_attr_name (IdTuple (tup_id t')) = None →
   add_func_scope_types (TypesTuple x_AB) false x_world =
     (Ok (scope_attr_name (IdTuple (tup_id t'))),
      World (<[scope_attr_name (IdTuple (tup_id t')) := SVTuple t']>
               (func_scope x_world))
            (<[tuple_types_name (tup_items t') := SVTuple t']>
               (bear_typistry x_world))
            (set_heap x_world) (S (next_id x_world))) ∧
   (tup_id x_AB < next_id x_world →
    obj_is (SVTuple t') (SVTuple x_AB) = false)).
Proof.
  assert (Hlen : 2 ≤ length (tup_items x_AB)) by (simpl; lia).
  split; [exact Hlen|]. split; [reflexivity|].
  exact (add_func_scope_types_is_unique_passes_tuple x_AB x_world Hlen
           eq_refl).
Defined.

(** The tuple [(int, int)]. *)
Definition x_int_int : tupobj xcls := TupObj 53 [X_int; X_int].

Lemma add_func_scope_types_shortcut_before_dedup_witness :
  is_hint_nonpep_type X_int = true ∧
  (∀ types is_unique, items_of types = [X_int] →
     add_func_scope_types types is_unique x_world =
       add_func_scope_type X_int x_world) ∧
  (tup_items x_int_int = [X_int; X_int] →
   tuple_of_set [X_int; X_int] = [X_int] →
   let t' := TupObj (next_id x_world) [X_int] in
   bear_typistry x_world !! tuple_types_name [X_int] = None →
   func_scope x_world !! scope_attr_name (IdTuple (next_id x_world)) = None →
   add_func_scope_types (TypesTuple x_int_int) false x_world =
     (Ok (scope_attr_name (IdTuple (next_id x_world))),
      World (<[scope_attr_name (IdTuple (next_id x_world)) := SVTuple t']>
               (func_scope x_world))
            (<[tuple_types_name [X_int] := SVTuple t']>
               (bear_typistry x_world))
            (set_heap x_world) (S (next_id x_world)))).
Proof.
  split; [reflexivity|].
  exact (add_func_scope_types_shortcut_before_dedup X_int x_int_int x_world
           eq_refl).
Defined.

(** The tuple [(int,)] is registered as [int]; the tuple [(int, int)] is
    registered as a tuple object. *)
Example add_func_scope_types_int_int :
  add_func_scope_types (TypesTuple (TupObj 54 [X_int])) false x_world =
    (Ok "int", x_world) ∧
  (add_func_scope_types (TypesTuple x_int_int) false x_world).1 =
    Ok "__beartype_object_100" ∧
  bear_typistry (add_func_scope_types (TypesTuple x_int_int) false x_world).2
    !! "+1" = Some (SVTuple (TupObj 0 [X_int])).
Proof. split; [|split]; by vm_compute. Qed.

Lemma add_func_scope_type_or_types_binds_witness :
  add_func_scope_type_or_types (inr (TypesTuple x_AB)) x_world =
    (Ok "__beartype_object_100",
     (add_func_scope_type_or_types (inr (TypesTuple x_AB)) x_world).2) ∧
  ((∃ c, (inr (TypesTuple x_AB) = inl c ∨
          ∃ types, @inr xcls _ (TypesTuple x_AB) = inr types ∧
                   items_of types = [c]) ∧
         is_type_isinstanceable c = true ∧
         ((is_type_builtin c = true ∧
           "__beartype_object_100" = get_object_type_basename c ∧
           (add_func_scope_type_or_types (inr (TypesTuple x_AB)) x_world).2 =
             x_world) ∨
          (is_type_builtin c = false ∧
           "__beartype_object_100" = scope_attr_name (IdType c) ∧
           ∃ bound,
             func_scope
               (add_func_scope_type_or_types (inr (TypesTuple x_AB))
                  x_world).2 !! "__beartype_object_100" = Some bound ∧
             id_of bound = IdType c))) ∨
   (∃ types cached bound,
      @inr xcls _ (TypesTuple x_AB) = inr types ∧
      2 ≤ length (items_of types) ∧
      forallb is_hint_nonpep_type (items_of types) = true ∧
      bear_typistry
        (add_func_scope_type_or_types (inr (TypesTuple x_AB)) x_world).2 !!
        tuple_types_name (canonical_items types false) = Some cached ∧
      "__beartype_object_100" = scope_attr_name (id_of cached) ∧
      func_scope
        (add_func_scope_type_or_types (inr (TypesTuple x_AB)) x_world).2 !!
        "__beartype_object_100" = Some bound ∧
      id_of bound = id_of cached)).
Proof.
  assert (Hadd : add_func_scope_type_or_types (inr (TypesTuple x_AB)) x_world =
    (Ok "__beartype_object_100",
     (add_func_scope_type_or_types (inr (TypesTuple x_AB)) x_world).2))
    by (by vm_compute).
  split; [exact Hadd|].
  exact (add_func_scope_type_or_types_binds (inr (TypesTuple x_AB)) x_world _
           "__beartype_object_100" Hadd).
Defined.

(** The tuple [(int, NonIsinstanceable, A)], and the tuple of the class
    that is not isinstanceable alone. *)
Definition x_bad_tuple : types_arg xcls :=
  TypesTuple (TupObj 55 [X_int; X_NonIsinstanceable; X_A]).
Definition x_bad_alone : types_arg xcls :=
  TypesTuple (TupObj 56 [X_NonIsinstanceable]).

(** A scope in which the name of the class [A] is bound to the class [B]. *)
Definition x_world_taken : world xcls :=
  World {[x_attr_name (IdType X_A) := SVType X_B]} ∅ ∅ 0.

Lemma add_func_scope_types_failures_witness :
  (∀ c : xcls,
     is_hint_nonpep_type c = true → is_type_isinstanceable c = true) ∧
  rejected x_bad_tuple ∧
  add_func_scope_types x_bad_tuple false x_world =
    (Raise BeartypeDecorHintNonpepException, x_world) ∧
  rejected x_bad_alone ∧
  add_func_scope_types x_bad_alone false x_world =
    (Raise BeartypeDecorHintNonpepException, x_world) ∧
  add_func_scope_types (TypesTuple (TupObj 57 [X_A])) false x_world_taken =
    (Raise _BeartypeUtilCallableException, x_world_taken) ∧
  ((_BeartypeUtilCallableException = BeartypeDecorHintNonpepException ∧
    x_world_taken = x_world_taken ∧
    rejected (TypesTuple (TupObj 57 [X_A]))) ∨
   (_BeartypeUtilCallableException = _BeartypeUtilCallableException ∧
    ¬ rejected (TypesTuple (TupObj 57 [X_A])) ∧
    func_scope x_world_taken = func_scope x_world_taken ∧
    ∃ attr prior,
      func_scope x_world_taken !! scope_attr_name (id_of attr) = Some prior ∧
      obj_is prior attr = false)).
Proof.
  assert (Hvalid : ∀ c : xcls,
    is_hint_nonpep_type c = true → is_type_isinstanceable c = true).
  { by intros []. }
  assert (Hbad : rejected x_bad_tuple).
  { right; right. exists X_NonIsinstanceable.
    split; [|done]. simpl. right. by left. }
  assert (Halone : rejected x_bad_alone).
  { right; right. exists X_NonIsinstanceable. split; [|done]. by left. }
  split; [exact Hvalid|]. split; [exact Hbad|].
  split.
  { exact (proj1 (add_func_scope_types_failures x_bad_tuple false x_world
                    Hvalid) Hbad). }
  split; [exact Halone|].
  split.
  { exact (proj1 (add_func_scope_types_failures x_bad_alone false x_world
                    Hvalid) Halone). }
  assert (Htaken :
    add_func_scope_types (TypesTuple (TupObj 57 [X_A])) false x_world_taken =
      (Raise _BeartypeUtilCallableException, x_world_taken))
    by (by vm_compute).
  split; [exact Htaken|].
  exact (proj2 (add_func_scope_types_failures (TypesTuple (TupObj 57 [X_A]))
                  false x_world_taken Hvalid)
           _BeartypeUtilCallableException x_world_taken Htaken).
Defined.

End CodeScope.

(** ** [beartype/_decor/_code/_pep/_pephint.py] *)

Module PepHint.

(** *** Python string operations *)

(** The string holding one double quote character. *)
Definition dquote : string := String (ascii_of_nat 34) EmptyString.

(** [s.replace(old, new)] for a non-empty [old], scanning from the left;
    [skip] counts the characters of a match still to be dropped. *)
Fixpoint str_replace_from (old new : string) (skip : nat) (s : string)
    : string :=
  match s with
  | EmptyString => EmptyString
  | String c s' =>
      match skip with
      | S k => str_replace_from old new k s'
      | 0 =>
          if String.prefix old s then
            new +:+ str_replace_from old new (String.length old - 1) s'
          else String c (str_replace_from old new 0 s')
      end
  end.

(** [s.replace('', new)]: [new] before every character and at the end. *)
Fixpoint str_intersperse (new : string) (s : string) : string :=
  match s with
  | EmptyString => new
  | String c s' => new +:+ String c (str_intersperse new s')
  end.

(** [s.replace(old, new)]. *)
Definition str_replace (old new s : string) : string :=
  match old with
  | EmptyString => str_intersperse new s
  | _ => str_replace_from old new 0 s
  end.

(** [s[:-n]] for a positive [n]. *)
Definition str_drop_last (n : nat) (s : string) : string :=
  String.substring 0 (String.length s - n) s.

(** [needle in s]. *)
Fixpoint str_contains (needle s : string) : bool :=
  String.prefix needle s ||
  match s with
  | EmptyString => false
  | String _ s' => str_contains needle s'
  end.

(** *** Python sets, as the code uses them *)

(** A set is kept as the duplicate-free list of its insertions. *)
Definition set_add {A} `{EqDecision A} (x : A) (s : list A) : list A :=
  if decide (x ∈ s) then s else s ++ [x].

(** *** Exceptions and results *)

Inductive exn : Type :=
| BeartypeDecorHintPepException (message : string)
| BeartypeDecorHintPepUnsupportedException
| BeartypeDecorBeartypistryException
| AssertionError
| IndexError
| UnboundLocalError.

Inductive result (A : Type) : Type :=
| Ok (a : A)
| Raise (e : exn).
Arguments Ok {A}.
Arguments Raise {A}.

(** *** What the module imports *)

(** Functions and constants of the repository that [_pephint.py] imports and
    whose sources are not part of the verified files.  [hint] is the type of
    the objects passed as type hints, [attr] the type of the argumentless
    [typing] attributes, [T] the state of the beartypistry. *)
Class HintImports (hint attr T : Type) : Type := {
  is_hint_pep : hint → bool;
  (** [hint in HINTS_IGNORABLE]. *)
  hint_ignorable : hint → bool;
  (** [die_unless_hint_pep_supported] returns rather than raises. *)
  is_hint_pep_supported : hint → bool;
  get_hint_pep_typing_attr : hint → attr;
  (** [die_unless_hint_pep_typing_attr_supported] returns. *)
  is_hint_pep_typing_attr_supported : attr → bool;
  (** [hint_curr_attr is Union]. *)
  attr_is_Union : attr → bool;
  (** [hint_curr_attr in TYPING_ATTRS_SEQUENCE_STANDARD]. *)
  attr_in_TYPING_ATTRS_SEQUENCE_STANDARD : attr → bool;
  (** [hint_curr_attr in TYPING_ATTR_TO_TYPE_ORIGIN]. *)
  attr_in_TYPING_ATTR_TO_TYPE_ORIGIN : attr → bool;
  get_hint_type_origin_or_none : attr → option hint;
  (** [get_hint_type_origin], which raises when there is no origin type. *)
  get_hint_type_origin : attr → result hint;
  (** [hint.__args__]. *)
  hint_args : hint → list hint;
  (** [isinstance(hint, type)]. *)
  hint_is_type : hint → bool;
  (** [repr(hint)]. *)
  hint_repr : hint → string;
  register_typistry_type : hint → T → result string * T;
  register_typistry_tuple : list hint → bool → T → result string * T;
  (** The order in which a set yields the items inserted in the given
      order; it yields each of them once. *)
  set_iter : list hint → list hint;
  set_iter_perm : ∀ s, set_iter s ≡ₚ s;
  (** The placeholder [data.get_next_pep_hint_placeholder()] returns when
      the counter of [data] stands at the given number. *)
  pep_hint_placeholder : nat → string;
  SIZE_BIG : nat;
  EXCEPTION_CACHED_PLACEHOLDER : string;
  CODE_INDENT_1 : string;
  CODE_INDENT_2 : string;
  PEP_CODE_PITH_ROOT_EXPR : string;
  (** [PEP_CODE_CHECK_HINT_ROOT.format(hint_child_placeholder=...)]. *)
  PEP_CODE_CHECK_HINT_ROOT_format : string → string;
  (** [.format(pith_curr_expr=..., hint_curr_expr=...)]. *)
  PEP_CODE_CHECK_HINT_NONPEP_TYPE_format : string → string → string;
  (** [.format(indent_curr=..., pith_curr_expr=..., hint_curr_expr=...,
      hint_child_placeholder=...)]. *)
  PEP_CODE_CHECK_HINT_SEQUENCE_STANDARD_format :
    string → string → string → string → string;
  (** [.format(pith_curr_expr=...)]. *)
  PEP_CODE_CHECK_HINT_SEQUENCE_STANDARD_PITH_CHILD_EXPR_format :
    string → string;
  PEP_CODE_CHECK_HINT_UNION_PREFIX : string;
  PEP_CODE_CHECK_HINT_UNION_SUFFIX : string;
  (** [.format(hint_child_placeholder=...)]. *)
  PEP_CODE_CHECK_HINT_UNION_ARG_PEP_format : string → string;
  (** [.format(pith_curr_expr=..., hint_curr_expr=...)]. *)
  PEP_CODE_CHECK_HINT_UNION_ARG_NONPEP_format : string → string → string;
  (** [code.format(indent_curr=...)] on the assembled union code: the
      code, then the indentation. *)
  format_indent_curr : string → string → string;
}.

(** *** The state of one call *)

(** The fixed list of metadata describing one hint to visit. *)
Record hint_meta (hint : Type) : Type := HintMeta {
  meta_hint : hint;
  meta_placeholder : string;
  meta_pith_expr : string;
  meta_indent : string;
}.
Arguments HintMeta {hint}.
Arguments meta_hint {hint}.
Arguments meta_placeholder {hint}.
Arguments meta_pith_expr {hint}.
Arguments meta_indent {hint}.

(** The attributes of [data] the function reads and writes (the two scratch
    sets, the placeholder counter, the flag), the beartypistry, and the local
    variables that live across iterations of the search. *)
Record state (hint T : Type) : Type := State {
  hint_childs_nonpep : list hint;
  hint_childs_pep : list hint;
  pep_hint_placeholder_id : nat;
  is_func_wrapper_needs_random_int : bool;
  typistry : T;
  hints_meta : list (option (hint_meta hint));
  hints_meta_index_curr : nat;
  hints_meta_index_last : nat;
  func_code : string;
}.
Arguments State {hint T}.
Arguments hint_childs_nonpep {hint T}.
Arguments hint_childs_pep {hint T}.
Arguments pep_hint_placeholder_id {hint T}.
Arguments is_func_wrapper_needs_random_int {hint T}.
Arguments typistry {hint T}.
Arguments hints_meta {hint T}.
Arguments hints_meta_index_curr {hint T}.
Arguments hints_meta_index_last {hint T}.
Arguments func_code {hint T}.

(** The attributes of the [BeartypeData] object passed as [data] that
    [pep_code_check_hint] uses: the scratch sets [set_a] and [set_b], the
    counter behind [get_next_pep_hint_placeholder], and the flag. *)
Record BeartypeData (hint : Type) : Type := Data {
  set_a : list hint;
  set_b : list hint;
  data_placeholder_id : nat;
  data_needs_random_int : bool;
}.
Arguments Data {hint}.
Arguments set_a {hint}.
Arguments set_b {hint}.
Arguments data_placeholder_id {hint}.
Arguments data_needs_random_int {hint}.

Section pep_code_check_hint.
Context {hint attr T : Type} `{EqDecision hint} `{!HintImports hint attr T}.

Local Abbreviation state := (state hint T).
Local Abbreviation hint_meta := (hint_meta hint).

(** State and exceptions: what a raise leaves behind is kept. *)
Definition M (A : Type) : Type := state → result A * state.

Definition ret {A} (a : A) : M A := λ st, (Ok a, st).
Definition raise {A} (e : exn) : M A := λ st, (Raise e, st).
Definition bind {A B} (m : M A) (k : A → M B) : M B :=
  λ st, match m st with
        | (Ok a, st') => k a st'
        | (Raise e, st') => (Raise e, st')
        end.
Definition gets {A} (f : state → A) : M A := λ st, (Ok (f st), st).
Definition modify (f : state → state) : M unit := λ st, (Ok tt, f st).

Local Notation "'do' x <- m ; k" := (bind m (λ x, k))
  (at level 10, x name, m at level 100, k at level 200, only parsing).
Local Notation "m ;; k" := (bind m (λ _, k))
  (at level 100, k at level 200, right associativity, only parsing).

Definition die_unless (b : bool) (e : exn) : M unit :=
  if b then ret tt else raise e.

(** [assert b]. *)
Definition py_assert (b : bool) : M unit := die_unless b AssertionError.

Definition lift_result {A} (r : result A) : M A := λ st, (r, st).

(** A call of a beartypistry function. *)
Definition lift_typistry {A} (f : T → result A * T) : M A :=
  λ st,
    let '(r, t) := f (typistry st) in
    (r, State (hint_childs_nonpep st) (hint_childs_pep st)
              (pep_hint_placeholder_id st)
              (is_func_wrapper_needs_random_int st) t (hints_meta st)
              (hints_meta_index_curr st) (hints_meta_index_last st)
              (func_code st)).

(** Modelled from the spec: [BeartypeData.get_next_pep_hint_placeholder] is
    defined in [beartype/_decor/_data.py], which is not among the sources; it
    returns a placeholder unique to each call, here the one of the counter,
    which it advances. *)
Definition get_next_pep_hint_placeholder : M string :=
  λ st,
    (Ok (pep_hint_placeholder (pep_hint_placeholder_id st)),
     State (hint_childs_nonpep st) (hint_childs_pep st)
           (S (pep_hint_placeholder_id st))
           (is_func_wrapper_needs_random_int st) (typistry st) (hints_meta st)
           (hints_meta_index_curr st) (hints_meta_index_last st)
           (func_code st)).

(** The two scratch sets after the filtering loop. *)
Definition put_childs (nonpep pep : list hint) : M unit :=
  modify (λ st,
    State nonpep pep (pep_hint_placeholder_id st)
          (is_func_wrapper_needs_random_int st) (typistry st) (hints_meta st)
          (hints_meta_index_curr st) (hints_meta_index_last st)
          (func_code st)).

(** [data.is_func_wrapper_needs_random_int = True]. *)
Definition need_random_int : M unit :=
  modify (λ st,
    State (hint_childs_nonpep st) (hint_childs_pep st)
          (pep_hint_placeholder_id st) true (typistry st) (hints_meta st)
          (hints_meta_index_curr st) (hints_meta_index_last st)
          (func_code st)).

(** [hints_meta_index_last += 1; hints_meta[hints_meta_index_last] = meta]:
    the index is advanced first, and assigning past the end of the fixed
    list raises [IndexError]. *)
Definition enqueue (meta : hint_meta) : M unit :=
  λ st,
    let last := S (hints_meta_index_last st) in
    if decide (last < length (hints_meta st)) then
      (Ok tt,
       State (hint_childs_nonpep st) (hint_childs_pep st)
             (pep_hint_placeholder_id st)
             (is_func_wrapper_needs_random_int st) (typistry st)
             (<[last := Some meta]> (hints_meta st))
             (hints_meta_index_curr st) last (func_code st))
    else
      (Raise IndexError,
       State (hint_childs_nonpep st) (hint_childs_pep st)
             (pep_hint_placeholder_id st)
             (is_func_wrapper_needs_random_int st) (typistry st)
             (hints_meta st) (hints_meta_index_curr st) last (func_code st)).

(** Lines 1467-1480: splice the code of the visited hint into the body and
    retire its metadata. *)
Definition cleanup (hint_curr_placeholder func_curr_code : string) : M unit :=
  modify (λ st,
    State (hint_childs_nonpep st) (hint_childs_pep st)
          (pep_hint_placeholder_id st)
          (is_func_wrapper_needs_random_int st) (typistry st)
          (<[hints_meta_index_curr st := None]> (hints_meta st))
          (S (hints_meta_index_curr st)) (hints_meta_index_last st)
          (str_replace hint_curr_placeholder func_curr_code (func_code st))).

(** The message of lines 1103-1106 and 1246-1249. *)
Definition capacity_message (hint_root_label : string) : string :=
  hint_root_label +:+ " contains more than " +:+ pretty SIZE_BIG +:+
  " " +:+ dquote +:+ "typing" +:+ dquote +:+ " types.".

Definition capacity_error (hint_root_label : string) : exn :=
  BeartypeDecorHintPepException (capacity_message hint_root_label).

(** Lines 964-1003: one step of the loop filtering the arguments of a union
    into the sets [(hint_childs_nonpep, hint_childs_pep)]. *)
Definition union_filter_child (sets : list hint * list hint) (hint_child : hint)
    : list hint * list hint :=
  if hint_ignorable hint_child then sets
  else if is_hint_pep hint_child then
    match get_hint_type_origin_or_none (get_hint_pep_typing_attr hint_child)
    with
    | Some hint_child_type_origin =>
        (set_add hint_child_type_origin sets.1, set_add hint_child sets.2)
    | None => (sets.1, set_add hint_child sets.2)
    end
  else (set_add hint_child sets.1, sets.2).

(** Lines 960-1003: both sets cleared, then filled. *)
Definition union_filter (hint_childs : list hint) : list hint * list hint :=
  fold_left union_filter_child hint_childs ([], []).

(** Lines 1110-1167: enqueue each PEP-compliant child and append its
    placeholder to the code. *)
Fixpoint union_enqueue (childs : list hint) (pith_curr_expr indent_child : string)
    (func_curr_code : string) : M string :=
  match childs with
  | [] => ret func_curr_code
  | hint_child :: childs' =>
      do hint_child_placeholder <- get_next_pep_hint_placeholder;
      enqueue (HintMeta hint_child hint_child_placeholder pith_curr_expr
                        indent_child) ;;
      union_enqueue childs' pith_curr_expr indent_child
        (func_curr_code +:+
         PEP_CODE_CHECK_HINT_UNION_ARG_PEP_format hint_child_placeholder)
  end.

(** Lines 1009-1185: the code of a union whose arguments were filtered into
    [(nonpep, pep)].  [func_curr_code] starts as the prefix object and every
    [+=] of a non-empty string yields another object, so
    [func_curr_code is not PEP_CODE_CHECK_HINT_UNION_PREFIX] holds exactly
    when the two strings differ. *)
Definition visit_union_childs (hint_root_label : string) (meta : hint_meta)
    (indent_child : string) (nonpep pep : list hint) : M string :=
  do code_nonpep <-
    (match nonpep with
     | [] => ret PEP_CODE_CHECK_HINT_UNION_PREFIX
     | _ =>
         do hint_curr_expr <-
           lift_typistry (register_typistry_tuple (set_iter nonpep) true);
         ret (PEP_CODE_CHECK_HINT_UNION_PREFIX +:+
              PEP_CODE_CHECK_HINT_UNION_ARG_NONPEP_format
                (meta_pith_expr meta) hint_curr_expr)
     end);
  do func_curr_code <-
    (match pep with
     | [] => ret code_nonpep
     | _ =>
         do last <- gets hints_meta_index_last;
         if decide (SIZE_BIG ≤ last + length pep) then
           raise (capacity_error hint_root_label)
         else
           union_enqueue (set_iter pep) (meta_pith_expr meta) indent_child
             code_nonpep
     end);
  ret (if decide (func_curr_code = PEP_CODE_CHECK_HINT_UNION_PREFIX)
       then func_curr_code
       else format_indent_curr
              (str_drop_last 3 func_curr_code +:+
               PEP_CODE_CHECK_HINT_UNION_SUFFIX)
              (meta_indent meta)).

(** Lines 920-1185: the code of a union.  The message of the assertion of
    lines 945-946 is formatted from the local [hint], which line 646 deleted,
    so that a failing assertion raises [UnboundLocalError]. *)
Definition visit_union (hint_root_label : string) (meta : hint_meta)
    (indent_child : string) : M string :=
  let hint_childs := hint_args (meta_hint meta) in
  die_unless (bool_decide (hint_childs ≠ [])) UnboundLocalError ;;
  let sets := union_filter hint_childs in
  put_childs sets.1 sets.2 ;;
  visit_union_childs hint_root_label meta indent_child sets.1 sets.2.

(** Lines 1190-1303: the code of a standard sequence. *)
Definition visit_sequence (hint_root_label : string) (meta : hint_meta)
    (hint_curr_attr : attr) (indent_child : string) : M string :=
  py_assert (attr_in_TYPING_ATTR_TO_TYPE_ORIGIN hint_curr_attr) ;;
  match hint_args (meta_hint meta) with
  | [hint_child] =>
      do origin <- lift_result (get_hint_type_origin hint_curr_attr);
      do hint_curr_expr <- lift_typistry (register_typistry_type origin);
      if hint_ignorable hint_child then
        ret (PEP_CODE_CHECK_HINT_NONPEP_TYPE_format
               (meta_pith_expr meta) hint_curr_expr)
      else
        need_random_int ;;
        do last <- gets hints_meta_index_last;
        if decide (SIZE_BIG ≤ last + 1) then
          raise (capacity_error hint_root_label)
        else
          do hint_child_placeholder <- get_next_pep_hint_placeholder;
          enqueue (HintMeta hint_child hint_child_placeholder
                     (PEP_CODE_CHECK_HINT_SEQUENCE_STANDARD_PITH_CHILD_EXPR_format
                        (meta_pith_expr meta))
                     indent_child) ;;
          ret (PEP_CODE_CHECK_HINT_SEQUENCE_STANDARD_format
                 (meta_indent meta) (meta_pith_expr meta) hint_curr_expr
                 hint_child_placeholder)
  | _ => raise AssertionError
  end.

(** Lines 1382-1408: the fallback for the other supported attributes. *)
Definition visit_fallback (meta : hint_meta) (hint_curr_attr : attr)
    : M string :=
  py_assert (attr_in_TYPING_ATTR_TO_TYPE_ORIGIN hint_curr_attr) ;;
  do origin <- lift_result (get_hint_type_origin hint_curr_attr);
  do hint_curr_expr <- lift_typistry (register_typistry_type origin);
  ret (PEP_CODE_CHECK_HINT_NONPEP_TYPE_format
         (meta_pith_expr meta) hint_curr_expr).

(** Lines 1431-1446: a class that is not a [typing] object. *)
Definition visit_class (meta : hint_meta) : M string :=
  do hint_curr_expr <-
    lift_typistry (register_typistry_type (meta_hint meta));
  ret (PEP_CODE_CHECK_HINT_NONPEP_TYPE_format
         (meta_pith_expr meta) hint_curr_expr).

(** The message of lines 1461-1464; [{!r}] is [repr]. *)
Definition not_pep_message (hint_child_label : string) (hint_curr : hint)
    : string :=
  hint_child_label +:+ " " +:+ hint_repr hint_curr +:+
  " not PEP-compliant (i.e., neither " +:+ dquote +:+ "typing" +:+ dquote +:+
  " object nor non-" +:+ dquote +:+ "typing" +:+ dquote +:+ " class).".

(** Lines 816-1464: the code checking the current pith against the hint. *)
Definition visit_hint (hint_root_label : string) (meta : hint_meta) : M string :=
  let hint_curr := meta_hint meta in
  let hint_child_label := hint_root_label +:+ " child" in
  if is_hint_pep hint_curr then
    die_unless (is_hint_pep_supported hint_curr)
      BeartypeDecorHintPepUnsupportedException ;;
    py_assert (negb (hint_ignorable hint_curr)) ;;
    let hint_curr_attr := get_hint_pep_typing_attr hint_curr in
    die_unless (is_hint_pep_typing_attr_supported hint_curr_attr)
      BeartypeDecorHintPepUnsupportedException ;;
    let indent_child := meta_indent meta +:+ CODE_INDENT_1 in
    if attr_is_Union hint_curr_attr then
      visit_union hint_root_label meta indent_child
    else if attr_in_TYPING_ATTRS_SEQUENCE_STANDARD hint_curr_attr then
      visit_sequence hint_root_label meta hint_curr_attr indent_child
    else visit_fallback meta hint_curr_attr
  else if hint_is_type hint_curr then visit_class meta
  else
    raise (BeartypeDecorHintPepException
             (not_pep_message hint_child_label hint_curr)).

(** Lines 796-1480: one iteration of the search. *)
Definition visit (hint_root_label : string) : M unit :=
  do curr <- gets hints_meta_index_curr;
  do metas <- gets hints_meta;
  match metas !! curr with
  | None => raise IndexError
  | Some None => raise AssertionError
  | Some (Some hint_curr_meta) =>
      do func_curr_code <- visit_hint hint_root_label hint_curr_meta;
      cleanup (meta_placeholder hint_curr_meta) func_curr_code
  end.

(** Line 795: the [while] loop, with a bound on the number of iterations;
    [None] when the bound is too small. *)
Fixpoint search (fuel : nat) (hint_root_label : string) (st : state)
    : option (result unit * state) :=
  if decide (hints_meta_index_curr st ≤ hints_meta_index_last st) then
    match fuel with
    | 0 => None
    | S fuel' =>
        match visit hint_root_label st with
        | (Ok _, st') => search fuel' hint_root_label st'
        | (Raise e, st') => Some (Raise e, st')
        end
    end
  else Some (Ok tt, st).

(** Lines 652-788: the state in which the search starts. *)
Definition init (data : BeartypeData hint) (ty : T) (hint_root : hint)
    : result unit * state :=
  let hint_child_placeholder := pep_hint_placeholder (data_placeholder_id data) in
  let hint_root_meta :=
    HintMeta hint_root hint_child_placeholder PEP_CODE_PITH_ROOT_EXPR
             CODE_INDENT_2 in
  let st :=
    State (set_a data) (set_b data) (S (data_placeholder_id data))
          (data_needs_random_int data) ty
          (<[0 := Some hint_root_meta]> (replicate SIZE_BIG None)) 0 0
          (PEP_CODE_CHECK_HINT_ROOT_format hint_child_placeholder) in
  if decide (0 < SIZE_BIG) then (Ok tt, st) else (Raise IndexError, st).

Definition hint_root_label_of (hint_root : hint) : string :=
  EXCEPTION_CACHED_PLACEHOLDER +:+ " " +:+ hint_repr hint_root.

(** [pep_code_check_hint(data, hint)], before memoization.  The search runs
    on [SIZE_BIG] units of fuel, which is enough (see
    [pep_code_check_hint_total]). *)
Definition pep_code_check_hint (data : BeartypeData hint) (ty : T)
    (hint_root : hint) : option (result string * state) :=
  let hint_root_label := hint_root_label_of hint_root in
  let func_root_code :=
    PEP_CODE_CHECK_HINT_ROOT_format
      (pep_hint_placeholder (data_placeholder_id data)) in
  match init data ty hint_root with
  | (Raise e, st) => Some (Raise e, st)
  | (Ok _, st) =>
      match search SIZE_BIG hint_root_label st with
      | None => None
      | Some (Raise e, st') => Some (Raise e, st')
      | Some (Ok _, st') =>
          if decide (func_code st' = func_root_code) then
            Some (Raise (BeartypeDecorHintPepException
                           (hint_root_label +:+ " not type-checked.")), st')
          else Some (Ok (func_code st'), st')
      end
  end.

(** *** What a union contributes, stated without the state *)

(** The unignorable arguments of [h] that are not PEP-compliant, and those
    that are. *)
Definition plain_child (h c : hint) : Prop :=
  c ∈ hint_args h ∧ hint_ignorable c = false ∧ is_hint_pep c = false.
Definition compound_child (h c : hint) : Prop :=
  c ∈ hint_args h ∧ hint_ignorable c = false ∧ is_hint_pep c = true.

(** The work list after the children [childs] are enqueued behind index
    [last], the first of them under the placeholder numbered [id]. *)
Fixpoint enqueued (childs : list hint) (id last : nat)
    (pith_curr_expr indent_child : string)
    (metas : list (option hint_meta)) : list (option hint_meta) :=
  match childs with
  | [] => metas
  | c :: childs' =>
      enqueued childs' (S id) (S last) pith_curr_expr indent_child
        (<[S last := Some (HintMeta c (pep_hint_placeholder id) pith_curr_expr
                                    indent_child)]> metas)
  end.

(** The code testing the given placeholders, one after the other. *)
Definition union_pep_code (placeholders : list string) : string :=
  foldr (λ ph acc, PEP_CODE_CHECK_HINT_UNION_ARG_PEP_format ph +:+ acc) ""
        placeholders.

(** The placeholders numbered [id], [id + 1], ... ([n] of them). *)
Definition placeholders_from (id n : nat) : list string :=
  map pep_hint_placeholder (seq id n).

(** The current hint is a supported, unignorable union. *)
Definition visits_union (meta : hint_meta) : Prop :=
  let h := meta_hint meta in
  is_hint_pep h = true ∧ is_hint_pep_supported h = true ∧
  hint_ignorable h = false ∧
  is_hint_pep_typing_attr_supported (get_hint_pep_typing_attr h) = true ∧
  attr_is_Union (get_hint_pep_typing_attr h) = true ∧
  hint_args h ≠ [].

(** The current hint is a supported, unignorable standard sequence whose
    one argument is unignorable and whose origin type registers. *)
Definition visits_sequence (meta : hint_meta) (st : state) : Prop :=
  let h := meta_hint meta in
  let a := get_hint_pep_typing_attr h in
  is_hint_pep h = true ∧ is_hint_pep_supported h = true ∧
  hint_ignorable h = false ∧ is_hint_pep_typing_attr_supported a = true ∧
  attr_is_Union a = false ∧ attr_in_TYPING_ATTRS_SEQUENCE_STANDARD a = true ∧
  attr_in_TYPING_ATTR_TO_TYPE_ORIGIN a = true ∧
  ∃ hint_child origin expr ty',
    hint_args h = [hint_child] ∧ hint_ignorable hint_child = false ∧
    get_hint_type_origin a = Ok origin ∧
    register_typistry_type origin (typistry st) = (Ok expr, ty').

(** Visiting the current hint would enqueue metadata past the capacity of
    the work list: a union with PEP-compliant children that do not fit
    (its tuple of plain children, if any, registering), or a sequence whose
    child does not fit. *)
Definition would_overflow (meta : hint_meta) (st : state) : Prop :=
  (visits_union meta ∧
   let sets := union_filter (hint_args (meta_hint meta)) in
   sets.2 ≠ [] ∧
   SIZE_BIG ≤ hints_meta_index_last st + length sets.2 ∧
   (sets.1 = [] ∨
    ∃ expr ty', register_typistry_tuple (set_iter sets.1) true (typistry st)
                = (Ok expr, ty'))) ∨
  (visits_sequence meta st ∧ SIZE_BIG ≤ hints_meta_index_last st + 1).

(** [reaches label st st']: the search started in [st] gets to [st'] after
    some iterations, none of which raised. *)
Inductive reaches (hint_root_label : string) : state → state → Prop :=
| reaches_here st : reaches hint_root_label st st
| reaches_step st st1 st2 :
    hints_meta_index_curr st ≤ hints_meta_index_last st →
    visit hint_root_label st = (Ok tt, st1) →
    reaches hint_root_label st1 st2 →
    reaches hint_root_label st st2.

(** *** The search terminates within the capacity *)

(** The fixed list has [SIZE_BIG] slots and the last index is one of them. *)
Definition in_capacity (st : state) : Prop :=
  length (hints_meta st) = SIZE_BIG ∧ hints_meta_index_last st < SIZE_BIG.

(** A computation that, when it returns, keeps the work list within its
    capacity and does not move the current index. *)
Definition steady {A} (m : M A) : Prop :=
  ∀ st a st', m st = (Ok a, st') → in_capacity st →
    in_capacity st' ∧ hints_meta_index_curr st' = hints_meta_index_curr st.

Lemma steady_ret {A} (a : A) : steady (ret a).
Proof. by intros st a' st' [= <- <-]. Qed.

Lemma steady_raise {A} (e : exn) : steady (raise (A:=A) e).
Proof. by intros st a' st' [=]. Qed.

Lemma steady_bind {A B} (m : M A) (k : A → M B) :
  steady m → (∀ a, steady (k a)) → steady (bind m k).
Proof.
  intros Hm Hk st b st'. unfold bind.
  destruct (m st) as [[a|e] st1] eqn:E; [|done].
  intros Hka Hin. destruct (Hm _ _ _ E Hin) as [Hin1 Hc1].
  destruct (Hk a _ _ _ Hka Hin1) as [Hin2 Hc2]. split; [done|congruence].
Qed.

Lemma steady_gets {A} (f : state → A) : steady (gets f).
Proof. by intros st a st' [= <- <-]. Qed.

Lemma steady_die_unless b e : steady (die_unless b e).
Proof. destruct b; [apply steady_ret|apply steady_raise]. Qed.

Lemma steady_lift_result {A} (r : result A) : steady (lift_result r).
Proof. by intros st a st' [= -> <-]. Qed.

Lemma steady_lift_typistry {A} (f : T → result A * T) :
  steady (lift_typistry f).
Proof.
  intros st a st'. unfold lift_typistry.
  destruct (f (typistry st)) as [r t]. by intros [= -> <-].
Qed.

Lemma steady_get_next_pep_hint_placeholder :
  steady get_next_pep_hint_placeholder.
Proof. by intros st a st' [= <- <-]. Qed.

Lemma steady_put_childs nonpep pep : steady (put_childs nonpep pep).
Proof. by intros st a st' [= <- <-]. Qed.

Lemma steady_need_random_int : steady need_random_int.
Proof. by intros st a st' [= <- <-]. Qed.

Lemma steady_enqueue meta : steady (enqueue meta).
Proof.
  intros st a st'. unfold enqueue.
  destruct (decide (S (hints_meta_index_last st) < length (hints_meta st)))
    as [Hlt|]; [|done].
  intros [= <- <-] [Hlen Hlast]. unfold in_capacity. simpl.
  rewrite length_insert. split; [|done]. split; [done|]. by rewrite <- Hlen.
Qed.

Lemma steady_union_enqueue childs pith indent_child code :
  steady (union_enqueue childs pith indent_child code).
Proof.
  revert code. induction childs as [|c childs IH]; intros code; simpl.
  - apply steady_ret.
  - apply steady_bind; [apply steady_get_next_pep_hint_placeholder|].
    intros ph. apply steady_bind; [apply steady_enqueue|]. intros _. apply IH.
Qed.

Create HintDb steady.
#[local] Hint Resolve steady_ret steady_raise steady_gets steady_die_unless
  steady_lift_result steady_lift_typistry steady_get_next_pep_hint_placeholder
  steady_put_childs steady_need_random_int steady_enqueue
  steady_union_enqueue : steady.

Ltac steady_step :=
  first
    [ apply steady_bind; [|intros ?]
    | match goal with
      | |- steady (match ?x with _ => _ end) => destruct x
      | |- steady (py_assert _) => apply steady_die_unless
      end
    | solve [auto with steady] ].

Lemma steady_visit_hint label meta : steady (visit_hint label meta).
Proof.
  unfold visit_hint, visit_union, visit_union_childs, visit_sequence,
    visit_fallback, visit_class.
  repeat steady_step.
Qed.

(** A successful iteration keeps the capacity and advances the index. *)
Lemma visit_ok_in_capacity label st st' :
  visit label st = (Ok tt, st') → in_capacity st →
  in_capacity st' ∧
  hints_meta_index_curr st' = S (hints_meta_index_curr st).
Proof.
  unfold visit, bind at 1, gets at 1, bind at 1, gets at 1.
  destruct (hints_meta st !! hints_meta_index_curr st) as [[m|]|]; [| done..].
  unfold bind.
  destruct (visit_hint label m st) as [[code|e] st1] eqn:E; [|done].
  intros [= <-] Hin.
  destruct (steady_visit_hint label m _ _ _ E Hin) as [[Hlen Hlast] Hc].
  unfold in_capacity. simpl. rewrite length_insert. by rewrite Hc.
Qed.

Lemma search_enough_fuel fuel label st :
  in_capacity st → SIZE_BIG ≤ fuel + hints_meta_index_curr st →
  is_Some (search fuel label st).
Proof.
  revert st. induction fuel as [|fuel IH]; intros st Hin Hfuel; simpl.
  - destruct (decide _) as [Hle|]; [|done].
    destruct Hin as [_ Hlast]. lia.
  - destruct (decide _) as [Hle|]; [|done].
    destruct (visit label st) as [[[]|e] st'] eqn:E; [|done].
    destruct (visit_ok_in_capacity _ _ _ E Hin) as [Hin' Hc].
    apply IH; [done|lia].
Qed.

(** [pep_code_check_hint] always finishes: it returns code or raises. *)
Lemma pep_code_check_hint_total data ty hint_root :
  is_Some (pep_code_check_hint data ty hint_root).
Proof.
  unfold pep_code_check_hint, init.
  destruct (decide (0 < SIZE_BIG)) as [Hpos|]; [|done].
  match goal with
  | |- context [search SIZE_BIG ?l ?st] =>
      destruct (search_enough_fuel SIZE_BIG l st) as [[[[]|e] st'] ->]
  end.
  - split; simpl; [|done]. by rewrite length_insert, length_replicate.
  - simpl. lia.
  - by destruct (decide _).
  - done.
Qed.

(** *** Strings and sets *)

Lemma str_app_cons c s t : String c s +:+ t = String c (s +:+ t).
Proof. reflexivity. Qed.

Lemma str_app_assoc a b c : (a +:+ b) +:+ c = a +:+ (b +:+ c).
Proof.
  induction a as [|x a IH]; [done|]. by rewrite !str_app_cons, IH.
Qed.

Lemma str_app_nil_r s : s +:+ "" = s.
Proof. induction s as [|x s IH]; [done|]. by rewrite str_app_cons, IH. Qed.

Lemma str_app_eq_nil a b : a +:+ b = "" → a = "".
Proof. destruct a; [done|]. rewrite str_app_cons. discriminate. Qed.

Lemma str_app_ne_prefix p a b : a ≠ "" → p +:+ a +:+ b ≠ p.
Proof.
  intros Ha Heq. apply Ha, (str_app_eq_nil a b).
  apply (inj (String.app p)). by rewrite str_app_nil_r.
Qed.

Lemma set_add_elem_of (x y : hint) s : y ∈ set_add x s ↔ y = x ∨ y ∈ s.
Proof.
  unfold set_add. destruct (decide (x ∈ s)) as [Hin|Hin].
  - split; [by right|]. intros [->|]; done.
  - rewrite elem_of_app, list_elem_of_singleton. tauto.
Qed.

Lemma set_add_NoDup (x : hint) s : NoDup s → NoDup (set_add x s).
Proof.
  intros Hnd. unfold set_add. destruct (decide (x ∈ s)) as [Hin|Hin]; [done|].
  apply list.NoDup_app. split; [done|].
  split; [|apply list.NoDup_singleton].
  intros y Hy ->%list_elem_of_singleton. done.
Qed.

Lemma union_filter_child_pep sets child c :
  c ∈ (union_filter_child sets child).2 ↔
  c ∈ sets.2 ∨
  (c = child ∧ hint_ignorable c = false ∧ is_hint_pep c = true).
Proof.
  unfold union_filter_child.
  destruct (hint_ignorable child) eqn:Hi.
  { split; [by left|]. intros [|(-> & ? & _)]; [done|congruence]. }
  destruct (is_hint_pep child) eqn:Hp.
  - destruct (get_hint_type_origin_or_none _); simpl;
      rewrite set_add_elem_of; split.
    + intros [->|]; [by right|by left].
    + intros [|(-> & _)]; [by right|by left].
    + intros [->|]; [by right|by left].
    + intros [|(-> & _)]; [by right|by left].
  - simpl. split; [by left|]. intros [|(-> & _ & ?)]; [done|congruence].
Qed.

Lemma fold_union_filter_pep l sets c :
  c ∈ (fold_left union_filter_child l sets).2 ↔
  c ∈ sets.2 ∨
  (c ∈ l ∧ hint_ignorable c = false ∧ is_hint_pep c = true).
Proof.
  revert sets. induction l as [|child l IH]; intros sets; simpl.
  - split; [by left|]. intros [|[?%elem_of_nil _]]; done.
  - rewrite IH, union_filter_child_pep, elem_of_cons. tauto.
Qed.

Lemma fold_union_filter_pep_NoDup l sets :
  NoDup sets.2 → NoDup (fold_left union_filter_child l sets).2.
Proof.
  revert sets. induction l as [|child l IH]; intros sets Hnd; simpl; [done|].
  apply IH. unfold union_filter_child.
  destruct (hint_ignorable child); [done|].
  destruct (is_hint_pep child); [|done].
  destruct (get_hint_type_origin_or_none _); simpl; by apply set_add_NoDup.
Qed.

Lemma union_filter_child_nonpep_mono sets child c :
  c ∈ sets.1 → c ∈ (union_filter_child sets child).1.
Proof.
  intros Hc. unfold union_filter_child.
  destruct (hint_ignorable child); [done|].
  destruct (is_hint_pep child).
  - destruct (get_hint_type_origin_or_none _); simpl; [|done].
    apply set_add_elem_of. by right.
  - simpl. apply set_add_elem_of. by right.
Qed.

Lemma fold_union_filter_nonpep l sets c :
  c ∈ sets.1 ∨
  (c ∈ l ∧ hint_ignorable c = false ∧ is_hint_pep c = false) →
  c ∈ (fold_left union_filter_child l sets).1.
Proof.
  revert sets. induction l as [|child l IH]; intros sets; simpl.
  - intros [|[?%elem_of_nil _]]; done.
  - intros [Hc|(Hc & Hi & Hp)]; apply IH.
    + left. by apply union_filter_child_nonpep_mono.
    + apply elem_of_cons in Hc as [->|Hc]; [left|right; done].
      unfold union_filter_child. rewrite Hi, Hp. simpl.
      apply set_add_elem_of. by left.
Qed.

(** The PEP-compliant set holds exactly the compound children, once each. *)
Lemma union_filter_compound h c :
  c ∈ (union_filter (hint_args h)).2 ↔ compound_child h c.
Proof.
  unfold union_filter, compound_child. rewrite fold_union_filter_pep. simpl.
  split; [intros [?%elem_of_nil|]; done|by right].
Qed.

Lemma union_filter_compound_NoDup h : NoDup (union_filter (hint_args h)).2.
Proof. apply fold_union_filter_pep_NoDup. simpl. apply NoDup_nil_2. Qed.

(** The PEP-noncompliant set holds every plain child. *)
Lemma union_filter_plain h c :
  plain_child h c → c ∈ (union_filter (hint_args h)).1.
Proof. intros Hc. apply fold_union_filter_nonpep. by right. Qed.

(** If every argument is ignorable, both sets stay empty. *)
Lemma union_filter_all_ignorable l sets :
  (∀ c, c ∈ l → hint_ignorable c = true) →
  fold_left union_filter_child l sets = sets.
Proof.
  revert sets. induction l as [|child l IH]; intros sets Hall; simpl; [done|].
  unfold union_filter_child at 2. rewrite (Hall child) by (by left).
  apply IH. intros c Hc. apply Hall. by right.
Qed.

Lemma union_filter_child_nonpep sets child c :
  c ∈ (union_filter_child sets child).1 ↔
  c ∈ sets.1 ∨
  (hint_ignorable child = false ∧
   ((is_hint_pep child = false ∧ c = child) ∨
    (is_hint_pep child = true ∧
     get_hint_type_origin_or_none (get_hint_pep_typing_attr child) = Some c))).
Proof.
  unfold union_filter_child.
  destruct (hint_ignorable child) eqn:Hi.
  { split; [by left|]. by intros [|[? _]]. }
  destruct (is_hint_pep child) eqn:Hp.
  - destruct (get_hint_type_origin_or_none _) as [origin|]; simpl.
    + rewrite set_add_elem_of. split.
      * intros [->|]; [right|by left]. split; [done|]. by right.
      * intros [|(_ & [[? _]|[_ [= ->]]])]; [by right|done|by left].
    + split; [by left|]. by intros [|(_ & [[? _]|[_ ?]])].
  - simpl. rewrite set_add_elem_of. split.
    + intros [->|]; [right|by left]. split; [done|]. by left.
    + intros [|(_ & [[_ ->]|[? _]])]; [by right|by left|done].
Qed.

Lemma fold_union_filter_nonpep_exact l sets c :
  c ∈ (fold_left union_filter_child l sets).1 ↔
  c ∈ sets.1 ∨
  ∃ child, child ∈ l ∧ hint_ignorable child = false ∧
    ((is_hint_pep child = false ∧ c = child) ∨
     (is_hint_pep child = true ∧
      get_hint_type_origin_or_none (get_hint_pep_typing_attr child) = Some c)).
Proof.
  revert sets. induction l as [|child l IH]; intros sets; simpl.
  - split; [by left|]. intros [|(child & ?%elem_of_nil & _)]; done.
  - rewrite IH, union_filter_child_nonpep. split.
    + intros [[|Hc]|(child' & Hin & Hc)]; [by left| |].
      * right. exists child. split; [by left|done].
      * right. exists child'. split; [by right|done].
    + intros [|(child' & Hin & Hc)]; [by left; left|].
      apply elem_of_cons in Hin as [->|Hin]; [left; by right|].
      right. by exists child'.
Qed.

Lemma fold_union_filter_nonpep_NoDup l sets :
  NoDup sets.1 → NoDup (fold_left union_filter_child l sets).1.
Proof.
  revert sets. induction l as [|child l IH]; intros sets Hnd; simpl; [done|].
  apply IH. unfold union_filter_child.
  destruct (hint_ignorable child); [done|].
  destruct (is_hint_pep child); [|simpl; by apply set_add_NoDup].
  destruct (get_hint_type_origin_or_none _); simpl; [|done].
  by apply set_add_NoDup.
Qed.

(** The set tested with one shallow [isinstance] holds exactly the plain
    children and the origin types of the compound children. *)
Lemma union_filter_shallow h c :
  c ∈ (union_filter (hint_args h)).1 ↔
  plain_child h c ∨
  ∃ child, compound_child h child ∧
    get_hint_type_origin_or_none (get_hint_pep_typing_attr child) = Some c.
Proof.
  unfold union_filter. rewrite fold_union_filter_nonpep_exact. simpl.
  unfold plain_child, compound_child. split.
  - intros [?%elem_of_nil|(child & Hin & Hi & [[Hp ->]|[Hp Ho]])]; [done| |].
    + by left.
    + right. by exists child.
  - intros [(Hin & Hi & Hp)|(child & (Hin & Hi & Hp) & Ho)]; right.
    + exists c. split; [done|]. split; [done|]. by left.
    + exists child. split; [done|]. split; [done|]. by right.
Qed.

(** *** Enqueuing the children of a union *)

Lemma enqueued_length childs id last pith ic metas :
  length (enqueued childs id last pith ic metas) = length metas.
Proof.
  revert id last metas. induction childs as [|c childs IH];
    intros id last metas; simpl; [done|].
  by rewrite IH, length_insert.
Qed.

Lemma enqueued_lookup_le childs id last pith ic metas j :
  j ≤ last →
  enqueued childs id last pith ic metas !! j = metas !! j.
Proof.
  revert id last metas. induction childs as [|c childs IH];
    intros id last metas Hj; simpl; [done|].
  rewrite IH by lia. apply list_lookup_insert_ne. lia.
Qed.

Lemma enqueued_lookup childs id last pith ic metas i child :
  last + length childs < length metas →
  childs !! i = Some child →
  enqueued childs id last pith ic metas !! (last + 1 + i) =
    Some (Some (HintMeta child (pep_hint_placeholder (id + i)) pith ic)).
Proof.
  revert id last metas i. induction childs as [|c childs IH];
    intros id last metas i Hlen Hi; simpl in *; [done|].
  destruct i as [|i]; simpl in Hi.
  - injection Hi as ->. rewrite enqueued_lookup_le by lia.
    rewrite !Nat.add_0_r, Nat.add_1_r. apply list_lookup_insert_eq. lia.
  - replace (last + 1 + S i) with (S last + 1 + i) by lia.
    replace (id + S i) with (S id + i) by lia.
    apply IH; [|done]. rewrite length_insert. lia.
Qed.

Lemma union_enqueue_ok childs pith ic code st :
  hints_meta_index_last st + length childs < length (hints_meta st) →
  union_enqueue childs pith ic code st =
    (Ok (code +:+ union_pep_code
                    (placeholders_from (pep_hint_placeholder_id st)
                                       (length childs))),
     State (hint_childs_nonpep st) (hint_childs_pep st)
           (pep_hint_placeholder_id st + length childs)
           (is_func_wrapper_needs_random_int st) (typistry st)
           (enqueued childs (pep_hint_placeholder_id st)
                     (hints_meta_index_last st) pith ic (hints_meta st))
           (hints_meta_index_curr st)
           (hints_meta_index_last st + length childs) (func_code st)).
Proof.
  revert code st. induction childs as [|c childs IH]; intros code st Hlen.
  - simpl. unfold ret. rewrite str_app_nil_r, !Nat.add_0_r. by destruct st.
  - simpl in *. unfold bind at 1, get_next_pep_hint_placeholder at 1.
    unfold bind at 1, enqueue at 1. simpl.
    destruct (decide (S (hints_meta_index_last st) < length (hints_meta st)))
      as [_|]; [|lia].
    rewrite IH by (simpl; rewrite length_insert; lia). simpl.
    rewrite str_app_assoc. do 2 f_equal; lia.
Qed.

(** *** Visiting a union *)

Lemma visit_hint_union label m st :
  visits_union m →
  visit_hint label m st =
    visit_union label m (meta_indent m +:+ CODE_INDENT_1) st.
Proof.
  intros (Hp & Hs & Hi & Ha & Hu & _). unfold visit_hint.
  rewrite Hp, Hs, Hi, Ha, Hu. reflexivity.
Qed.

Lemma visit_union_start label m ic st :
  hint_args (meta_hint m) ≠ [] →
  visit_union label m ic st =
    visit_union_childs label m ic
      (union_filter (hint_args (meta_hint m))).1
      (union_filter (hint_args (meta_hint m))).2
      (State (union_filter (hint_args (meta_hint m))).1
             (union_filter (hint_args (meta_hint m))).2
             (pep_hint_placeholder_id st)
             (is_func_wrapper_needs_random_int st) (typistry st)
             (hints_meta st) (hints_meta_index_curr st)
             (hints_meta_index_last st) (func_code st)).
Proof.
  intros Hargs. unfold visit_union, bind, py_assert, die_unless.
  by rewrite bool_decide_true by done.
Qed.

Lemma visit_union_childs_mixed label m ic nonpep pep st expr ty' :
  nonpep ≠ [] → pep ≠ [] →
  register_typistry_tuple (set_iter nonpep) true (typistry st) = (Ok expr, ty') →
  PEP_CODE_CHECK_HINT_UNION_ARG_NONPEP_format (meta_pith_expr m) expr ≠ "" →
  hints_meta_index_last st + length (set_iter pep) < length (hints_meta st) →
  hints_meta_index_last st + length (set_iter pep) < SIZE_BIG →
  visit_union_childs label m ic nonpep pep st =
    (Ok (format_indent_curr
           (str_drop_last 3
              (PEP_CODE_CHECK_HINT_UNION_PREFIX +:+
               PEP_CODE_CHECK_HINT_UNION_ARG_NONPEP_format
                 (meta_pith_expr m) expr +:+
               union_pep_code
                 (placeholders_from (pep_hint_placeholder_id st)
                                    (length (set_iter pep)))) +:+
            PEP_CODE_CHECK_HINT_UNION_SUFFIX)
           (meta_indent m)),
     State (hint_childs_nonpep st) (hint_childs_pep st)
           (pep_hint_placeholder_id st + length (set_iter pep))
           (is_func_wrapper_needs_random_int st) ty'
           (enqueued (set_iter pep) (pep_hint_placeholder_id st)
                     (hints_meta_index_last st) (meta_pith_expr m) ic
                     (hints_meta st))
           (hints_meta_index_curr st)
           (hints_meta_index_last st + length (set_iter pep)) (func_code st)).
Proof.
  intros H1 H2 Hreg Hne Hlen Hcap.
  assert (Hl : length (set_iter pep) = length pep).
  { by rewrite (set_iter_perm pep). }
  unfold visit_union_childs.
  destruct nonpep as [|n0 nonpep]; [done|].
  destruct pep as [|p0 pep]; [done|].
  unfold bind at 1. unfold bind at 1, lift_typistry.
  rewrite Hreg. unfold ret at 1.
  unfold bind at 1. unfold bind at 1, gets. cbn [hints_meta_index_last].
  destruct (decide _) as [Hbig|_]; [lia|].
  rewrite union_enqueue_ok by (cbn [hints_meta_index_last hints_meta]; lia).
  cbn [hints_meta_index_last hints_meta pep_hint_placeholder_id
       hint_childs_nonpep hint_childs_pep is_func_wrapper_needs_random_int
       typistry hints_meta_index_curr func_code].
  unfold ret. rewrite str_app_assoc.
  destruct (decide _) as [Heq|_]; [by apply str_app_ne_prefix in Heq|].
  reflexivity.
Qed.

(** C2, amended.  When a visited union has at least one plain (unignorable,
    PEP-noncompliant) child and at least one compound (unignorable,
    PEP-compliant) child, and the tuple registers and the children fit, the
    code emitted for it is the prefix, then one [isinstance] test against the
    one registered tuple, then one placeholder per compound child.  The
    tuple holds exactly the plain children and the origin types of the
    compound children, each once.  The placeholders come in the order in
    which the set [hint_childs_pep] yields the compound children, each once,
    which is the order in which they are enqueued (the i-th placeholder in
    the code is that of the i-th child the set yields, enqueued i slots
    behind the last index): a permutation of the order of discovery
    [sets.2], and not that order itself. *)
Theorem union_emits_plain_test_then_placeholders
    (label : string) (m : hint_meta) (st : state) (plain compound : hint)
    (expr : string) (ty' : T) :
  visits_union m →
  plain_child (meta_hint m) plain →
  compound_child (meta_hint m) compound →
  let sets := union_filter (hint_args (meta_hint m)) in
  let childs := set_iter sets.2 in
  let phs := placeholders_from (pep_hint_placeholder_id st) (length childs) in
  register_typistry_tuple (set_iter sets.1) true (typistry st) = (Ok expr, ty') →
  PEP_CODE_CHECK_HINT_UNION_ARG_NONPEP_format (meta_pith_expr m) expr ≠ "" →
  length (hints_meta st) = SIZE_BIG →
  hints_meta_index_last st + length childs < SIZE_BIG →
  ∃ st',
    visit_hint label m st =
      (Ok (format_indent_curr
             (str_drop_last 3
                (PEP_CODE_CHECK_HINT_UNION_PREFIX +:+
                 PEP_CODE_CHECK_HINT_UNION_ARG_NONPEP_format
                   (meta_pith_expr m) expr +:+
                 union_pep_code phs) +:+
              PEP_CODE_CHECK_HINT_UNION_SUFFIX)
             (meta_indent m)), st') ∧
    typistry st' = ty' ∧
    (∀ c, c ∈ set_iter sets.1 ↔
       plain_child (meta_hint m) c ∨
       ∃ child, compound_child (meta_hint m) child ∧
         get_hint_type_origin_or_none (get_hint_pep_typing_attr child) =
           Some c) ∧
    NoDup (set_iter sets.1) ∧
    (∀ c, c ∈ childs ↔ compound_child (meta_hint m) c) ∧
    NoDup childs ∧
    childs ≡ₚ sets.2 ∧
    hints_meta_index_last st' = hints_meta_index_last st + length childs ∧
    (∀ i c, childs !! i = Some c →
       phs !! i =
         Some (pep_hint_placeholder (pep_hint_placeholder_id st + i)) ∧
       hints_meta st' !! (hints_meta_index_last st + 1 + i) =
         Some (Some (HintMeta c
                       (pep_hint_placeholder (pep_hint_placeholder_id st + i))
                       (meta_pith_expr m)
                       (meta_indent m +:+ CODE_INDENT_1)))).
Proof.
  intros Hv Hplain Hcomp sets childs phs Hreg Hne Hlen Hcap.
  assert (H1 : sets.1 ≠ []).
  { intros E. apply union_filter_plain in Hplain. fold sets in Hplain.
    rewrite E in Hplain. by apply elem_of_nil in Hplain. }
  assert (H2 : sets.2 ≠ []).
  { intros E. apply union_filter_compound in Hcomp. fold sets in Hcomp.
    rewrite E in Hcomp. by apply elem_of_nil in Hcomp. }
  eexists. split.
  { rewrite visit_hint_union by done.
    rewrite visit_union_start by apply Hv.
    apply visit_union_childs_mixed; try done. simpl. by rewrite Hlen. }
  simpl. split; [done|]. split.
  { intros c. rewrite (set_iter_perm sets.1). apply union_filter_shallow. }
  split.
  { rewrite (set_iter_perm sets.1).
    apply fold_union_filter_nonpep_NoDup. simpl. apply NoDup_nil_2. }
  split.
  { intros c. unfold childs. rewrite (set_iter_perm sets.2).
    apply union_filter_compound. }
  split.
  { unfold childs. rewrite (set_iter_perm sets.2).
    apply union_filter_compound_NoDup. }
  split; [apply set_iter_perm|].
  split; [done|]. intros i c Hi. split.
  - unfold phs, placeholders_from. rewrite list_lookup_fmap.
    rewrite lookup_seq_lt; [done|]. by eapply lookup_lt_Some.
  - apply enqueued_lookup; [|done]. by rewrite Hlen.
Qed.

(** Lines 1169-1185 when both sets are empty: the code is the bare prefix.
    This is reached only by a union that is visited although all its
    arguments are ignorable, hence by none that is itself ignorable. *)
Lemma visit_union_all_ignorable label m ic st :
  hint_args (meta_hint m) ≠ [] →
  (∀ c, c ∈ hint_args (meta_hint m) → hint_ignorable c = true) →
  visit_union label m ic st =
    (Ok PEP_CODE_CHECK_HINT_UNION_PREFIX,
     State [] [] (pep_hint_placeholder_id st)
           (is_func_wrapper_needs_random_int st) (typistry st) (hints_meta st)
           (hints_meta_index_curr st) (hints_meta_index_last st)
           (func_code st)).
Proof.
  intros Hargs Hall. rewrite visit_union_start by done. unfold union_filter.
  rewrite union_filter_all_ignorable by done.
  unfold visit_union_childs, bind, ret. simpl.
  by destruct (decide _).
Qed.




(** *** Running out of capacity *)

Lemma visit_union_overflow label m ic st :
  let sets := union_filter (hint_args (meta_hint m)) in
  hint_args (meta_hint m) ≠ [] → sets.2 ≠ [] →
  SIZE_BIG ≤ hints_meta_index_last st + length sets.2 →
  (sets.1 = [] ∨
   ∃ expr ty', register_typistry_tuple (set_iter sets.1) true (typistry st)
               = (Ok expr, ty')) →
  ∃ st', visit_union label m ic st = (Raise (capacity_error label), st') ∧
    hints_meta st' = hints_meta st ∧
    hints_meta_index_last st' = hints_meta_index_last st ∧
    func_code st' = func_code st.
Proof.
  intros sets Hargs H2 Hbig Hreg. rewrite visit_union_start by done.
  fold sets. destruct sets as [nonpep pep]. simpl in *.
  unfold visit_union_childs.
  destruct pep as [|p0 pep]; [done|]. simpl in Hbig.
  destruct Hreg as [->|(expr & ty' & Hreg)].
  - unfold bind, ret, gets. simpl.
    destruct (decide _) as [_|]; [|lia]. by eexists.
  - destruct nonpep as [|n0 nonpep].
    + unfold bind, ret, gets. simpl.
      destruct (decide _) as [_|]; [|lia]. by eexists.
    + unfold bind at 1. unfold bind at 1, lift_typistry. simpl typistry.
      rewrite Hreg. unfold ret at 1.
      unfold bind, gets. simpl.
      destruct (decide _) as [_|]; [|lia]. by eexists.
Qed.

Lemma visit_hint_sequence_overflow label m st :
  visits_sequence m st →
  SIZE_BIG ≤ hints_meta_index_last st + 1 →
  ∃ st', visit_hint label m st = (Raise (capacity_error label), st') ∧
    hints_meta st' = hints_meta st ∧
    hints_meta_index_last st' = hints_meta_index_last st ∧
    func_code st' = func_code st.
Proof.
  intros (Hp & Hs & Hi & Ha & Hu & Hq & Ho & c & origin & expr & ty' &
          Hargs & Hci & Horigin & Hreg) Hbig.
  unfold visit_hint. rewrite Hp, Hs, Hi, Ha, Hu, Hq.
  unfold visit_sequence. rewrite Ho, Hargs, Horigin, Hci.
  unfold bind, die_unless, py_assert, ret, lift_result, lift_typistry,
    need_random_int, modify, gets. simpl. rewrite Hreg. simpl.
  destruct (decide _) as [_|]; [|lia]. by eexists.
Qed.

Lemma search_reaches label st0 st :
  reaches label st0 st →
  ∀ fuel r, search fuel label st0 = Some r →
  ∃ fuel', search fuel' label st = Some r.
Proof.
  induction 1 as [st|st st1 st2 Hle Hvisit _ IH]; intros fuel r Hs; [eauto|].
  destruct fuel as [|fuel]; simpl in Hs.
  - by destruct (decide _).
  - destruct (decide _); [|done]. rewrite Hvisit in Hs. by eapply IH.
Qed.

(** C4, amended.  Whenever the search of [pep_code_check_hint] reaches a hint
    whose visit would enqueue child metadata past the capacity [SIZE_BIG] of
    the work list, the function raises instead of returning code, the work
    list being as it was when that hint was reached (nothing was enqueued);
    the text of the exception is made of the label of the root hint and of
    the limit [SIZE_BIG], and of nothing else. *)
Theorem capacity_overflow_raises
    (data : BeartypeData hint) (ty : T) (hint_root : hint)
    (st0 st : state) (m : hint_meta) :
  init data ty hint_root = (Ok tt, st0) →
  reaches (hint_root_label_of hint_root) st0 st →
  hints_meta_index_curr st ≤ hints_meta_index_last st →
  hints_meta st !! hints_meta_index_curr st = Some (Some m) →
  would_overflow m st →
  ∃ st',
    pep_code_check_hint data ty hint_root =
      Some (Raise (BeartypeDecorHintPepException
                     (hint_root_label_of hint_root +:+
                      " contains more than " +:+ pretty SIZE_BIG +:+ " " +:+
                      dquote +:+ "typing" +:+ dquote +:+ " types.")), st') ∧
    hints_meta st' = hints_meta st ∧
    hints_meta_index_last st' = hints_meta_index_last st ∧
    func_code st' = func_code st.
Proof.
  intros Hinit Hreach Hle Hm Hover.
  set (label := hint_root_label_of hint_root) in *.
  assert (Hvisit : ∃ st', visit label st = (Raise (capacity_error label), st') ∧
    hints_meta st' = hints_meta st ∧
    hints_meta_index_last st' = hints_meta_index_last st ∧
    func_code st' = func_code st).
  { unfold visit, bind at 1, gets at 1, bind at 1, gets at 1. rewrite Hm.
    unfold bind.
    destruct Hover as [(Hv & H2 & Hbig & Hreg)|[Hv Hbig]].
    - rewrite visit_hint_union by done.
      destruct (visit_union_overflow label m
        (meta_indent m +:+ CODE_INDENT_1) st) as (st' & -> & ?);
        [apply Hv|done..|]. by eexists.
    - destruct (visit_hint_sequence_overflow label m st Hv Hbig)
        as (st' & -> & ?). by eexists. }
  destruct Hvisit as (st' & Hvisit & Hmeta & Hlast & Hcode).
  exists st'. split; [|done].
  destruct (pep_code_check_hint_total data ty hint_root) as [r Hr].
  rewrite Hr. unfold pep_code_check_hint in Hr. rewrite Hinit in Hr.
  fold label in Hr.
  destruct (search SIZE_BIG label st0) as [r0|] eqn:Hsearch; [|done].
  destruct (search_reaches label st0 st Hreach _ _ Hsearch) as [fuel' Hs'].
  destruct fuel' as [|fuel']; simpl in Hs'.
  { by destruct (decide _). }
  destruct (decide _); [|done]. rewrite Hvisit in Hs'.
  injection Hs' as <-. by injection Hr as <-.
Qed.

(** *** Further properties of the search *)

(** X11.  The two sets a union is filtered into.  The set tested with one shallow
    [isinstance] holds exactly the plain children of the union and the origin
    types of its compound children that have one; the set of children to
    visit holds exactly the compound children.  Ignorable arguments are in
    neither, and nothing is in a set twice. *)
Theorem union_filter_exact (h : hint) :
  let sets := union_filter (hint_args h) in
  (∀ c, c ∈ sets.1 ↔
     plain_child h c ∨
     ∃ child, compound_child h child ∧
       get_hint_type_origin_or_none (get_hint_pep_typing_attr child) =
         Some c) ∧
  (∀ c, c ∈ sets.2 ↔ compound_child h c) ∧
  NoDup sets.1 ∧ NoDup sets.2.
Proof.
  intros sets. split; [|split; [|split]].
  - apply union_filter_shallow.
  - apply union_filter_compound.
  - apply fold_union_filter_nonpep_NoDup. simpl. apply NoDup_nil_2.
  - apply union_filter_compound_NoDup.
Qed.

(** More fuel does not change the result of a search that finished. *)
Lemma search_more_fuel fuel fuel' label st r :
  search fuel label st = Some r → fuel ≤ fuel' →
  search fuel' label st = Some r.
Proof.
  revert fuel' st. induction fuel as [|fuel IH]; intros fuel' st; simpl.
  - destruct (decide _) as [Hle|Hgt]; [done|]. intros <- _.
    destruct fuel'; simpl; by destruct (decide _).
  - destruct (decide _) as [Hle|Hgt].
    + intros Hs Hfuel. destruct fuel' as [|fuel']; [lia|]. simpl.
      destruct (decide _); [|done].
      destruct (visit label st) as [[[]|e] st1]; [|done].
      apply IH; [done|lia].
    + intros <- _. destruct fuel'; simpl; by destruct (decide _).
Qed.

(** X12.  The loop of [pep_code_check_hint] ends within [SIZE_BIG] iterations:
    from the state the function starts in, the search finishes on [SIZE_BIG]
    units of fuel, and on any larger number with the same result. *)
Theorem search_ends_within_capacity
    (data : BeartypeData hint) (ty : T) (hint_root : hint) (label : string) :
  0 < SIZE_BIG →
  ∃ r, ∀ fuel, SIZE_BIG ≤ fuel →
    search fuel label (init data ty hint_root).2 = Some r.
Proof.
  intros Hpos.
  destruct (search_enough_fuel SIZE_BIG label (init data ty hint_root).2)
    as [r Hr].
  - unfold init. destruct (decide _); simpl;
      (split; simpl; [by rewrite length_insert, length_replicate|done]).
  - lia.
  - exists r. intros fuel Hfuel. by eapply search_more_fuel.
Qed.

(** State [st'] is [st] with metadata appended to the work list: the slots
    up to the last index are as they were, the slots behind it up to the new
    last index are filled, the slots beyond are as they were; the current
    index and the code are untouched, and neither the placeholder counter
    nor the random-integer flag goes back. *)
Definition appends (st st' : state) : Prop :=
  length (hints_meta st') = length (hints_meta st) ∧
  hints_meta_index_curr st' = hints_meta_index_curr st ∧
  hints_meta_index_last st ≤ hints_meta_index_last st' ∧
  (∀ i, i ≤ hints_meta_index_last st ∨ hints_meta_index_last st' < i →
        hints_meta st' !! i = hints_meta st !! i) ∧
  (∀ i, hints_meta_index_last st < i ≤ hints_meta_index_last st' →
        ∃ m, hints_meta st' !! i = Some (Some m)) ∧
  func_code st' = func_code st ∧
  pep_hint_placeholder_id st ≤ pep_hint_placeholder_id st' ∧
  (is_func_wrapper_needs_random_int st = true →
   is_func_wrapper_needs_random_int st' = true).

(** A computation that, when it returns, has only appended to the work
    list. *)
Definition appending {A} (m : M A) : Prop :=
  ∀ st a st', m st = (Ok a, st') → appends st st'.

Ltac appends_same :=
  unfold appends; simpl; repeat split;
  first [done | lia | intros; lia | intros; simpl; lia].

Lemma appends_refl st : appends st st.
Proof.
  appends_same.
Qed.

Lemma appends_trans st st1 st2 :
  appends st st1 → appends st1 st2 → appends st st2.
Proof.
  intros (Hl1 & Hc1 & Hle1 & Hold1 & Hnew1 & Hf1 & Hp1 & Hr1)
         (Hl2 & Hc2 & Hle2 & Hold2 & Hnew2 & Hf2 & Hp2 & Hr2).
  unfold appends. split; [congruence|]. split; [congruence|].
  split; [lia|]. split; [|split; [|split; [congruence|split; [lia|auto]]]].
  - intros i Hi. rewrite Hold2 by lia. apply Hold1. lia.
  - intros i Hi.
    destruct (decide (i ≤ hints_meta_index_last st1)) as [Hle|Hgt].
    + rewrite Hold2 by lia. apply Hnew1. lia.
    + apply Hnew2. lia.
Qed.

Lemma appending_ret {A} (a : A) : appending (ret a).
Proof. intros st a' st' [= <- <-]. apply appends_refl. Qed.

Lemma appending_raise {A} (e : exn) : appending (raise (A:=A) e).
Proof. by intros st a' st' [=]. Qed.

Lemma appending_bind {A B} (m : M A) (k : A → M B) :
  appending m → (∀ a, appending (k a)) → appending (bind m k).
Proof.
  intros Hm Hk st b st'. unfold bind.
  destruct (m st) as [[a|e] st1] eqn:E; [|done].
  intros Hka. eapply appends_trans; [by eapply Hm|by eapply Hk].
Qed.

Lemma appending_gets {A} (f : state → A) : appending (gets f).
Proof. intros st a st' [= <- <-]. apply appends_refl. Qed.

Lemma appending_die_unless b e : appending (die_unless b e).
Proof. destruct b; [apply appending_ret|apply appending_raise]. Qed.

Lemma appending_lift_result {A} (r : result A) : appending (lift_result r).
Proof. intros st a st' [= -> <-]. apply appends_refl. Qed.

Lemma appending_lift_typistry {A} (f : T → result A * T) :
  appending (lift_typistry f).
Proof.
  intros st a st'. unfold lift_typistry.
  destruct (f (typistry st)) as [r t]. intros [= -> <-].
  appends_same.
Qed.

Lemma appending_get_next_pep_hint_placeholder :
  appending get_next_pep_hint_placeholder.
Proof.
  intros st a st' [= <- <-]. appends_same.
Qed.

Lemma appending_put_childs nonpep pep : appending (put_childs nonpep pep).
Proof.
  intros st a st' [= <- <-]. appends_same.
Qed.

Lemma appending_need_random_int : appending need_random_int.
Proof.
  intros st a st' [= <- <-]. appends_same.
Qed.

Lemma appending_enqueue meta : appending (enqueue meta).
Proof.
  intros st a st'. unfold enqueue.
  destruct (decide (S (hints_meta_index_last st) < length (hints_meta st)))
    as [Hlt|]; [|done].
  intros [= <- <-]. unfold appends. simpl. rewrite length_insert.
  repeat split; try (done || lia).
  - intros i Hi. apply list_lookup_insert_ne. lia.
  - intros i Hi. exists meta.
    replace i with (S (hints_meta_index_last st)) by lia.
    by apply list_lookup_insert_eq.
Qed.

Lemma appending_union_enqueue childs pith indent_child code :
  appending (union_enqueue childs pith indent_child code).
Proof.
  revert code. induction childs as [|c childs IH]; intros code; simpl.
  - apply appending_ret.
  - apply appending_bind; [apply appending_get_next_pep_hint_placeholder|].
    intros ph. apply appending_bind; [apply appending_enqueue|].
    intros _. apply IH.
Qed.

Create HintDb appending.
#[local] Hint Resolve appending_ret appending_raise appending_gets
  appending_die_unless appending_lift_result appending_lift_typistry
  appending_get_next_pep_hint_placeholder appending_put_childs
  appending_need_random_int appending_enqueue appending_union_enqueue
  : appending.

Ltac appending_step :=
  first
    [ apply appending_bind; [|intros ?]
    | match goal with
      | |- appending (match ?x with _ => _ end) => destruct x
      | |- appending (py_assert _) => apply appending_die_unless
      end
    | solve [auto with appending] ].

Lemma appending_visit_hint label meta : appending (visit_hint label meta).
Proof.
  unfold visit_hint, visit_union, visit_union_childs, visit_sequence,
    visit_fallback, visit_class.
  repeat appending_step.
Qed.

(** The shape of the work list during the search: it has [SIZE_BIG] slots,
    those from the current index to the last index hold the metadata of the
    hints still to visit, and every other slot is empty. *)
Definition well_formed (st : state) : Prop :=
  in_capacity st ∧
  ∀ i, i < SIZE_BIG →
    if decide (hints_meta_index_curr st ≤ i ≤ hints_meta_index_last st)
    then ∃ m, hints_meta st !! i = Some (Some m)
    else hints_meta st !! i = Some None.

Lemma well_formed_init data ty hint_root st0 :
  init data ty hint_root = (Ok tt, st0) → well_formed st0.
Proof.
  unfold init. destruct (decide (0 < SIZE_BIG)) as [Hpos|]; [|done].
  intros [= <-]. split.
  - split; simpl; [|done]. by rewrite length_insert, length_replicate.
  - intros i Hi. simpl. destruct (decide (0 ≤ i ≤ 0)) as [Hi0|Hi0].
    + replace i with 0 by lia. eexists. apply list_lookup_insert_eq.
      by rewrite length_replicate.
    + rewrite list_lookup_insert_ne by lia. by apply lookup_replicate_2.
Qed.

Lemma well_formed_visit label st st' :
  hints_meta_index_curr st ≤ hints_meta_index_last st →
  visit label st = (Ok tt, st') → well_formed st → well_formed st'.
Proof.
  intros Hle Hvisit [Hin Hslots].
  destruct (visit_ok_in_capacity _ _ _ Hvisit Hin) as [Hin' Hcurr'].
  split; [done|]. revert Hvisit.
  unfold visit, bind at 1, gets at 1, bind at 1, gets at 1.
  destruct (hints_meta st !! hints_meta_index_curr st) as [[m|]|]; [|done..].
  unfold bind.
  destruct (visit_hint label m st) as [[code|e] st1] eqn:E; [|done].
  intros [= <-]. simpl in *.
  destruct (appending_visit_hint label m _ _ _ E)
    as (Hlen & Hc & Hlast & Hold & Hnew & _).
  destruct Hin as [Hsize Hcap]. destruct Hin' as [Hsize' Hcap'].
  simpl in *. intros i Hi. rewrite Hc.
  assert (Hmid : hints_meta_index_curr st ≤ i ≤ hints_meta_index_last st →
                 ∃ m, hints_meta st !! i = Some (Some m)).
  { intros Hmid. specialize (Hslots i Hi). by rewrite decide_True in Hslots. }
  assert (Hout : ¬ hints_meta_index_curr st ≤ i ≤ hints_meta_index_last st →
                 hints_meta st !! i = Some None).
  { intros Hout. specialize (Hslots i Hi). by rewrite decide_False in Hslots. }
  clear Hslots.
  destruct (decide (i = hints_meta_index_curr st)) as [->|Hne].
  - rewrite decide_False by lia.
    apply list_lookup_insert_eq. rewrite Hlen, Hsize. lia.
  - rewrite list_lookup_insert_ne by done.
    destruct (decide (hints_meta_index_curr st ≤ i ≤ hints_meta_index_last st))
      as [Hi1|Hi1].
    + rewrite decide_True by lia. rewrite Hold by lia. by apply Hmid.
    + destruct (decide (i ≤ hints_meta_index_last st1)) as [Hlow|Hhigh].
      * destruct (decide (hints_meta_index_last st < i)) as [Hnew'|Hold'].
        -- rewrite decide_True by lia. apply Hnew. lia.
        -- rewrite decide_False by lia. rewrite Hold by lia. by apply Hout.
      * rewrite decide_False by lia. rewrite Hold by lia. by apply Hout.
Qed.

Lemma well_formed_reaches label st0 st :
  reaches label st0 st → well_formed st0 → well_formed st.
Proof.
  induction 1 as [st|st st1 st2 Hle Hvisit _ IH]; [done|].
  intros Hwf. apply IH. by eapply well_formed_visit.
Qed.

(** X13.  Throughout the search the work list keeps its shape.  So the metadata
    read at the current index are always there, every hint enqueued is
    visited once, and when the loop ends (the current index has passed the
    last one) every slot is empty again. *)
Theorem work_list_well_formed
    (data : BeartypeData hint) (ty : T) (hint_root : hint) (label : string)
    (st0 st : state) :
  init data ty hint_root = (Ok tt, st0) →
  reaches label st0 st →
  well_formed st ∧
  (hints_meta_index_curr st ≤ hints_meta_index_last st →
   ∃ m, hints_meta st !! hints_meta_index_curr st = Some (Some m)) ∧
  (hints_meta_index_last st < hints_meta_index_curr st →
   hints_meta st = replicate SIZE_BIG None).
Proof.
  intros Hinit Hreach.
  assert (Hwf : well_formed st).
  { eapply well_formed_reaches; [done|]. by eapply well_formed_init. }
  split; [done|]. destruct Hwf as [[Hsize Hcap] Hslots]. split.
  - intros Hle. specialize (Hslots (hints_meta_index_curr st)).
    rewrite decide_True in Hslots by lia. apply Hslots. lia.
  - intros Hdone. apply list_eq. intros i.
    destruct (decide (i < SIZE_BIG)) as [Hi|Hi].
    + specialize (Hslots i Hi). rewrite decide_False in Hslots by lia.
      rewrite Hslots. symmetry. by apply lookup_replicate_2.
    + rewrite !lookup_ge_None_2; [done|rewrite length_replicate; lia|lia].
Qed.

(** How a search that finished got there. *)
Lemma search_outcome fuel label st0 r st' :
  search fuel label st0 = Some (r, st') →
  match r with
  | Ok _ =>
      reaches label st0 st' ∧
      hints_meta_index_last st' < hints_meta_index_curr st'
  | Raise e =>
      ∃ st, reaches label st0 st ∧
        hints_meta_index_curr st ≤ hints_meta_index_last st ∧
        visit label st = (Raise e, st')
  end.
Proof.
  revert st0. induction fuel as [|fuel IH]; intros st0; simpl.
  - destruct (decide _) as [Hle|Hgt]; [done|]. intros [= <- <-].
    split; [constructor|lia].
  - destruct (decide _) as [Hle|Hgt].
    + destruct (visit label st0) as [[[]|e] st1] eqn:Hvisit.
      * intros Hs. apply IH in Hs. destruct r as [[]|e].
        -- destruct Hs as [Hreach Hdone]. split; [|done].
           by eapply reaches_step.
        -- destruct Hs as (st & Hreach & Hs). exists st. split; [|done].
           by eapply reaches_step.
      * intros [= <- <-]. exists st0. split; [constructor|done].
    + intros [= <- <-]. split; [constructor|lia].
Qed.

(** An exception raised while visiting a hint the search gets to is the
    outcome of the whole call. *)
Lemma visit_raise_propagates data ty hint_root st0 st e st' :
  init data ty hint_root = (Ok tt, st0) →
  reaches (hint_root_label_of hint_root) st0 st →
  hints_meta_index_curr st ≤ hints_meta_index_last st →
  visit (hint_root_label_of hint_root) st = (Raise e, st') →
  pep_code_check_hint data ty hint_root = Some (Raise e, st').
Proof.
  intros Hinit Hreach Hle Hvisit.
  destruct (pep_code_check_hint_total data ty hint_root) as [r Hr].
  rewrite Hr. unfold pep_code_check_hint in Hr. rewrite Hinit in Hr.
  destruct (search SIZE_BIG _ st0) as [r0|] eqn:Hsearch; [|done].
  destruct (search_reaches _ st0 st Hreach _ _ Hsearch) as [fuel' Hs'].
  destruct fuel' as [|fuel']; simpl in Hs'.
  { by destruct (decide _). }
  destruct (decide _); [|done]. rewrite Hvisit in Hs'.
  injection Hs' as <-. by injection Hr as <-.
Qed.

(** X14.  A hint that cannot be checked stops the whole call, however deep in the
    root hint it sits: when the search gets to a hint that is neither
    PEP-compliant nor a class, the call raises the exception naming that
    hint, and when it gets to a PEP-compliant hint that is not supported, it
    raises [BeartypeDecorHintPepUnsupportedException]; the state is the one
    in which the hint was reached. *)
Theorem unusable_hint_raises
    (data : BeartypeData hint) (ty : T) (hint_root : hint)
    (st0 st : state) (m : hint_meta) :
  init data ty hint_root = (Ok tt, st0) →
  reaches (hint_root_label_of hint_root) st0 st →
  hints_meta_index_curr st ≤ hints_meta_index_last st →
  hints_meta st !! hints_meta_index_curr st = Some (Some m) →
  (is_hint_pep (meta_hint m) = false → hint_is_type (meta_hint m) = false →
   pep_code_check_hint data ty hint_root =
     Some (Raise (BeartypeDecorHintPepException
                    (not_pep_message
                       (hint_root_label_of hint_root +:+ " child")
                       (meta_hint m))), st)) ∧
  (is_hint_pep (meta_hint m) = true →
   is_hint_pep_supported (meta_hint m) = false →
   pep_code_check_hint data ty hint_root =
     Some (Raise BeartypeDecorHintPepUnsupportedException, st)).
Proof.
  intros Hinit Hreach Hle Hm. split.
  - intros Hp Ht. eapply visit_raise_propagates; try done.
    unfold visit, bind at 1, gets at 1, bind at 1, gets at 1. rewrite Hm.
    unfold bind, visit_hint. by rewrite Hp, Ht.
  - intros Hp Hs. eapply visit_raise_propagates; try done.
    unfold visit, bind at 1, gets at 1, bind at 1, gets at 1. rewrite Hm.
    unfold bind, visit_hint. by rewrite Hp, Hs.
Qed.

(** A computation that does not raise [IndexError] when the work list is
    within its capacity. *)
Definition safe {A} (m : M A) : Prop :=
  ∀ st, in_capacity st → (m st).1 ≠ Raise IndexError.

Lemma safe_ret {A} (a : A) : safe (ret a).
Proof. by intros st _. Qed.

Lemma safe_raise {A} (e : exn) : e ≠ IndexError → safe (raise (A:=A) e).
Proof. intros He st _. simpl. by intros [= ->]. Qed.

Lemma safe_bind {A B} (m : M A) (k : A → M B) :
  safe m → steady m → (∀ a, safe (k a)) → safe (bind m k).
Proof.
  intros Hm Hs Hk st Hin. unfold bind. specialize (Hm st Hin). revert Hm.
  destruct (m st) as [[a|e] st1] eqn:E.
  - intros _. apply Hk. by destruct (Hs _ _ _ E Hin).
  - simpl. intros Hm [= ->]. done.
Qed.

Lemma safe_gets {A} (f : state → A) : safe (gets f).
Proof. by intros st _. Qed.

Lemma safe_modify f : safe (modify f).
Proof. by intros st _. Qed.

Lemma safe_die_unless b e : e ≠ IndexError → safe (die_unless b e).
Proof. intros He. destruct b; [apply safe_ret|by apply safe_raise]. Qed.

Lemma safe_lift_result {A} (r : result A) :
  r ≠ Raise IndexError → safe (lift_result r).
Proof. by intros Hr st _. Qed.

Lemma safe_lift_typistry {A} (f : T → result A * T) :
  (∀ t, (f t).1 ≠ Raise IndexError) → safe (lift_typistry f).
Proof.
  intros Hf st _. unfold lift_typistry. specialize (Hf (typistry st)).
  by destruct (f (typistry st)).
Qed.

Lemma safe_get_next_pep_hint_placeholder : safe get_next_pep_hint_placeholder.
Proof. by intros st _. Qed.

(** Lines 1100-1167: the children of a union are enqueued only after the
    test that they fit. *)
Lemma safe_union_block label pep pith ic code :
  safe (bind (gets hints_meta_index_last) (λ last,
          if decide (SIZE_BIG ≤ last + length pep) then
            raise (capacity_error label)
          else union_enqueue (set_iter pep) pith ic code)).
Proof.
  intros st [Hsize Hcap]. unfold bind, gets.
  destruct (decide _) as [Hbig|Hfits]; [done|].
  rewrite union_enqueue_ok; [done|].
  rewrite (set_iter_perm pep). lia.
Qed.

(** Lines 1244-1276: the child of a sequence likewise. *)
Lemma safe_sequence_block label (meta : string → hint_meta)
    (code : string → string) :
  safe (bind (gets hints_meta_index_last) (λ last,
          if decide (SIZE_BIG ≤ last + 1) then raise (capacity_error label)
          else
            bind get_next_pep_hint_placeholder (λ hint_child_placeholder,
            bind (enqueue (meta hint_child_placeholder)) (λ _,
            ret (code hint_child_placeholder))))).
Proof.
  intros st [Hsize Hcap]. unfold bind, gets.
  destruct (decide _) as [Hbig|Hfits]; [done|].
  unfold get_next_pep_hint_placeholder, enqueue. simpl.
  destruct (decide _) as [Hlt|Hge]; [done|]. lia.
Qed.

Section safe_imports.
(** The functions imported from the rest of the repository do not themselves
    raise [IndexError]. *)
Hypothesis get_hint_type_origin_safe :
  ∀ a, get_hint_type_origin a ≠ Raise IndexError.
Hypothesis register_typistry_type_safe :
  ∀ h t, (register_typistry_type h t).1 ≠ Raise IndexError.
Hypothesis register_typistry_tuple_safe :
  ∀ l b t, (register_typistry_tuple l b t).1 ≠ Raise IndexError.

Ltac safe_step :=
  first
    [ apply safe_union_block
    | apply safe_sequence_block
    | apply safe_bind; [|solve [repeat steady_step]|intros ?]
    | match goal with
      | |- safe (match ?x with _ => _ end) => destruct x
      | |- safe (if ?x then _ else _) => destruct x
      | |- safe (py_assert _) => apply safe_die_unless; discriminate
      | |- safe (die_unless _ _) => apply safe_die_unless; discriminate
      | |- safe (raise _) => apply safe_raise; discriminate
      | |- safe (lift_result _) =>
          apply safe_lift_result; apply get_hint_type_origin_safe
      | |- safe (lift_typistry (register_typistry_type _)) =>
          apply safe_lift_typistry; intros ?;
          apply register_typistry_type_safe
      | |- safe (lift_typistry (register_typistry_tuple _ _)) =>
          apply safe_lift_typistry; intros ?;
          apply register_typistry_tuple_safe
      | |- safe (put_childs _ _) => apply safe_modify
      | |- safe need_random_int => apply safe_modify
      | |- safe (ret _) => apply safe_ret
      | |- safe (gets _) => apply safe_gets
      end ].

Lemma safe_visit_hint label meta : safe (visit_hint label meta).
Proof.
  unfold visit_hint, visit_union, visit_union_childs, visit_sequence,
    visit_fallback, visit_class.
  repeat safe_step.
Qed.

(** X15.  The fixed-size work list is never indexed out of range: provided it has
    at least one slot and the imported functions do not themselves raise
    [IndexError], [pep_code_check_hint] never raises it, since every write
    comes after the capacity test and every read hits a filled slot. *)
Theorem pep_code_check_hint_no_IndexError
    (data : BeartypeData hint) (ty : T) (hint_root : hint) (st' : state) :
  0 < SIZE_BIG →
  pep_code_check_hint data ty hint_root ≠ Some (Raise IndexError, st').
Proof.
  intros Hpos Hcall. unfold pep_code_check_hint in Hcall.
  destruct (init data ty hint_root) as [[[]|e0] st0] eqn:Hinit.
  2:{ unfold init in Hinit. by destruct (decide (0 < SIZE_BIG)). }
  destruct (search SIZE_BIG _ st0) as [[[[]|e] st1]|] eqn:Hsearch; [| |done].
  { by destruct (decide _). }
  injection Hcall as -> ->.
  apply search_outcome in Hsearch as (st & Hreach & Hle & Hvisit).
  assert (Hwf : well_formed st).
  { eapply well_formed_reaches; [done|]. by eapply well_formed_init. }
  destruct Hwf as [Hin Hslots].
  specialize (Hslots (hints_meta_index_curr st)).
  rewrite decide_True in Hslots by lia.
  destruct Hslots as [m Hm]; [destruct Hin; lia|].
  revert Hvisit.
  unfold visit, bind at 1, gets at 1, bind at 1, gets at 1. rewrite Hm.
  unfold bind. pose proof (safe_visit_hint (hint_root_label_of hint_root) m
                             st Hin) as Hsafe.
  destruct (visit_hint _ m st) as [[code|e] st2]; [done|].
  intros [= -> _]. done.
Qed.
End safe_imports.

(** A search that gets to a state in which the current index has passed the
    last one ends there. *)
Lemma search_finishes data ty hint_root label st0 st :
  init data ty hint_root = (Ok tt, st0) →
  reaches label st0 st →
  hints_meta_index_last st < hints_meta_index_curr st →
  search SIZE_BIG label st0 = Some (Ok tt, st).
Proof.
  intros Hinit Hreach Hdone.
  destruct (well_formed_init _ _ _ _ Hinit) as [Hin _].
  destruct (search_enough_fuel SIZE_BIG label st0 Hin) as [r Hr]; [lia|].
  rewrite Hr. destruct (search_reaches _ _ _ Hreach _ _ Hr) as [fuel' Hs].
  destruct fuel'; simpl in Hs; (destruct (decide _); [lia|]); congruence.
Qed.

(** The root hint is a supported standard sequence (say [List[int]]) whose
    one argument is a class. *)
Definition sequence_of_class (hint_root hint_child origin : hint) : Prop :=
  let a := get_hint_pep_typing_attr hint_root in
  is_hint_pep hint_root = true ∧ is_hint_pep_supported hint_root = true ∧
  hint_ignorable hint_root = false ∧
  is_hint_pep_typing_attr_supported a = true ∧
  attr_is_Union a = false ∧ attr_in_TYPING_ATTRS_SEQUENCE_STANDARD a = true ∧
  attr_in_TYPING_ATTR_TO_TYPE_ORIGIN a = true ∧
  hint_args hint_root = [hint_child] ∧ get_hint_type_origin a = Ok origin ∧
  hint_ignorable hint_child = false ∧ is_hint_pep hint_child = false ∧
  hint_is_type hint_child = true.

(** X16.  The whole call on a standard sequence of a class.  Two hints are
    visited.  The code returned is the root code in which the root
    placeholder is replaced by the code of the sequence, and in that the
    placeholder of the child by the [isinstance] test of the child against
    one item of the pith; the origin type and then the child are registered
    with the beartypistry, two placeholders are used, and the wrapper is
    flagged as needing a random integer. *)
Theorem pep_code_check_hint_sequence_of_class
    (data : BeartypeData hint) (ty ty1 ty2 : T)
    (hint_root hint_child origin : hint) (expr_origin expr_child : string) :
  1 < SIZE_BIG →
  sequence_of_class hint_root hint_child origin →
  register_typistry_type origin ty = (Ok expr_origin, ty1) →
  register_typistry_type hint_child ty1 = (Ok expr_child, ty2) →
  let placeholder_root := pep_hint_placeholder (data_placeholder_id data) in
  let placeholder_child :=
    pep_hint_placeholder (S (data_placeholder_id data)) in
  let pith_child :=
    PEP_CODE_CHECK_HINT_SEQUENCE_STANDARD_PITH_CHILD_EXPR_format
      PEP_CODE_PITH_ROOT_EXPR in
  let func_code :=
    str_replace placeholder_child
      (PEP_CODE_CHECK_HINT_NONPEP_TYPE_format pith_child expr_child)
      (str_replace placeholder_root
         (PEP_CODE_CHECK_HINT_SEQUENCE_STANDARD_format CODE_INDENT_2
            PEP_CODE_PITH_ROOT_EXPR expr_origin placeholder_child)
         (PEP_CODE_CHECK_HINT_ROOT_format placeholder_root)) in
  func_code ≠ PEP_CODE_CHECK_HINT_ROOT_format placeholder_root →
  ∃ st',
    pep_code_check_hint data ty hint_root = Some (Ok func_code, st') ∧
    typistry st' = ty2 ∧
    pep_hint_placeholder_id st' = S (S (data_placeholder_id data)) ∧
    is_func_wrapper_needs_random_int st' = true ∧
    hints_meta st' = replicate SIZE_BIG None.
Proof.
  intros Hbig (Hp & Hs & Hi & Ha & Hu & Hq & Ho & Hargs & Horigin & Hci &
               Hcp & Hct) Hreg1 Hreg2 ph0 ph1 pith_child code Hcode.
  set (label := hint_root_label_of hint_root).
  destruct (init data ty hint_root) as [r0 st0] eqn:Hinit.
  assert (Hst0 : r0 = Ok tt ∧ st0 =
    State (set_a data) (set_b data) (S (data_placeholder_id data))
          (data_needs_random_int data) ty
          (<[0 := Some (HintMeta hint_root ph0 PEP_CODE_PITH_ROOT_EXPR
                                 CODE_INDENT_2)]> (replicate SIZE_BIG None))
          0 0 (PEP_CODE_CHECK_HINT_ROOT_format ph0)).
  { unfold init in Hinit. destruct (decide (0 < SIZE_BIG)); [|lia].
    by injection Hinit as <- <-. }
  destruct Hst0 as [-> Hst0].
  set (m0 := HintMeta hint_root ph0 PEP_CODE_PITH_ROOT_EXPR CODE_INDENT_2)
    in *.
  set (m1 := HintMeta hint_child ph1 pith_child
                      (CODE_INDENT_2 +:+ CODE_INDENT_1)).
  set (st1 :=
    State (set_a data) (set_b data) (S (S (data_placeholder_id data)))
          true ty1
          (<[0 := None]> (<[1 := Some m1]>
             (<[0 := Some m0]> (replicate SIZE_BIG None))))
          1 1
          (str_replace ph0
             (PEP_CODE_CHECK_HINT_SEQUENCE_STANDARD_format CODE_INDENT_2
                PEP_CODE_PITH_ROOT_EXPR expr_origin ph1)
             (PEP_CODE_CHECK_HINT_ROOT_format ph0))).
  set (st2 :=
    State (set_a data) (set_b data) (S (S (data_placeholder_id data)))
          true ty2
          (<[1 := None]> (<[0 := None]> (<[1 := Some m1]>
             (<[0 := Some m0]> (replicate SIZE_BIG None)))))
          2 1 code).
  assert (Hv0 : visit label st0 = (Ok tt, st1)).
  { rewrite Hst0.
    unfold visit, bind at 1, gets at 1, bind at 1, gets at 1.
    cbn [hints_meta hints_meta_index_curr].
    rewrite list_lookup_insert_eq by (rewrite length_replicate; lia).
    unfold bind at 1, visit_hint. cbn [meta_hint m0].
    rewrite Hp, Hs, Hi, Ha, Hu, Hq.
    unfold visit_sequence. cbn [meta_hint m0]. rewrite Ho, Hargs, Horigin, Hci.
    unfold bind, die_unless, py_assert, ret, lift_result, lift_typistry,
      need_random_int, modify, gets, get_next_pep_hint_placeholder, enqueue,
      cleanup.
    cbn. rewrite Hreg1. cbn.
    destruct (decide (SIZE_BIG ≤ 1)) as [|_]; [lia|]. cbn.
    rewrite length_insert, length_replicate.
    destruct (decide (1 < SIZE_BIG)) as [_|]; [|lia].
    reflexivity. }
  assert (Hv1 : visit label st1 = (Ok tt, st2)).
  { unfold visit, bind at 1, gets at 1, bind at 1, gets at 1.
    cbn [hints_meta hints_meta_index_curr st1].
    rewrite list_lookup_insert_ne by lia.
    rewrite list_lookup_insert_eq
      by (rewrite length_insert, length_replicate; lia).
    unfold bind at 1, visit_hint. cbn [meta_hint m1].
    rewrite Hcp, Hct. unfold visit_class. cbn [meta_hint m1].
    unfold bind, ret, lift_typistry, cleanup, modify. cbn.
    rewrite Hreg2. reflexivity. }
  assert (Hreach : reaches label st0 st2).
  { eapply reaches_step; [rewrite Hst0; simpl; lia|exact Hv0|].
    eapply reaches_step; [simpl; lia|exact Hv1|]. constructor. }
  exists st2. split; [|split; [done|split; [done|split; [done|]]]].
  - unfold pep_code_check_hint. rewrite Hinit. fold label.
    rewrite (search_finishes data ty hint_root label st0 st2 Hinit Hreach)
      by (simpl; lia).
    cbn [func_code st2]. fold ph0.
    by destruct (decide (code = PEP_CODE_CHECK_HINT_ROOT_format ph0)).
  - cbn [hints_meta st2]. apply list_eq. intros i.
    destruct (decide (i = 1)) as [->|H1].
    + rewrite list_lookup_insert_eq
        by (rewrite !length_insert, length_replicate; lia).
      symmetry. by apply lookup_replicate_2.
    + rewrite list_lookup_insert_ne by done.
      destruct (decide (i = 0)) as [->|H0].
      * rewrite list_lookup_insert_eq
          by (rewrite !length_insert, length_replicate; lia).
        symmetry. apply lookup_replicate_2. lia.
      * by rewrite !list_lookup_insert_ne by done.
Qed.

(** Placeholders are handed out in the order of the slots: when the counter
    of [data] stood at [id0] at the start, the hint in slot [i] carries the
    placeholder numbered [id0 + i], and the counter is one past the number of
    the last slot. *)
Definition numbered (id0 : nat) (st : state) : Prop :=
  pep_hint_placeholder_id st = S (id0 + hints_meta_index_last st) ∧
  ∀ i m, hints_meta st !! i = Some (Some m) →
         meta_placeholder m = pep_hint_placeholder (id0 + i).

Definition numbering (id0 : nat) {A} (m : M A) : Prop :=
  ∀ st a st', m st = (Ok a, st') → numbered id0 st → numbered id0 st'.

Lemma numbering_ret id0 {A} (a : A) : numbering id0 (ret a).
Proof. by intros st a' st' [= <- <-]. Qed.

Lemma numbering_raise id0 {A} (e : exn) : numbering id0 (raise (A:=A) e).
Proof. by intros st a' st' [=]. Qed.

Lemma numbering_bind id0 {A B} (m : M A) (k : A → M B) :
  numbering id0 m → (∀ a, numbering id0 (k a)) → numbering id0 (bind m k).
Proof.
  intros Hm Hk st b st'. unfold bind.
  destruct (m st) as [[a|e] st1] eqn:E; [|done].
  intros Hka Hn. eapply Hk; [done|]. by eapply Hm.
Qed.

Lemma numbering_gets id0 {A} (f : state → A) : numbering id0 (gets f).
Proof. by intros st a st' [= <- <-]. Qed.

Lemma numbering_die_unless id0 b e : numbering id0 (die_unless b e).
Proof. destruct b; [apply numbering_ret|apply numbering_raise]. Qed.

Lemma numbering_lift_result id0 {A} (r : result A) :
  numbering id0 (lift_result r).
Proof. by intros st a st' [= -> <-]. Qed.

Lemma numbering_lift_typistry id0 {A} (f : T → result A * T) :
  numbering id0 (lift_typistry f).
Proof.
  intros st a st'. unfold lift_typistry.
  destruct (f (typistry st)) as [r t]. by intros [= -> <-].
Qed.

Lemma numbering_put_childs id0 nonpep pep :
  numbering id0 (put_childs nonpep pep).
Proof. by intros st a st' [= <- <-]. Qed.

Lemma numbering_need_random_int id0 : numbering id0 need_random_int.
Proof. by intros st a st' [= <- <-]. Qed.

(** Lines 1110-1130 and 1252-1264: a placeholder is drawn and the metadata
    carrying it are enqueued, always as a pair. *)
Lemma numbering_enqueue_next id0 {A} (meta : string → hint_meta)
    (k : string → M A) :
  (∀ ph, meta_placeholder (meta ph) = ph) →
  (∀ ph, numbering id0 (k ph)) →
  numbering id0
    (bind get_next_pep_hint_placeholder (λ hint_child_placeholder,
     bind (enqueue (meta hint_child_placeholder)) (λ _,
     k hint_child_placeholder))).
Proof.
  intros Hmeta Hk st a st'.
  unfold bind at 1, get_next_pep_hint_placeholder at 1.
  unfold bind at 1, enqueue at 1. cbn.
  destruct (decide (S (hints_meta_index_last st) < length (hints_meta st)))
    as [Hlt|]; [|done].
  intros Hka [Hid Hslots]. eapply Hk; [exact Hka|]. split; cbn.
  - rewrite Hid. lia.
  - intros i m.
    destruct (decide (i = S (hints_meta_index_last st))) as [->|Hne].
    + rewrite list_lookup_insert_eq by done. intros [= <-].
      rewrite Hmeta, Hid. f_equal. lia.
    + rewrite list_lookup_insert_ne by done. apply Hslots.
Qed.

Lemma numbering_union_enqueue id0 childs pith indent_child code :
  numbering id0 (union_enqueue childs pith indent_child code).
Proof.
  revert code. induction childs as [|c childs IH]; intros code; simpl.
  - apply numbering_ret.
  - apply (numbering_enqueue_next id0
             (λ ph, HintMeta c ph pith indent_child)
             (λ ph, union_enqueue childs pith indent_child
                      (code +:+ PEP_CODE_CHECK_HINT_UNION_ARG_PEP_format ph)));
      [done|]. intros ph. apply IH.
Qed.

Ltac numbering_step :=
  first
    [ apply numbering_union_enqueue
    | apply numbering_enqueue_next; [reflexivity|intros ?]
    | apply numbering_bind; [|intros ?]
    | match goal with
      | |- numbering _ (match ?x with _ => _ end) => destruct x
      | |- numbering _ (if ?x then _ else _) => destruct x
      | |- numbering _ (py_assert _) => apply numbering_die_unless
      | |- numbering _ (die_unless _ _) => apply numbering_die_unless
      | |- numbering _ (raise _) => apply numbering_raise
      | |- numbering _ (lift_result _) => apply numbering_lift_result
      | |- numbering _ (lift_typistry _) => apply numbering_lift_typistry
      | |- numbering _ (put_childs _ _) => apply numbering_put_childs
      | |- numbering _ need_random_int => apply numbering_need_random_int
      | |- numbering _ (ret _) => apply numbering_ret
      | |- numbering _ (gets _) => apply numbering_gets
      end ].

Lemma numbering_visit_hint id0 label meta :
  numbering id0 (visit_hint label meta).
Proof.
  unfold visit_hint, visit_union, visit_union_childs, visit_sequence,
    visit_fallback, visit_class.
  repeat numbering_step.
Qed.

Lemma numbered_visit id0 label st st' :
  visit label st = (Ok tt, st') → numbered id0 st → numbered id0 st'.
Proof.
  unfold visit, bind at 1, gets at 1, bind at 1, gets at 1.
  destruct (hints_meta st !! hints_meta_index_curr st) as [[m|]|]; [|done..].
  unfold bind.
  destruct (visit_hint label m st) as [[code|e] st1] eqn:E; [|done].
  intros [= <-] Hn.
  destruct (numbering_visit_hint id0 label m _ _ _ E Hn) as [Hid Hslots].
  split; cbn; [done|]. intros i m'.
  destruct (decide (i = hints_meta_index_curr st1)) as [->|Hne].
  - destruct (decide (hints_meta_index_curr st1 < length (hints_meta st1))).
    + by rewrite list_lookup_insert_eq.
    + rewrite list_insert_ge by lia. apply Hslots.
  - rewrite list_lookup_insert_ne by done. apply Hslots.
Qed.

(** X17.  Every hint the search enqueues gets a placeholder of its own: the hint
    in slot [i] carries the placeholder numbered [id0 + i], where [id0] is
    where the counter of [data] stood at the start, and the counter stays one
    past the number of the last slot.  When distinct numbers give distinct
    placeholders, no two hints on the work list share a placeholder. *)
Theorem placeholders_follow_slots
    (data : BeartypeData hint) (ty : T) (hint_root : hint) (label : string)
    (st0 st : state) :
  init data ty hint_root = (Ok tt, st0) →
  reaches label st0 st →
  numbered (data_placeholder_id data) st ∧
  (Inj (=) (=) pep_hint_placeholder →
   ∀ i j mi mj,
     hints_meta st !! i = Some (Some mi) →
     hints_meta st !! j = Some (Some mj) →
     meta_placeholder mi = meta_placeholder mj → i = j).
Proof.
  intros Hinit Hreach.
  assert (Hn : numbered (data_placeholder_id data) st).
  { assert (Hn0 : numbered (data_placeholder_id data) st0).
    { unfold init in Hinit. destruct (decide (0 < SIZE_BIG)); [|done].
      injection Hinit as <-. split; cbn; [lia|]. intros i m.
      destruct (decide (i = 0)) as [->|Hne].
      - rewrite list_lookup_insert_eq by (by rewrite length_replicate).
        intros [= <-]. cbn. f_equal. lia.
      - rewrite list_lookup_insert_ne by done.
        intros Hl. apply lookup_replicate_1 in Hl as [? _]. done. }
    clear Hinit. induction Hreach as [st|st st1 st2 Hle Hvisit _ IH];
      [done|].
    apply IH. by eapply numbered_visit. }
  split; [done|]. intros Hinj i j mi mj Hi Hj Heq.
  destruct Hn as [_ Hslots].
  rewrite (Hslots i mi Hi), (Hslots j mj Hj) in Heq.
  apply Hinj in Heq. lia.
Qed.

(** X18.  A union none of whose arguments is PEP-compliant (say [Union[int, str]])
    costs one shallow test and no further visit: the code is the prefix, one
    [isinstance] test against the registered tuple of exactly the plain
    children, and the suffix; nothing is enqueued and no placeholder is
    drawn. *)
Theorem union_of_plain_children
    (label : string) (m : hint_meta) (st : state) (plain : hint)
    (expr : string) (ty' : T) :
  visits_union m →
  plain_child (meta_hint m) plain →
  (∀ c, ¬ compound_child (meta_hint m) c) →
  let sets := union_filter (hint_args (meta_hint m)) in
  register_typistry_tuple (set_iter sets.1) true (typistry st) = (Ok expr, ty') →
  PEP_CODE_CHECK_HINT_UNION_ARG_NONPEP_format (meta_pith_expr m) expr ≠ "" →
  visit_hint label m st =
    (Ok (format_indent_curr
           (str_drop_last 3
              (PEP_CODE_CHECK_HINT_UNION_PREFIX +:+
               PEP_CODE_CHECK_HINT_UNION_ARG_NONPEP_format
                 (meta_pith_expr m) expr) +:+
            PEP_CODE_CHECK_HINT_UNION_SUFFIX)
           (meta_indent m)),
     State sets.1 [] (pep_hint_placeholder_id st)
           (is_func_wrapper_needs_random_int st) ty' (hints_meta st)
           (hints_meta_index_curr st) (hints_meta_index_last st)
           (func_code st)) ∧
  (∀ c, c ∈ set_iter sets.1 ↔ plain_child (meta_hint m) c).
Proof.
  intros Hv Hplain Hnone sets Hreg Hne.
  assert (H2 : sets.2 = []).
  { apply elem_of_nil_inv. intros c Hc.
    apply union_filter_compound in Hc. by apply (Hnone c). }
  assert (H1 : sets.1 ≠ []).
  { intros E. apply union_filter_plain in Hplain. fold sets in Hplain.
    rewrite E in Hplain. by apply elem_of_nil in Hplain. }
  split.
  - rewrite visit_hint_union by done.
    rewrite visit_union_start by apply Hv. fold sets. rewrite H2.
    unfold visit_union_childs.
    destruct sets.1 as [|n0 nonpep] eqn:E1; [done|].
    unfold bind at 1. unfold bind at 1, lift_typistry.
    cbn [typistry]. rewrite Hreg. unfold bind, ret. cbn.
    destruct (decide _) as [Heq|_]; [|done].
    exfalso. apply (str_app_ne_prefix PEP_CODE_CHECK_HINT_UNION_PREFIX
      (PEP_CODE_CHECK_HINT_UNION_ARG_NONPEP_format (meta_pith_expr m) expr)
      ""); [done|]. by rewrite str_app_nil_r.
  - intros c. rewrite (set_iter_perm sets.1).
    unfold sets. rewrite union_filter_shallow. split; [|by left].
    intros [Hc|(child & Hchild & _)]; [done|]. by destruct (Hnone child).
Qed.

End pep_code_check_hint.

(** *** A concrete universe of hints, for the examples *)

Inductive xhint : Type :=
| H_int | H_str | H_list          (* the builtin classes int, str, list *)
| H_Any | H_object                (* typing.Any and object, both ignorable *)
| H_class (i : nat)               (* a user-defined class *)
| H_List (arg : xhint)            (* typing.List[arg] *)
| H_Union2 (a b : xhint)          (* typing.Union[a, b] *)
| H_Union3 (a b c : xhint)        (* typing.Union[a, b, c] *)
| H_UnionLists (n : nat)          (* typing.Union of n distinct List[class] *)
| H_junk.                         (* neither a typing object nor a class *)

Inductive xattr : Type := A_Union | A_List | A_Any.

#[export] Instance xhint_eq_dec : EqDecision xhint.
Proof. solve_decision. Defined.

Definition x_is_pep (h : xhint) : bool :=
  match h with
  | H_Any | H_List _ | H_Union2 _ _ | H_Union3 _ _ _ | H_UnionLists _ => true
  | _ => false
  end.

Definition x_attr (h : xhint) : xattr :=
  match h with
  | H_List _ => A_List
  | H_Union2 _ _ | H_Union3 _ _ _ | H_UnionLists _ => A_Union
  | _ => A_Any
  end.

Definition x_args (h : xhint) : list xhint :=
  match h with
  | H_List a => [a]
  | H_Union2 a b => [a; b]
  | H_Union3 a b c => [a; b; c]
  | H_UnionLists n => map (λ i, H_List (H_class i)) (seq 0 n)
  | _ => []
  end.

Fixpoint x_repr (h : xhint) : string :=
  match h with
  | H_int => "int" | H_str => "str" | H_list => "list"
  | H_Any => "typing.Any" | H_object => "object"
  | H_class i => "C" +:+ pretty i
  | H_List a => "typing.List[" +:+ x_repr a +:+ "]"
  | H_Union2 a b => "typing.Union[" +:+ x_repr a +:+ ", " +:+ x_repr b +:+ "]"
  | H_Union3 a b c =>
      "typing.Union[" +:+ x_repr a +:+ ", " +:+ x_repr b +:+ ", " +:+
      x_repr c +:+ "]"
  | H_UnionLists _ => "typing.Union[typing.List[C0], ...]"
  | H_junk => "junk"
  end.

(** The beartypistry is the list of the tuples registered so far; a class
    is referred to by its [repr]. *)
#[local] Instance x_hint_imports : HintImports xhint xattr (list (list xhint)) := {|
  is_hint_pep := x_is_pep;
  hint_ignorable h :=
    match h with
    | H_Any | H_object | H_Union2 H_Any H_object => true
    | _ => false
    end;
  is_hint_pep_supported _ := true;
  get_hint_pep_typing_attr := x_attr;
  is_hint_pep_typing_attr_supported _ := true;
  attr_is_Union a := match a with A_Union => true | _ => false end;
  attr_in_TYPING_ATTRS_SEQUENCE_STANDARD a :=
    match a with A_List => true | _ => false end;
  attr_in_TYPING_ATTR_TO_TYPE_ORIGIN a :=
    match a with A_List => true | _ => false end;
  get_hint_type_origin_or_none a :=
    match a with A_List => Some H_list | _ => None end;
  get_hint_type_origin a :=
    match a with
    | A_List => Ok H_list
    | _ => Raise BeartypeDecorHintPepUnsupportedException
    end;
  hint_args := x_args;
  hint_is_type h :=
    match h with
    | H_int | H_str | H_list | H_object | H_class _ => true
    | _ => false
    end;
  hint_repr := x_repr;
  register_typistry_type h ty := (Ok (x_repr h), ty);
  register_typistry_tuple items _ ty :=
    (Ok ("__beartypistry[tuple" +:+ pretty (length ty) +:+ "]"), ty ++ [items]);
  set_iter s := s;
  set_iter_perm s := reflexivity s;
  pep_hint_placeholder n := "@{" +:+ pretty n +:+ "}!";
  SIZE_BIG := 256;
  EXCEPTION_CACHED_PLACEHOLDER := "$%ROOT_PITH_LABEL/~";
  CODE_INDENT_1 := "    ";
  CODE_INDENT_2 := "        ";
  PEP_CODE_PITH_ROOT_EXPR := "__beartype_pith_root";
  PEP_CODE_CHECK_HINT_ROOT_format ph := "if not " +:+ ph +:+ ": raise";
  PEP_CODE_CHECK_HINT_NONPEP_TYPE_format pith expr :=
    "isinstance(" +:+ pith +:+ ", " +:+ expr +:+ ")";
  PEP_CODE_CHECK_HINT_SEQUENCE_STANDARD_format _ pith expr ph :=
    "(isinstance(" +:+ pith +:+ ", " +:+ expr +:+ ") and " +:+ ph +:+ ")";
  PEP_CODE_CHECK_HINT_SEQUENCE_STANDARD_PITH_CHILD_EXPR_format pith :=
    pith +:+ "[__beartype_random_int % len(" +:+ pith +:+ ")]";
  PEP_CODE_CHECK_HINT_UNION_PREFIX := "(";
  PEP_CODE_CHECK_HINT_UNION_SUFFIX := ")";
  PEP_CODE_CHECK_HINT_UNION_ARG_PEP_format ph := " " +:+ ph +:+ " or";
  PEP_CODE_CHECK_HINT_UNION_ARG_NONPEP_format pith expr :=
    " isinstance(" +:+ pith +:+ ", " +:+ expr +:+ ") or";
  format_indent_curr code indent := str_replace "{indent_curr}" indent code;
|}.

Definition x_data : BeartypeData xhint := Data [] [] 0 false.

(** The state in which the search for the given root hint starts. *)
Definition x_start (root : xhint) : state xhint (list (list xhint)) :=
  (init x_data [] root).2.

Definition x_root_meta (root : xhint) : hint_meta xhint :=
  HintMeta root "@{0}!" "__beartype_pith_root" "        ".

(** [Union[int, str, List[int]]]: two plain children, one compound child. *)
Definition x_mixed : xhint := H_Union3 H_int H_str (H_List H_int).

(** [Union[Any, object]]: all children ignorable. *)
Definition x_ignorable : xhint := H_Union2 H_Any H_object.

Example pep_code_check_hint_mixed :
  fst <$> pep_code_check_hint x_data [] x_mixed =
  Some (Ok ("if not ( isinstance(__beartype_pith_root, __beartypistry[tuple0])"
            +:+ " or (isinstance(__beartype_pith_root, list) and "
            +:+ "isinstance(__beartype_pith_root"
            +:+ "[__beartype_random_int % len(__beartype_pith_root)], int))"
            +:+ "): raise")).
Proof. by vm_compute. Qed.

(** [Union[int, List[int], List[str]]]: one plain child, two compound
    children. *)
Definition x_two_lists : xhint :=
  H_Union3 H_int (H_List H_int) (H_List H_str).

Lemma union_emits_plain_test_then_placeholders_witness :
  let sets := union_filter (hint_args (meta_hint (x_root_meta x_two_lists))) in
  visits_union (x_root_meta x_two_lists) ∧
  plain_child x_two_lists H_int ∧
  compound_child x_two_lists (H_List H_int) ∧
  register_typistry_tuple (set_iter sets.1) true
    (typistry (x_start x_two_lists)) =
    (Ok "__beartypistry[tuple0]", [[H_int; H_list]]) ∧
  PEP_CODE_CHECK_HINT_UNION_ARG_NONPEP_format
    "__beartype_pith_root" "__beartypistry[tuple0]" ≠ "" ∧
  length (hints_meta (x_start x_two_lists)) = SIZE_BIG ∧
  hints_meta_index_last (x_start x_two_lists) + length (set_iter sets.2)
    < SIZE_BIG ∧
  ∃ st',
    visit_hint "label" (x_root_meta x_two_lists) (x_start x_two_lists) =
      (Ok ("( isinstance(__beartype_pith_root, __beartypistry[tuple0]) or"
           +:+ " @{1}! or @{2}!)"), st') ∧
    typistry st' = [[H_int; H_list]] ∧
    hints_meta_index_last st' = 2 ∧
    hints_meta st' !! 1 =
      Some (Some (HintMeta (H_List H_int) "@{1}!" "__beartype_pith_root"
                           "            ")) ∧
    hints_meta st' !! 2 =
      Some (Some (HintMeta (H_List H_str) "@{2}!" "__beartype_pith_root"
                           "            ")).
Proof.
  intros sets.
  assert (Hv : visits_union (x_root_meta x_two_lists)).
  { by repeat split. }
  assert (Hp : plain_child x_two_lists H_int).
  { split; [|done]. simpl. by left. }
  assert (Hc : compound_child x_two_lists (H_List H_int)).
  { split; [|done]. simpl. by right; left. }
  assert (Hr : register_typistry_tuple (set_iter sets.1) true
                 (typistry (x_start x_two_lists)) =
    (Ok "__beartypistry[tuple0]", [[H_int; H_list]])) by (by vm_compute).
  assert (Hn : PEP_CODE_CHECK_HINT_UNION_ARG_NONPEP_format
    "__beartype_pith_root" "__beartypistry[tuple0]" ≠ "") by discriminate.
  assert (Hl : length (hints_meta (x_start x_two_lists)) = SIZE_BIG)
    by (by vm_compute).
  assert (Hk : hints_meta_index_last (x_start x_two_lists) +
               length (set_iter sets.2) < SIZE_BIG).
  { vm_compute. lia. }
  do 7 (split; [assumption|]).
  destruct (union_emits_plain_test_then_placeholders "label"
    (x_root_meta x_two_lists) (x_start x_two_lists) H_int (H_List H_int)
    "__beartypistry[tuple0]" [[H_int; H_list]] Hv Hp Hc Hr Hn Hl Hk)
    as (st' & Hvisit & Hty & _ & _ & _ & _ & _ & Hlast & Hq).
  exists st'. split.
  { rewrite Hvisit. by vm_compute. }
  split; [exact Hty|]. split.
  { rewrite Hlast. by vm_compute. }
  assert (H0 : set_iter sets.2 !! 0 = Some (H_List H_int)) by (by vm_compute).
  assert (H1 : set_iter sets.2 !! 1 = Some (H_List H_str)) by (by vm_compute).
  split; [exact (proj2 (Hq 0 (H_List H_int) H0))|].
  exact (proj2 (Hq 1 (H_List H_str) H1)).
Defined.

(** The same imports, with sets that yield their items in the reverse of
    the order of insertion. *)
Definition x_hint_imports_reversed
    : HintImports xhint xattr (list (list xhint)) := {|
  is_hint_pep := x_is_pep;
  hint_ignorable := @hint_ignorable _ _ _ x_hint_imports;
  is_hint_pep_supported := @is_hint_pep_supported _ _ _ x_hint_imports;
  get_hint_pep_typing_attr := x_attr;
  is_hint_pep_typing_attr_supported :=
    @is_hint_pep_typing_attr_supported _ _ _ x_hint_imports;
  attr_is_Union := @attr_is_Union _ _ _ x_hint_imports;
  attr_in_TYPING_ATTRS_SEQUENCE_STANDARD :=
    @attr_in_TYPING_ATTRS_SEQUENCE_STANDARD _ _ _ x_hint_imports;
  attr_in_TYPING_ATTR_TO_TYPE_ORIGIN :=
    @attr_in_TYPING_ATTR_TO_TYPE_ORIGIN _ _ _ x_hint_imports;
  get_hint_type_origin_or_none :=
    @get_hint_type_origin_or_none _ _ _ x_hint_imports;
  get_hint_type_origin := @get_hint_type_origin _ _ _ x_hint_imports;
  hint_args := x_args;
  hint_is_type := @hint_is_type _ _ _ x_hint_imports;
  hint_repr := x_repr;
  register_typistry_type := @register_typistry_type _ _ _ x_hint_imports;
  register_typistry_tuple := @register_typistry_tuple _ _ _ x_hint_imports;
  set_iter := reverse;
  set_iter_perm := reverse_Permutation;
  pep_hint_placeholder := @pep_hint_placeholder _ _ _ x_hint_imports;
  SIZE_BIG := @SIZE_BIG _ _ _ x_hint_imports;
  EXCEPTION_CACHED_PLACEHOLDER :=
    @EXCEPTION_CACHED_PLACEHOLDER _ _ _ x_hint_imports;
  CODE_INDENT_1 := @CODE_INDENT_1 _ _ _ x_hint_imports;
  CODE_INDENT_2 := @CODE_INDENT_2 _ _ _ x_hint_imports;
  PEP_CODE_PITH_ROOT_EXPR := @PEP_CODE_PITH_ROOT_EXPR _ _ _ x_hint_imports;
  PEP_CODE_CHECK_HINT_ROOT_format :=
    @PEP_CODE_CHECK_HINT_ROOT_format _ _ _ x_hint_imports;
  PEP_CODE_CHECK_HINT_NONPEP_TYPE_format :=
    @PEP_CODE_CHECK_HINT_NONPEP_TYPE_format _ _ _ x_hint_imports;
  PEP_CODE_CHECK_HINT_SEQUENCE_STANDARD_format :=
    @PEP_CODE_CHECK_HINT_SEQUENCE_STANDARD_format _ _ _ x_hint_imports;
  PEP_CODE_CHECK_HINT_SEQUENCE_STANDARD_PITH_CHILD_EXPR_format :=
    @PEP_CODE_CHECK_HINT_SEQUENCE_STANDARD_PITH_CHILD_EXPR_format _ _ _
      x_hint_imports;
  PEP_CODE_CHECK_HINT_UNION_PREFIX :=
    @PEP_CODE_CHECK_HINT_UNION_PREFIX _ _ _ x_hint_imports;
  PEP_CODE_CHECK_HINT_UNION_SUFFIX :=
    @PEP_CODE_CHECK_HINT_UNION_SUFFIX _ _ _ x_hint_imports;
  PEP_CODE_CHECK_HINT_UNION_ARG_PEP_format :=
    @PEP_CODE_CHECK_HINT_UNION_ARG_PEP_format _ _ _ x_hint_imports;
  PEP_CODE_CHECK_HINT_UNION_ARG_NONPEP_format :=
    @PEP_CODE_CHECK_HINT_UNION_ARG_NONPEP_format _ _ _ x_hint_imports;
  format_indent_curr := @format_indent_curr _ _ _ x_hint_imports;
|}.

(** C2 as stated fails.  With sets that yield their items in another order
    than that of insertion, here the reverse, the union
    [Union[int, List[int], List[str]]] discovers [List[int]] before
    [List[str]], and the first placeholder of its code is that of
    [List[str]].  The registered tuple holds [list], the origin type of the
    compound children, which is not a plain child. *)
Lemma union_placeholders_not_in_discovery_order :
  let visited :=
    @visit_hint xhint xattr (list (list xhint)) _ x_hint_imports_reversed
      "label" (x_root_meta x_two_lists) (x_start x_two_lists) in
  hint_args x_two_lists = [H_int; H_List H_int; H_List H_str] ∧
  (@union_filter xhint xattr (list (list xhint)) _ x_hint_imports_reversed
     (hint_args x_two_lists)).2 = [H_List H_int; H_List H_str] ∧
  visited.1 =
    Ok ("( isinstance(__beartype_pith_root, __beartypistry[tuple0]) or"
        +:+ " @{1}! or @{2}!)") ∧
  hints_meta visited.2 !! 1 =
    Some (Some (HintMeta (H_List H_str) "@{1}!" "__beartype_pith_root"
                         "            ")) ∧
  hints_meta visited.2 !! 2 =
    Some (Some (HintMeta (H_List H_int) "@{2}!" "__beartype_pith_root"
                         "            ")) ∧
  typistry visited.2 = [[H_list; H_int]] ∧
  ¬ @plain_child xhint xattr (list (list xhint)) x_hint_imports_reversed
      x_two_lists H_list.
Proof.
  intros visited. split; [reflexivity|]. split; [by vm_compute|].
  split; [by vm_compute|]. split; [by vm_compute|]. split; [by vm_compute|].
  split; [by vm_compute|].
  intros (Hin & _). simpl in Hin.
  repeat (apply elem_of_cons in Hin as [Hin|Hin]; [discriminate|]).
  by apply elem_of_nil in Hin.
Qed.


(** C8 on whole calls: [List[Union[Any, object]]] is checked as [list], and
    [Union[int, Union[Any, object]]] as the union of [int] alone; the union
    of ignorable hints as the root hint stops at the assertion. *)
Example pep_code_check_hint_union_all_ignorable :
  fst <$> pep_code_check_hint x_data [] (H_List x_ignorable) =
    Some (Ok "if not isinstance(__beartype_pith_root, list): raise") ∧
  fst <$> pep_code_check_hint x_data [] (H_Union2 H_int x_ignorable) =
    Some (Ok ("if not ( isinstance(__beartype_pith_root, "
              +:+ "__beartypistry[tuple0])): raise")) ∧
  typistry <$> (snd <$>
    pep_code_check_hint x_data [] (H_Union2 H_int x_ignorable)) =
    Some [[H_int]] ∧
  fst <$> pep_code_check_hint x_data [] x_ignorable =
    Some (Raise AssertionError).
Proof. split; [|split; [|split]]; by vm_compute. Qed.

(** [Union] of 300 distinct [List[class]] hints, against a capacity of 256. *)
Definition x_big : xhint := H_UnionLists 300.

Lemma capacity_overflow_raises_witness :
  init x_data [] x_big = (Ok tt, x_start x_big) ∧
  reaches (hint_root_label_of x_big) (x_start x_big) (x_start x_big) ∧
  hints_meta_index_curr (x_start x_big) ≤
    hints_meta_index_last (x_start x_big) ∧
  hints_meta (x_start x_big) !! hints_meta_index_curr (x_start x_big) =
    Some (Some (x_root_meta x_big)) ∧
  would_overflow (x_root_meta x_big) (x_start x_big) ∧
  ∃ st',
    pep_code_check_hint x_data [] x_big =
      Some (Raise (BeartypeDecorHintPepException
                     (hint_root_label_of x_big +:+
                      " contains more than " +:+ pretty SIZE_BIG +:+ " " +:+
                      dquote +:+ "typing" +:+ dquote +:+ " types.")), st') ∧
    hints_meta st' = hints_meta (x_start x_big) ∧
    hints_meta_index_last st' = hints_meta_index_last (x_start x_big) ∧
    func_code st' = func_code (x_start x_big).
Proof.
  assert (Hi : init x_data [] x_big = (Ok tt, x_start x_big)) by reflexivity.
  assert (Hr : reaches (hint_root_label_of x_big) (x_start x_big)
                       (x_start x_big)) by constructor.
  assert (Hle : hints_meta_index_curr (x_start x_big) ≤
                hints_meta_index_last (x_start x_big)) by (simpl; lia).
  assert (Hm : hints_meta (x_start x_big) !!
    hints_meta_index_curr (x_start x_big) = Some (Some (x_root_meta x_big)))
    by reflexivity.
  assert (Ho : would_overflow (x_root_meta x_big) (x_start x_big)).
  { left. split; [by repeat split|]. split; [by vm_compute|].
    split; [vm_compute; lia|]. right. by eexists _, _. }
  do 5 (split; [assumption|]).
  exact (capacity_overflow_raises x_data [] x_big (x_start x_big)
           (x_start x_big) (x_root_meta x_big) Hi Hr Hle Hm Ho).
Defined.

(** C4 as stated fails: for a union with 300 PEP-compliant children, found
    while the capacity is 256, the text of the exception names the root hint
    and the limit 256, and not the number of sub-hints found (300 children,
    301 hints with the root). *)
Lemma capacity_message_omits_count :
  match pep_code_check_hint x_data [] x_big with
  | Some (Raise (BeartypeDecorHintPepException message), st') =>
      length (hint_childs_pep st') = 300 ∧
      message =
        "$%ROOT_PITH_LABEL/~ typing.Union[typing.List[C0], ...]" +:+
        " contains more than 256 " +:+ dquote +:+ "typing" +:+ dquote +:+
        " types." ∧
      str_contains "300" message = false ∧
      str_contains "301" message = false ∧
      str_contains "256" message = true
  | _ => False
  end.
Proof. vm_compute. by repeat split. Qed.

(** [List[junk]]: a sequence whose argument is neither a [typing] object nor
    a class. *)
Definition x_junk_list : xhint := H_List H_junk.

(** The state after the root hint was visited. *)
Definition x_after_root (root : xhint) : state xhint (list (list xhint)) :=
  (visit (hint_root_label_of root) (x_start root)).2.

Lemma x_reaches_after_root (root : xhint) :
  (visit (hint_root_label_of root) (x_start root)).1 = Ok tt →
  reaches (hint_root_label_of root) (x_start root) (x_after_root root).
Proof.
  intros Hok. eapply reaches_step; [simpl; lia| |constructor].
  unfold x_after_root.
  by destruct (visit (hint_root_label_of root) (x_start root)) as [[[]|e] st];
    simpl in *.
Qed.

Lemma search_ends_within_capacity_witness :
  0 < SIZE_BIG ∧
  ∃ r, ∀ fuel, SIZE_BIG ≤ fuel →
    search fuel (hint_root_label_of x_mixed) (init x_data [] x_mixed).2 =
      Some r.
Proof.
  assert (Hpos : 0 < SIZE_BIG) by (simpl; lia).
  split; [exact Hpos|].
  exact (search_ends_within_capacity x_data [] x_mixed
           (hint_root_label_of x_mixed) Hpos).
Defined.

Lemma work_list_well_formed_witness :
  init x_data [] x_mixed = (Ok tt, x_start x_mixed) ∧
  reaches (hint_root_label_of x_mixed) (x_start x_mixed)
          (x_after_root x_mixed) ∧
  well_formed (x_after_root x_mixed) ∧
  (hints_meta_index_curr (x_after_root x_mixed) ≤
     hints_meta_index_last (x_after_root x_mixed) →
   ∃ m, hints_meta (x_after_root x_mixed) !!
          hints_meta_index_curr (x_after_root x_mixed) = Some (Some m)) ∧
  (hints_meta_index_last (x_after_root x_mixed) <
     hints_meta_index_curr (x_after_root x_mixed) →
   hints_meta (x_after_root x_mixed) = replicate SIZE_BIG None).
Proof.
  assert (Hi : init x_data [] x_mixed = (Ok tt, x_start x_mixed))
    by reflexivity.
  assert (Hr : reaches (hint_root_label_of x_mixed) (x_start x_mixed)
                       (x_after_root x_mixed)).
  { apply x_reaches_after_root. by vm_compute. }
  split; [exact Hi|]. split; [exact Hr|].
  exact (work_list_well_formed x_data [] x_mixed (hint_root_label_of x_mixed)
           (x_start x_mixed) (x_after_root x_mixed) Hi Hr).
Defined.

(** In [List[junk]] the search gets to [junk] after the root, and stops. *)
Lemma unusable_hint_raises_witness :
  let m := HintMeta H_junk "@{1}!"
             (PEP_CODE_CHECK_HINT_SEQUENCE_STANDARD_PITH_CHILD_EXPR_format
                "__beartype_pith_root")
             "            " in
  init x_data [] x_junk_list = (Ok tt, x_start x_junk_list) ∧
  reaches (hint_root_label_of x_junk_list) (x_start x_junk_list)
          (x_after_root x_junk_list) ∧
  hints_meta_index_curr (x_after_root x_junk_list) ≤
    hints_meta_index_last (x_after_root x_junk_list) ∧
  hints_meta (x_after_root x_junk_list) !!
    hints_meta_index_curr (x_after_root x_junk_list) = Some (Some m) ∧
  (is_hint_pep (meta_hint m) = false → hint_is_type (meta_hint m) = false →
   pep_code_check_hint x_data [] x_junk_list =
     Some (Raise (BeartypeDecorHintPepException
                    (not_pep_message
                       (hint_root_label_of x_junk_list +:+ " child")
                       (meta_hint m))), x_after_root x_junk_list)) ∧
  (is_hint_pep (meta_hint m) = true →
   is_hint_pep_supported (meta_hint m) = false →
   pep_code_check_hint x_data [] x_junk_list =
     Some (Raise BeartypeDecorHintPepUnsupportedException,
           x_after_root x_junk_list)).
Proof.
  intros m.
  assert (Hi : init x_data [] x_junk_list = (Ok tt, x_start x_junk_list))
    by reflexivity.
  assert (Hr : reaches (hint_root_label_of x_junk_list) (x_start x_junk_list)
                       (x_after_root x_junk_list)).
  { apply x_reaches_after_root. by vm_compute. }
  assert (Hle : hints_meta_index_curr (x_after_root x_junk_list) ≤
                hints_meta_index_last (x_after_root x_junk_list))
    by (vm_compute; lia).
  assert (Hm : hints_meta (x_after_root x_junk_list) !!
    hints_meta_index_curr (x_after_root x_junk_list) = Some (Some m))
    by (by vm_compute).
  do 4 (split; [assumption|]).
  exact (unusable_hint_raises x_data [] x_junk_list (x_start x_junk_list)
           (x_after_root x_junk_list) m Hi Hr Hle Hm).
Defined.

Example pep_code_check_hint_junk_child :
  fst <$> pep_code_check_hint x_data [] x_junk_list =
  Some (Raise (BeartypeDecorHintPepException
    ("$%ROOT_PITH_LABEL/~ typing.List[junk] child junk not PEP-compliant" +:+
     " (i.e., neither " +:+ dquote +:+ "typing" +:+ dquote +:+
     " object nor non-" +:+ dquote +:+ "typing" +:+ dquote +:+ " class)."))).
Proof. by vm_compute. Qed.

Lemma pep_code_check_hint_no_IndexError_witness :
  0 < SIZE_BIG ∧
  ∀ st', pep_code_check_hint x_data [] x_mixed ≠ Some (Raise IndexError, st').
Proof.
  assert (Hpos : 0 < SIZE_BIG) by (simpl; lia).
  assert (H1 : ∀ a, get_hint_type_origin a ≠ Raise IndexError).
  { intros a. by destruct a. }
  assert (H2 : ∀ (h : xhint) t,
    (register_typistry_type h t).1 ≠ Raise IndexError) by done.
  assert (H3 : ∀ (l : list xhint) b t,
    (register_typistry_tuple l b t).1 ≠ Raise IndexError) by done.
  split; [exact Hpos|]. intros st'.
  exact (pep_code_check_hint_no_IndexError H1 H2 H3 x_data [] x_mixed st'
           Hpos).
Defined.

(** [List[int]]. *)
Definition x_list_int : xhint := H_List H_int.

Lemma pep_code_check_hint_sequence_of_class_witness :
  let placeholder_root := pep_hint_placeholder (data_placeholder_id x_data) in
  let placeholder_child :=
    pep_hint_placeholder (S (data_placeholder_id x_data)) in
  let pith_child :=
    PEP_CODE_CHECK_HINT_SEQUENCE_STANDARD_PITH_CHILD_EXPR_format
      PEP_CODE_PITH_ROOT_EXPR in
  let func_code :=
    str_replace placeholder_child
      (PEP_CODE_CHECK_HINT_NONPEP_TYPE_format pith_child "int")
      (str_replace placeholder_root
         (PEP_CODE_CHECK_HINT_SEQUENCE_STANDARD_format CODE_INDENT_2
            PEP_CODE_PITH_ROOT_EXPR "list" placeholder_child)
         (PEP_CODE_CHECK_HINT_ROOT_format placeholder_root)) in
  1 < SIZE_BIG ∧
  sequence_of_class x_list_int H_int H_list ∧
  func_code ≠ PEP_CODE_CHECK_HINT_ROOT_format placeholder_root ∧
  ∃ st',
    pep_code_check_hint x_data [] x_list_int = Some (Ok func_code, st') ∧
    typistry st' = [] ∧
    pep_hint_placeholder_id st' = S (S (data_placeholder_id x_data)) ∧
    is_func_wrapper_needs_random_int st' = true ∧
    hints_meta st' = replicate SIZE_BIG None.
Proof.
  intros placeholder_root placeholder_child pith_child func_code.
  assert (Hbig : 1 < SIZE_BIG) by (simpl; lia).
  assert (Hseq : sequence_of_class x_list_int H_int H_list)
    by (by repeat split).
  assert (Hcode : func_code ≠ PEP_CODE_CHECK_HINT_ROOT_format placeholder_root)
    by (by vm_compute).
  do 3 (split; [assumption|]).
  exact (pep_code_check_hint_sequence_of_class x_data [] [] [] x_list_int
           H_int H_list "list" "int" Hbig Hseq eq_refl eq_refl Hcode).
Defined.

Example pep_code_check_hint_list_int :
  fst <$> pep_code_check_hint x_data [] x_list_int =
  Some (Ok ("if not (isinstance(__beartype_pith_root, list) and "
            +:+ "isinstance(__beartype_pith_root"
            +:+ "[__beartype_random_int % len(__beartype_pith_root)], int))"
            +:+ ": raise")).
Proof. by vm_compute. Qed.

Lemma placeholders_follow_slots_witness :
  init x_data [] x_mixed = (Ok tt, x_start x_mixed) ∧
  reaches (hint_root_label_of x_mixed) (x_start x_mixed)
          (x_after_root x_mixed) ∧
  numbered (data_placeholder_id x_data) (x_after_root x_mixed) ∧
  (Inj (=) (=) pep_hint_placeholder →
   ∀ i j mi mj,
     hints_meta (x_after_root x_mixed) !! i = Some (Some mi) →
     hints_meta (x_after_root x_mixed) !! j = Some (Some mj) →
     meta_placeholder mi = meta_placeholder mj → i = j).
Proof.
  assert (Hi : init x_data [] x_mixed = (Ok tt, x_start x_mixed))
    by reflexivity.
  assert (Hr : reaches (hint_root_label_of x_mixed) (x_start x_mixed)
                       (x_after_root x_mixed)).
  { apply x_reaches_after_root. by vm_compute. }
  split; [exact Hi|]. split; [exact Hr|].
  exact (placeholders_follow_slots x_data [] x_mixed
           (hint_root_label_of x_mixed) (x_start x_mixed)
           (x_after_root x_mixed) Hi Hr).
Defined.

(** [Union[int, str]]: two plain children. *)
Definition x_plain : xhint := H_Union2 H_int H_str.

Lemma union_of_plain_children_witness :
  let m := x_root_meta x_plain in
  let st := x_start x_plain in
  let sets := union_filter (hint_args (meta_hint m)) in
  visits_union m ∧
  plain_child (meta_hint m) H_int ∧
  (∀ c, ¬ compound_child (meta_hint m) c) ∧
  register_typistry_tuple (set_iter sets.1) true (typistry st) =
    (Ok "__beartypistry[tuple0]", [[H_int; H_str]]) ∧
  visit_hint (hint_root_label_of x_plain) m st =
    (Ok (format_indent_curr
           (str_drop_last 3
              (PEP_CODE_CHECK_HINT_UNION_PREFIX +:+
               PEP_CODE_CHECK_HINT_UNION_ARG_NONPEP_format
                 (meta_pith_expr m) "__beartypistry[tuple0]") +:+
            PEP_CODE_CHECK_HINT_UNION_SUFFIX)
           (meta_indent m)),
     State sets.1 [] (pep_hint_placeholder_id st)
           (is_func_wrapper_needs_random_int st) [[H_int; H_str]]
           (hints_meta st) (hints_meta_index_curr st)
           (hints_meta_index_last st) (func_code st)) ∧
  (∀ c, c ∈ set_iter sets.1 ↔ plain_child (meta_hint m) c).
Proof.
  intros m st sets.
  assert (Hv : visits_union m) by (by repeat split).
  assert (Hp : plain_child (meta_hint m) H_int).
  { split; [by left|by split]. }
  assert (Hn : ∀ c, ¬ compound_child (meta_hint m) c).
  { intros c (Hin & _ & Hpep). simpl in Hin.
    apply elem_of_cons in Hin as [->|Hin]; [done|].
    apply elem_of_cons in Hin as [->|Hin]; [done|].
    by apply elem_of_nil in Hin. }
  assert (Hreg : register_typistry_tuple (set_iter sets.1) true (typistry st) =
    (Ok "__beartypistry[tuple0]", [[H_int; H_str]])) by (by vm_compute).
  do 4 (split; [assumption|]).
  exact (union_of_plain_children (hint_root_label_of x_plain) m st H_int
           "__beartypistry[tuple0]" [[H_int; H_str]] Hv Hp Hn Hreg
           ltac:(discriminate)).
Defined.

Example pep_code_check_hint_plain_union :
  fst <$> pep_code_check_hint x_data [] x_plain =
  Some (Ok ("if not ( isinstance(__beartype_pith_root, __beartypistry[tuple0])"
            +:+ "): raise")).
Proof. by vm_compute. Qed.

End PepHint.
